(** * SIL code motion (lib/SILPasses/SILCodeMotion.cpp) and capture lists
    (lib/AST/CaptureInfo.cpp): a shallow embedding and its properties.

    The IR graph (functions, blocks, instructions, values, use lists) is
    modelled as plain data: a function is the ordered list of its blocks, a
    block is addressed by its position in that list, an instruction by a
    stable identifier (its address in the C++ code), and a use list is the
    set of operand slots that currently hold the value. *)

From stdpp Require Import base decidable option list numbers strings relations.

Set Default Proof Using "Type".

(** ** Values, instructions, blocks *)

(** A [SILValue] is the result of an instruction, a block argument, or
    [SILUndef]. *)
Inductive SILValue : Type :=
| InstResult (def : nat)
| BBArg (bb idx : nat)
| Undef.

#[global] Instance SILValue_eq_dec : EqDecision SILValue.
Proof. solve_decision. Defined.

(** An enum case declaration: [hasArgumentType] tells whether the case
    carries a payload. *)
Record EnumElementDecl : Type := mkElt {
  eltTag : nat;
  hasArgumentType : bool
}.

#[global] Instance EnumElementDecl_eq_dec : EqDecision EnumElementDecl.
Proof. solve_decision. Defined.

(** Instructions that are not terminators.  Only the kinds the pass
    distinguishes are named; every other instruction is a [GenericInst] with
    an opcode (which also stands for its result type and attributes) and its
    memory behaviour. *)
Inductive InstKind : Type :=
| GenericInst (opcode : nat) (sideEffects : bool) (ops : list SILValue)
| BuiltinFunctionRefInst (name : nat) (sideEffectFree : bool)
| ApplyInst (callee : SILValue) (args : list SILValue)
| StrongRetainInst (op : SILValue)
| RetainValueInst (op : SILValue)
| ReleaseValueInst (op : SILValue)
| UncheckedEnumDataInst (op : SILValue) (elt : EnumElementDecl).

#[global] Instance InstKind_eq_dec : EqDecision InstKind.
Proof. solve_decision. Defined.

(** Terminators.  Successor blocks are positions in the function's block
    list. *)
Inductive TermInst : Type :=
| BranchInst (dest : nat) (args : list SILValue)
| CondBranchInst (cond : SILValue) (tdest : nat) (targs : list SILValue)
                 (fdest : nat) (fargs : list SILValue)
| SwitchEnumInst (op : SILValue) (cases : list (EnumElementDecl * nat))
                 (default : option nat)
| CheckedCastBranchInst (op : SILValue) (sdest fdest : nat)
| OtherTerm (opcode : nat) (ops : list SILValue) (dests : list nat).

#[global] Instance TermInst_eq_dec : EqDecision TermInst.
Proof. solve_decision. Defined.

Record SILInstruction : Type := mkInst {
  instId : nat;
  instKind : InstKind
}.

#[global] Instance SILInstruction_eq_dec : EqDecision SILInstruction.
Proof. solve_decision. Defined.

(** What a block iterator can point at: the terminator or an instruction of
    the body. *)
Inductive SILNode : Type :=
| NTerm (t : TermInst)
| NInst (i : SILInstruction).

Record SILBasicBlock : Type := mkBB {
  bbArgs : nat;                     (* getNumBBArg() *)
  bbInsts : list SILInstruction;    (* the instructions before the terminator *)
  bbTerm : TermInst                 (* getTerminator() *)
}.

#[global] Instance SILBasicBlock_eq_dec : EqDecision SILBasicBlock.
Proof. solve_decision. Defined.

(** [fnNextId] is the allocator: the identifier the next created instruction
    gets. *)
Record SILFunction : Type := mkFn {
  fnBlocks : list SILBasicBlock;
  fnNextId : nat
}.

#[global] Instance SILFunction_eq_dec : EqDecision SILFunction.
Proof. solve_decision. Defined.

(** ** Operands and successors *)

Definition instOperands (k : InstKind) : list SILValue :=
  match k with
  | GenericInst _ _ ops => ops
  | BuiltinFunctionRefInst _ _ => []
  | ApplyInst callee args => callee :: args
  | StrongRetainInst op => [op]
  | RetainValueInst op => [op]
  | ReleaseValueInst op => [op]
  | UncheckedEnumDataInst op _ => [op]
  end.

Definition termOperands (t : TermInst) : list SILValue :=
  match t with
  | BranchInst _ args => args
  | CondBranchInst cond _ targs _ fargs => cond :: targs ++ fargs
  | SwitchEnumInst op _ _ => [op]
  | CheckedCastBranchInst op _ _ => [op]
  | OtherTerm _ ops _ => ops
  end.

Definition mapInstOperands (g : SILValue → SILValue) (k : InstKind) : InstKind :=
  match k with
  | GenericInst o e ops => GenericInst o e (g <$> ops)
  | BuiltinFunctionRefInst n e => BuiltinFunctionRefInst n e
  | ApplyInst callee args => ApplyInst (g callee) (g <$> args)
  | StrongRetainInst op => StrongRetainInst (g op)
  | RetainValueInst op => RetainValueInst (g op)
  | ReleaseValueInst op => ReleaseValueInst (g op)
  | UncheckedEnumDataInst op e => UncheckedEnumDataInst (g op) e
  end.

Definition mapTermOperands (g : SILValue → SILValue) (t : TermInst) : TermInst :=
  match t with
  | BranchInst d args => BranchInst d (g <$> args)
  | CondBranchInst c td ta fd fa => CondBranchInst (g c) td (g <$> ta) fd (g <$> fa)
  | SwitchEnumInst op cs d => SwitchEnumInst (g op) cs d
  | CheckedCastBranchInst op s f => CheckedCastBranchInst (g op) s f
  | OtherTerm o ops ds => OtherTerm o (g <$> ops) ds
  end.

(** Modelled from the spec: successor enumeration belongs to the IR
    library.  The successor edges of a terminator, one entry per edge. *)
Definition termSuccessors (t : TermInst) : list nat :=
  match t with
  | BranchInst d _ => [d]
  | CondBranchInst _ td _ fd _ => [td; fd]
  | SwitchEnumInst _ cs d => cs.*2 ++ option_list d
  | CheckedCastBranchInst _ s f => [s; f]
  | OtherTerm _ _ ds => ds
  end.

Definition getSuccs (F : SILFunction) (BB : nat) : list nat :=
  match fnBlocks F !! BB with
  | Some b => termSuccessors (bbTerm b)
  | None => []
  end.

(** The edges from block [P] (whose record is [b]) to [BB]. *)
Definition edgesTo (BB P : nat) (b : SILBasicBlock) : list nat :=
  (λ _, P) <$> filter (λ s, s = BB) (termSuccessors (bbTerm b)).

(** Modelled from the spec: predecessor enumeration belongs to the IR
    library; the order is a stable one, here the block order.  Predecessor
    edges of [BB], one entry per edge. *)
Definition getPreds (F : SILFunction) (BB : nat) : list nat :=
  mjoin (imap (edgesTo BB) (fnBlocks F)).

Definition getSingleSuccessor (F : SILFunction) (BB : nat) : option nat :=
  match getSuccs F BB with
  | [s] => Some s
  | _ => None
  end.

Definition getSinglePredecessor (F : SILFunction) (BB : nat) : option nat :=
  match getPreds F BB with
  | [p] => Some p
  | _ => None
  end.

(** ** Use lists *)

Definition bbOperands (b : SILBasicBlock) : list SILValue :=
  (bbInsts b ≫= (λ i, instOperands (instKind i))) ++ termOperands (bbTerm b).

Definition fnOperands (F : SILFunction) : list SILValue :=
  fnBlocks F ≫= bbOperands.

(** Modelled from the spec: use lists belong to the IR library.  The size
    of the use list of [v]: the operand slots holding [v]. *)
Definition numUses (F : SILFunction) (v : SILValue) : nat :=
  length (filter (λ u, u = v) (fnOperands F)).

Definition use_empty (F : SILFunction) (v : SILValue) : bool :=
  bool_decide (numUses F v = 0).

Definition hasOneUse (F : SILFunction) (v : SILValue) : bool :=
  bool_decide (numUses F v = 1).

Definition substValue (old new v : SILValue) : SILValue :=
  if decide (v = old) then new else v.

Definition mapInst (g : SILValue → SILValue) (i : SILInstruction) : SILInstruction :=
  mkInst (instId i) (mapInstOperands g (instKind i)).

Definition mapBBOperands (g : SILValue → SILValue) (b : SILBasicBlock) : SILBasicBlock :=
  mkBB (bbArgs b) (mapInst g <$> bbInsts b) (mapTermOperands g (bbTerm b)).

(** Modelled from the spec: [replaceAllUsesWith] belongs to the IR library
    (the bulk replace-all-uses of the use lists).
    [old.replaceAllUsesWith(new)]: every operand slot holding [old] now
    holds [new]. *)
Definition replaceAllUsesWith (old new : SILValue) (F : SILFunction) : SILFunction :=
  mkFn (mapBBOperands (substValue old new) <$> fnBlocks F) (fnNextId F).

(** ** Finding, erasing, moving and inserting instructions *)

Definition bbInstIds (b : SILBasicBlock) : list nat := instId <$> bbInsts b.

Definition fnInsts (F : SILFunction) : list SILInstruction :=
  fnBlocks F ≫= bbInsts.

Definition numInsts (F : SILFunction) : nat := length (fnInsts F).

(** The instruction an identifier denotes. *)
Definition getInst (F : SILFunction) (id : nat) : option SILInstruction :=
  snd <$> list_find (λ i, instId i = id) (fnInsts F).

(** [I->getParent()]. *)
Definition getParent (F : SILFunction) (id : nat) : option nat :=
  fst <$> list_find (λ b, id ∈ bbInstIds b) (fnBlocks F).

(** [dyn_cast<SILInstruction>(v)]. *)
Definition getDef (F : SILFunction) (v : SILValue) : option SILInstruction :=
  match v with
  | InstResult id => getInst F id
  | _ => None
  end.

Definition updInsts (g : list SILInstruction → list SILInstruction)
    (b : SILBasicBlock) : SILBasicBlock :=
  mkBB (bbArgs b) (g (bbInsts b)) (bbTerm b).

Definition updBlockInsts (g : list SILInstruction → list SILInstruction)
    (BB : nat) (F : SILFunction) : SILFunction :=
  mkFn (alter (updInsts g) BB (fnBlocks F)) (fnNextId F).

Fixpoint removeInst (id : nat) (l : list SILInstruction) : list SILInstruction :=
  match l with
  | [] => []
  | i :: l' => if decide (instId i = id) then l' else i :: removeInst id l'
  end.

(** Modelled from the spec: instruction erase belongs to the IR library.
    [I->eraseFromParent()]: the instruction leaves its block. *)
Definition eraseFromParent (id : nat) (F : SILFunction) : SILFunction :=
  match getParent F id with
  | Some P => updBlockInsts (removeInst id) P F
  | None => F
  end.

(** Modelled from the spec: instruction move belongs to the IR library.
    [I->moveBefore(BB->begin())]: the instruction leaves its block and
    becomes the first instruction of [BB]. *)
Definition moveBefore_begin (id BB : nat) (F : SILFunction) : SILFunction :=
  match getInst F id with
  | Some Inst => updBlockInsts (cons Inst) BB (eraseFromParent id F)
  | None => F
  end.

(** ** Sinkability and barriers *)

Definition SinkSearchWindow : nat := 6.

(** Modelled from the spec: [SILInstruction::mayHaveSideEffects] belongs to
    the IR library.  A generic instruction carries its own memory behaviour;
    calls and reference-count operations have side effects; function
    references and payload projections have none. *)
Definition mayHaveSideEffects (k : InstKind) : bool :=
  match k with
  | GenericInst _ e _ => e
  | BuiltinFunctionRefInst _ _ => false
  | ApplyInst _ _ => true
  | StrongRetainInst _ => true
  | RetainValueInst _ => true
  | ReleaseValueInst _ => true
  | UncheckedEnumDataInst _ _ => false
  end.

Definition isaTermInst (n : SILNode) : bool :=
  match n with NTerm _ => true | NInst _ => false end.

Definition node_use_empty (F : SILFunction) (n : SILNode) : bool :=
  match n with
  | NTerm _ => true
  | NInst i => use_empty F (InstResult (instId i))
  end.

Definition canSinkInstruction (F : SILFunction) (Inst : SILNode) : bool :=
  node_use_empty F Inst && negb (isaTermInst Inst).

Definition isSinkBarrier (F : SILFunction) (Inst : SILNode) : bool :=
  match Inst with
  | NTerm _ => false
  | NInst i =>
      match instKind i with
      | ApplyInst callee _ =>
          match instKind <$> getDef F callee with
          | Some (BuiltinFunctionRefInst _ sideEffectFree) => negb sideEffectFree
          | _ => mayHaveSideEffects (instKind i)
          end
      | k => mayHaveSideEffects k
      end
  end.

(** Modelled from the spec: [SILInstruction::isIdenticalTo] belongs to the
    IR library (the structural-equality comparison between two
    instructions): same kind, attributes and operands; the position and the
    identity of the instruction are ignored.  Values carry no types here;
    where a property depends on the types, their relation to the edges is a
    hypothesis ([edgesWellTyped]). *)
Definition isIdenticalTo (a b : SILInstruction) : bool :=
  bool_decide (instKind a = instKind b).

Definition nodeIdenticalTo (Iden : SILInstruction) (n : SILNode) : bool :=
  match n with
  | NTerm _ => false
  | NInst i => isIdenticalTo Iden i
  end.

Definition asInst (n : SILNode) : option SILInstruction :=
  match n with NTerm _ => None | NInst i => Some i end.

(** The block seen from its terminator backwards. *)
Definition nodesBackward (b : SILBasicBlock) : list SILNode :=
  NTerm (bbTerm b) :: (NInst <$> reverse (bbInsts b)).

(** The loop of [findIdenticalInBlock]: [cur] is the instruction under the
    iterator followed by the ones before it. *)
Fixpoint findIdenticalScan (F : SILFunction) (SkipBudget : nat)
    (cur : list SILNode) (Iden : SILInstruction) : option SILInstruction :=
  match SkipBudget, cur with
  | S SkipBudget', InstToSink :: before =>
      if canSinkInstruction F InstToSink && nodeIdenticalTo Iden InstToSink
      then asInst InstToSink
      else if isSinkBarrier F InstToSink then None
      else match before with
           | [] => None
           | _ => findIdenticalScan F SkipBudget' before Iden
           end
  | _, _ => None
  end.

Definition findIdenticalInBlock (F : SILFunction) (BB : nat)
    (Iden : SILInstruction) : option SILInstruction :=
  b ← fnBlocks F !! BB;
  findIdenticalScan F SinkSearchWindow (nodesBackward b) Iden.

(** ** The pass state *)

(** The function being transformed, the statistic [NumSunk], and whether
    [invalidateAnalysis(Instructions)] has been called. *)
Record PassState : Type := mkState {
  stFn : SILFunction;
  NumSunk : nat;
  stInvalidated : bool
}.

#[global] Instance PassState_eq_dec : EqDecision PassState.
Proof. solve_decision. Defined.

Definition setFn (F : SILFunction) (st : PassState) : PassState :=
  mkState F (NumSunk st) (stInvalidated st).

(** Modelled from the spec: [NumSunk] is a statistic declared outside the
    sources (STATISTIC, line 32), an increment-only counter of instructions
    sunk.  [NumSunk st] is the number of times [NumSunk++] has been
    executed; the width of the counter that stores it is not modelled, and
    the properties of [NumSunk] count the increments of a call. *)
Definition incNumSunk (st : PassState) : PassState :=
  mkState (stFn st) (S (NumSunk st)) (stInvalidated st).

Definition invalidateAnalysis (st : PassState) : PassState :=
  mkState (stFn st) (NumSunk st) true.

Definition blockNodesBackward (F : SILFunction) (BB : nat) : list SILNode :=
  match fnBlocks F !! BB with
  | Some b => nodesBackward b
  | None => []
  end.

(** ** Duplicate-code sinker: [sinkCodeFromPredecessors] *)

(** The loop over the predecessors that fills [Dups]; a mismatch clears the
    list and leaves the loop. *)
Fixpoint findDups (F : SILFunction) (FirstPred : nat) (InstToSink : SILInstruction)
    (Preds : list nat) (Dups : list SILInstruction) : list SILInstruction :=
  match Preds with
  | [] => Dups
  | P :: rest =>
      if decide (P = FirstPred) then findDups F FirstPred InstToSink rest Dups
      else match findIdenticalInBlock F P InstToSink with
           | Some DupInst => findDups F FirstPred InstToSink rest (Dups ++ [DupInst])
           | None => []
           end
  end.

(** The loop over [Dups] after the move: uses rewritten, duplicate erased,
    statistic incremented. *)
Fixpoint eraseDups (InstToSink : SILInstruction) (Dups : list SILInstruction)
    (st : PassState) : PassState :=
  match Dups with
  | [] => st
  | D :: rest =>
      let F1 := replaceAllUsesWith (InstResult (instId D))
                  (InstResult (instId InstToSink)) (stFn st) in
      let F2 := eraseFromParent (instId D) F1 in
      eraseDups InstToSink rest (incNumSunk (setFn F2 st))
  end.

(** What one iteration of the [while (SkipBudget)] loop decides. *)
Inductive ScanStep : Type :=
| StepSunk (st' : PassState)     (* sunk: restart from the terminator *)
| StepStop                       (* barrier or first instruction: return *)
| StepPrev.                      (* budget decremented, previous instruction *)

Definition dupsFor (BB FirstPred : nat) (InstToSink : SILNode)
    (st : PassState) : list SILInstruction :=
  if canSinkInstruction (stFn st) InstToSink then
    match InstToSink with
    | NInst i => findDups (stFn st) FirstPred i (getPreds (stFn st) BB) []
    | NTerm _ => []
    end
  else [].

Definition sinkDups (BB : nat) (InstToSink : SILInstruction)
    (Dups : list SILInstruction) (st : PassState) : PassState :=
  eraseDups InstToSink Dups
    (setFn (moveBefore_begin (instId InstToSink) BB (stFn st)) st).

Definition scanStep (BB FirstPred : nat) (InstToSink : SILNode)
    (before : list SILNode) (st : PassState) : ScanStep :=
  match dupsFor BB FirstPred InstToSink st, InstToSink with
  | D :: Dups, NInst i => StepSunk (sinkDups BB i (D :: Dups) st)
  | _, _ =>
      if isSinkBarrier (stFn st) InstToSink then StepStop
      else match before with
           | [] => StepStop
           | _ => StepPrev
           end
  end.

(** The [while (SkipBudget)] loop.  [cur] is the instruction under the
    iterator followed by the ones before it in the first predecessor.
    [fuel] bounds the number of iterations. *)
Fixpoint sinkScan (fuel : nat) (BB FirstPred : nat) (SkipBudget : nat)
    (cur : list SILNode) (st : PassState) (Changed : bool) : PassState * bool :=
  match fuel, SkipBudget, cur with
  | S fuel', S SkipBudget', InstToSink :: before =>
      match scanStep BB FirstPred InstToSink before st with
      | StepSunk st' =>
          sinkScan fuel' BB FirstPred SkipBudget
            (blockNodesBackward (stFn st') FirstPred) st' true
      | StepStop => (st, Changed)
      | StepPrev => sinkScan fuel' BB FirstPred SkipBudget' before st Changed
      end
  | _, _, _ => (st, Changed)
  end.

(** Every sink erases an instruction and every other iteration consumes
    budget, so this many iterations are never exceeded. *)
Definition scanFuel (F : SILFunction) : nat := numInsts F + SinkSearchWindow.

Definition allPredsHaveSingleSuccessor (F : SILFunction) (BB : nat) : bool :=
  forallb (λ P, bool_decide (getSingleSuccessor F P = Some BB)) (getPreds F BB).

Definition sinkCodeFromPredecessors (BB : nat) (st : PassState) : PassState * bool :=
  let F := stFn st in
  match getPreds F BB with
  | [] => (st, false)
  | FirstPred :: _ =>
      if negb (allPredsHaveSingleSuccessor F BB) then (st, false)
      else match fnBlocks F !! FirstPred with
           | None => (st, false)
           | Some fp =>
               match bbInsts fp with
               | [] => (st, false)
               | _ => sinkScan (scanFuel F) BB FirstPred SinkSearchWindow
                        (nodesBackward fp) st false
               end
           end
  end.

(** The iterations of the [while (SkipBudget)] loop as transitions between
    configurations: the budget left, the instruction under the iterator with
    the ones before it, the state, and the [Changed] flag. *)
Record ScanConfig : Type := mkConfig {
  cfgBudget : nat;
  cfgCur : list SILNode;
  cfgState : PassState;
  cfgChanged : bool
}.

Inductive scanNext (BB FirstPred : nat) : ScanConfig → ScanConfig → Prop :=
| scanNext_sunk budget x before st ch st' :
    scanStep BB FirstPred x before st = StepSunk st' →
    scanNext BB FirstPred
      (mkConfig (S budget) (x :: before) st ch)
      (mkConfig (S budget) (blockNodesBackward (stFn st') FirstPred) st' true)
| scanNext_prev budget x before st ch :
    scanStep BB FirstPred x before st = StepPrev →
    scanNext BB FirstPred
      (mkConfig (S budget) (x :: before) st ch)
      (mkConfig budget before st ch).

(** The instructions the iterator has passed since the last restart are
    the ones between the iterator and the end of the first predecessor;
    none of them is a sink barrier. *)
Definition skippedAreNotBarriers (FirstPred : nat) (c : ScanConfig) : Prop :=
  ∃ skipped,
    blockNodesBackward (stFn (cfgState c)) FirstPred = skipped ++ cfgCur c ∧
    Forall (λ n, isSinkBarrier (stFn (cfgState c)) n = false) skipped.

(** ** Block-argument sinker: [sinkArgument] *)

Definition getOperand (t : TermInst) (n : nat) : option SILValue :=
  termOperands t !! n.

Definition isaBranchInst (t : TermInst) : bool :=
  match t with BranchInst _ _ => true | _ => false end.

Definition isaCondBranchInst (t : TermInst) : bool :=
  match t with CondBranchInst _ _ _ _ _ => true | _ => false end.

(** Modelled from the spec: [isInstructionTriviallyDead] belongs to the
    pass utilities (Local.h): an instruction without uses, not a terminator
    and without side effects. *)
Definition isInstructionTriviallyDead (F : SILFunction) (Inst : SILInstruction) : bool :=
  use_empty F (InstResult (instId Inst)) && negb (mayHaveSideEffects (instKind Inst)).

(** Modelled from the spec: [recursivelyDeleteTriviallyDeadInstructions]
    belongs to the pass utilities (Local.h): erase the instruction if it is
    trivially dead, then the definitions of its operands that this made
    dead, along the operand chain. *)
Fixpoint recursivelyDelete (fuel : nat) (id : nat) (F : SILFunction) : SILFunction :=
  match fuel with
  | 0 => F
  | S fuel' =>
      match getInst F id with
      | Some Inst =>
          if isInstructionTriviallyDead F Inst then
            foldl (λ F' v, match v with
                           | InstResult d => recursivelyDelete fuel' d F'
                           | _ => F'
                           end)
                  (eraseFromParent id F) (instOperands (instKind Inst))
          else F
      | None => F
      end
  end.

Definition recursivelyDeleteTriviallyDeadInstructions (id : nat)
    (F : SILFunction) : SILFunction :=
  recursivelyDelete (numInsts F) id F.

(** The loop of [sinkArgument] over the predecessors.  [None] is a contract
    violation (an operand index out of range), [Some None] is [return
    false], [Some (Some Clones)] is the loop running to its end. *)
Fixpoint checkPreds (F : SILFunction) (FirstPred ArgNum : nat) (FSI : SILInstruction)
    (Preds : list nat) (Clones : list SILValue) : option (option (list SILValue)) :=
  match Preds with
  | [] => Some (Some Clones)
  | P :: rest =>
      if decide (P = FirstPred) then checkPreds F FirstPred ArgNum FSI rest Clones
      else
        b ← fnBlocks F !! P;
        let TI := bbTerm b in
        if negb (isaBranchInst TI) && negb (isaCondBranchInst TI) then Some None
        else
          Arg ← getOperand TI ArgNum;
          match getDef F Arg with
          | Some SI =>
              if hasOneUse F (InstResult (instId SI)) && isIdenticalTo SI FSI
              then checkPreds F FirstPred ArgNum FSI rest
                     (Clones ++ [InstResult (instId SI)])
              else Some None
          | None => Some None
          end
  end.

(** The loop over [Clones] that replaces the incoming values with undef and
    deletes their definitions. *)
Definition deleteClone (FSI : SILInstruction) (F : SILFunction) (S : SILValue) : SILFunction :=
  match S with
  | InstResult d =>
      if decide (d = instId FSI) then F
      else recursivelyDeleteTriviallyDeadInstructions d
             (replaceAllUsesWith S Undef F)
  | _ => F
  end.

Definition sinkArgument (BB ArgNum : nat) (st : PassState) : option (PassState * bool) :=
  let F := stFn st in
  b ← fnBlocks F !! BB;
  guard (ArgNum < bbArgs b);;
  FirstPred ← head (getPreds F BB);
  fp ← fnBlocks F !! FirstPred;
  FirstPredArg ← getOperand (bbTerm fp) ArgNum;
  match getDef F FirstPredArg with
  | None => Some (st, false)
  | Some FSI =>
      if negb (hasOneUse F (InstResult (instId FSI))) then Some (st, false)
      else if mayHaveSideEffects (instKind FSI) then Some (st, false)
      else
        r ← checkPreds F FirstPred ArgNum FSI (getPreds F BB) [FirstPredArg];
        match r with
        | None => Some (st, false)
        | Some Clones =>
            let F1 := replaceAllUsesWith FirstPredArg Undef F in
            let F2 := moveBefore_begin (instId FSI) BB F1 in
            let F3 := replaceAllUsesWith (BBArg BB ArgNum) FirstPredArg F2 in
            Some (setFn (foldl (deleteClone FSI) F3 Clones) st, true)
        end
  end.

Fixpoint sinkArguments (BB : nat) (ArgNums : list nat) (st : PassState)
    (Changed : bool) : option (PassState * bool) :=
  match ArgNums with
  | [] => Some (st, Changed)
  | i :: rest =>
      '(st', c) ← sinkArgument BB i st;
      sinkArguments BB rest st' (Changed || c)
  end.

Definition sinkArgumentsFromPredecessors (BB : nat) (st : PassState)
    : option (PassState * bool) :=
  let F := stFn st in
  match getPreds F BB with
  | [] => Some (st, false)
  | [_] => Some (st, false)
  | _ =>
      if negb (allPredsHaveSingleSuccessor F BB) then Some (st, false)
      else
        b ← fnBlocks F !! BB;
        sinkArguments BB (seq 0 (bbArgs b)) st false
  end.

(** ** Reference-count sinker: [sinkRetainToSuccessors] *)

(** The alias oracle: may this instruction decrement the reference count
    reachable through this pointer? *)
Definition AliasAnalysis : Type := SILInstruction → SILValue → bool.

Definition canDecrementRefCount (User : SILInstruction) (Ptr : SILValue)
    (AA : AliasAnalysis) : bool := AA User Ptr.

(** A [SILBuilder] inserts before its insertion point: the instruction at
    position [insertIdx] of block [insertBB]. *)
Record SILBuilder : Type := mkBuilder {
  insertBB : nat;
  insertIdx : nat
}.

(** [Builder.setInsertionPoint(&*Succ->begin())]. *)
Definition setInsertionPoint_begin (Succ : nat) : SILBuilder := mkBuilder Succ 0.

Definition insertInst (k : nat) (Inst : SILInstruction)
    (l : list SILInstruction) : list SILInstruction :=
  take k l ++ Inst :: drop k l.

(** Modelled from the spec: instruction insertion belongs to the IR
    library ([SILBuilder]).  [Builder.create...]: a new instruction with a
    fresh identifier, inserted before the insertion point. *)
Definition createInst (Builder : SILBuilder) (k : InstKind) (F : SILFunction)
    : SILValue * SILBuilder * SILFunction :=
  let id := fnNextId F in
  (InstResult id,
   mkBuilder (insertBB Builder) (S (insertIdx Builder)),
   mkFn (alter (updInsts (insertInst (insertIdx Builder) (mkInst id k)))
           (insertBB Builder) (fnBlocks F))
        (S id)).

(** [I->getOperand(0)]; the pass reads it only from reference-count
    instructions, which have exactly one operand. *)
Definition getOperand0 (Inst : SILInstruction) : SILValue :=
  match instOperands (instKind Inst) with
  | v :: _ => v
  | [] => Undef
  end.

Definition isaRetainValueInst (Inst : SILInstruction) : bool :=
  match instKind Inst with RetainValueInst _ => true | _ => false end.

Definition isaStrongRetainInst (Inst : SILInstruction) : bool :=
  match instKind Inst with StrongRetainInst _ => true | _ => false end.

Definition createRefCountOpForPayload (Builder : SILBuilder) (Inst : SILInstruction)
    (EnumDecl : EnumElementDecl) (F : SILFunction) : SILFunction :=
  if negb (hasArgumentType EnumDecl) then F
  else
    let '(UEDI, Builder1, F1) :=
      createInst Builder (UncheckedEnumDataInst (getOperand0 Inst) EnumDecl) F in
    if isaRetainValueInst Inst
    then (createInst Builder1 (RetainValueInst UEDI) F1).2
    else (createInst Builder1 (ReleaseValueInst UEDI) F1).2.

(** The instructions strictly after the one named [id]. *)
Fixpoint instsAfter (id : nat) (l : list SILInstruction) : list SILInstruction :=
  match l with
  | [] => []
  | i :: l' => if decide (instId i = id) then l' else instsAfter id l'
  end.

(** The loop [for (++II; &*II != S; ++II)] over the instructions between
    [Inst] and the terminator of its block [BB]. *)
Definition mayBeDecrementedAfter (AA : AliasAnalysis) (BB : nat) (Inst : SILInstruction)
    (Ptr : SILValue) (F : SILFunction) : bool :=
  match fnBlocks F !! BB with
  | Some b =>
      existsb (λ II, canDecrementRefCount II Ptr AA) (instsAfter (instId Inst) (bbInsts b))
  | None => false
  end.

Definition sinkAcrossCases (Inst : SILInstruction)
    (Cases : list (EnumElementDecl * nat)) (F : SILFunction) : SILFunction :=
  foldl (λ F' Case,
           createRefCountOpForPayload (setInsertionPoint_begin Case.2) Inst Case.1 F')
        F Cases.

(** [S] is a [switch_enum] with operand [SOp] and cases [Cases], the
    terminator of block [BB]. *)
Definition tryToSinkRefCountAcrossSwitch (AA : AliasAnalysis) (BB : nat)
    (SOp : SILValue) (Cases : list (EnumElementDecl * nat))
    (Inst : SILInstruction) (st : PassState) : PassState * bool :=
  if negb (isaRetainValueInst Inst) then (st, false)
  else
    let Ptr := getOperand0 Inst in
    if negb (bool_decide (Ptr = SOp)) then (st, false)
    else if mayBeDecrementedAfter AA BB Inst Ptr (stFn st) then (st, false)
    else
      let F1 := sinkAcrossCases Inst Cases (stFn st) in
      (incNumSunk (setFn (eraseFromParent (instId Inst) F1) st), true).

Definition isaCheckedCastBranchInst (t : TermInst) : bool :=
  match t with CheckedCastBranchInst _ _ _ => true | _ => false end.

Definition sinkToSuccessors (Ptr : SILValue) (Succs : list nat)
    (F : SILFunction) : SILFunction :=
  foldl (λ F' SuccBB,
           (createInst (setInsertionPoint_begin SuccBB) (StrongRetainInst Ptr) F').2)
        F Succs.

(** [T] is the terminator of block [BB]. *)
Definition tryToSinkRefCountInst (AA : AliasAnalysis) (BB : nat) (T : TermInst)
    (Inst : SILInstruction) (st : PassState) : PassState * bool :=
  match T with
  | SwitchEnumInst SOp Cases _ =>
      tryToSinkRefCountAcrossSwitch AA BB SOp Cases Inst st
  | _ =>
      if negb (isaCheckedCastBranchInst T) && negb (isaCondBranchInst T)
      then (st, false)
      else if negb (isaStrongRetainInst Inst) then (st, false)
      else
        let Ptr := getOperand0 Inst in
        if mayBeDecrementedAfter AA BB Inst Ptr (stFn st) then (st, false)
        else
          let F1 := sinkToSuccessors Ptr (getSuccs (stFn st) BB) (stFn st) in
          (incNumSunk (setFn (eraseFromParent (instId Inst) F1) st), true)
  end.

Definition allSuccsHaveSinglePredecessor (F : SILFunction) (BB : nat) : bool :=
  forallb (λ SuccBB, bool_decide (is_Some (getSinglePredecessor F SuccBB)))
          (getSuccs F BB).

(** The candidates in the order the loop visits them: from the instruction
    before the terminator back to the first one. *)
Definition tryCandidates (AA : AliasAnalysis) (BB : nat) (T : TermInst)
    (Cands : list SILInstruction) (st : PassState) : PassState * bool :=
  foldl (λ acc Inst,
           let r := tryToSinkRefCountInst AA BB T Inst acc.1 in
           (r.1, acc.2 || r.2))
        (st, false) Cands.

Definition sinkRetainToSuccessors (AA : AliasAnalysis) (BB : nat)
    (st : PassState) : PassState * bool :=
  let F := stFn st in
  match fnBlocks F !! BB with
  | None => (st, false)
  | Some b =>
      if negb (allSuccsHaveSinglePredecessor F BB) then (st, false)
      else match bbInsts b with
           | [] => (st, false)
           | _ => tryCandidates AA BB (bbTerm b) (reverse (bbInsts b)) st
           end
  end.

(** ** The pass driver: [SILCodeMotion::run] *)

(** The body of the loop over the blocks. *)
Definition runOnBlock (AA : AliasAnalysis) (BB : nat) (st : PassState)
    (Changed : bool) : option (PassState * bool) :=
  let r1 := sinkCodeFromPredecessors BB st in
  '(st2, c2) ← sinkArgumentsFromPredecessors BB r1.1;
  let r3 := sinkRetainToSuccessors AA BB st2 in
  Some (r3.1, Changed || r1.2 || c2 || r3.2).

Fixpoint runOnBlocks (AA : AliasAnalysis) (BBs : list nat) (st : PassState)
    (Changed : bool) : option (PassState * bool) :=
  match BBs with
  | [] => Some (st, Changed)
  | BB :: rest =>
      '(st', Changed') ← runOnBlock AA BB st Changed;
      runOnBlocks AA rest st' Changed'
  end.

Definition run (AA : AliasAnalysis) (st : PassState) : option (PassState * bool) :=
  match runOnBlocks AA (seq 0 (length (fnBlocks (stFn st)))) st false with
  | Some (st', Changed) =>
      Some (if Changed then invalidateAnalysis st' else st', Changed)
  | None => None
  end.

(** No sinker finds anything to sink in any block: the function cannot be
    improved further by the pass. *)
Definition nothingToSink (AA : AliasAnalysis) (st : PassState) : bool :=
  forallb (λ BB,
             negb (sinkCodeFromPredecessors BB st).2 &&
             match sinkArgumentsFromPredecessors BB st with
             | Some r => negb r.2
             | None => false
             end &&
             negb (sinkRetainToSuccessors AA BB st).2)
          (seq 0 (length (fnBlocks (stFn st)))).

(** ** The sweep as a sequence of sinker calls *)

Inductive Sinker : Type :=
| DuplicateCodeSinker
| BlockArgumentSinker
| ReferenceCountSinker.

#[global] Instance Sinker_eq_dec : EqDecision Sinker.
Proof. solve_decision. Defined.

Definition applySinker (AA : AliasAnalysis) (s : Sinker) (BB : nat)
    (st : PassState) : option (PassState * bool) :=
  match s with
  | DuplicateCodeSinker => Some (sinkCodeFromPredecessors BB st)
  | BlockArgumentSinker => sinkArgumentsFromPredecessors BB st
  | ReferenceCountSinker => Some (sinkRetainToSuccessors AA BB st)
  end.

(** One call of a sinker on a block: the state before, the state after and
    what the sinker reported. *)
Record SinkerCall : Type := mkCall {
  callBlock : nat;
  callSinker : Sinker;
  callBefore : PassState;
  callAfter : PassState;
  callChanged : bool
}.

(** The calls made when the sinkers of [sched] run one after the other, and
    the state after the last one. *)
Fixpoint sweepCalls (AA : AliasAnalysis) (sched : list (nat * Sinker))
    (st : PassState) : option (list SinkerCall * PassState) :=
  match sched with
  | [] => Some ([], st)
  | (BB, s) :: rest =>
      '(st1, c) ← applySinker AA s BB st;
      '(calls, st') ← sweepCalls AA rest st1;
      Some (mkCall BB s st st1 c :: calls, st')
  end.

Definition sinkersOfBlock (BB : nat) : list (nat * Sinker) :=
  [(BB, DuplicateCodeSinker); (BB, BlockArgumentSinker); (BB, ReferenceCountSinker)].

(** Blocks [0 .. n-1] in order, each with the three sinkers in order. *)
Definition sweepSchedule (n : nat) : list (nat * Sinker) :=
  seq 0 n ≫= sinkersOfBlock.

(** ** What the reference-count sinker emits *)

(** The two instructions emitted for a case with a payload: the projection
    of the payload of the operand of [Inst], and the retain of the projected
    value. *)
Definition payloadOps (Inst : SILInstruction) (n : nat) (e : EnumElementDecl)
    : list SILInstruction :=
  [mkInst n (UncheckedEnumDataInst (getOperand0 Inst) e);
   mkInst (S n) (RetainValueInst (InstResult n))].

(** Block [s] starts with a [strong_retain] of [Ptr] created at or after
    allocator state [N]. *)
Definition startsWithRetain (Ptr : SILValue) (F : SILFunction) (s N : nat) : Prop :=
  ∃ bs id rest, fnBlocks F !! s = Some bs ∧
    bbInsts bs = mkInst id (StrongRetainInst Ptr) :: rest ∧ N ≤ id.

(** ** Small functions used as examples *)

Definition exPure (id : nat) : SILInstruction := mkInst id (GenericInst 1 false []).
Definition exStore (id : nat) : SILInstruction := mkInst id (GenericInst 2 true []).
Definition exReturn : TermInst := OtherTerm 0 [] [].
Definition exSome : EnumElementDecl := mkElt 0 true.
Definition exNone : EnumElementDecl := mkElt 1 false.
Definition exNoAlias : AliasAnalysis := λ _ _, false.

(** Blocks 0 and 1 end in the same pure instruction and branch to block 2. *)
Definition exTwoPreds : PassState :=
  mkState (mkFn [mkBB 0 [exPure 10] (BranchInst 2 []);
                 mkBB 0 [exPure 11] (BranchInst 2 []);
                 mkBB 0 [] exReturn] 20) 0 false.

(** The same with three predecessors of block 3. *)
Definition exThreePreds : PassState :=
  mkState (mkFn [mkBB 0 [exPure 10] (BranchInst 3 []);
                 mkBB 0 [exPure 11] (BranchInst 3 []);
                 mkBB 0 [exPure 12] (BranchInst 3 []);
                 mkBB 0 [] exReturn] 20) 0 false.

(** Blocks 0 and 1 end in a pure instruction followed by the same
    side-effecting instruction without uses. *)
Definition exBarrier : PassState :=
  mkState (mkFn [mkBB 0 [exPure 10; exStore 12] (BranchInst 2 []);
                 mkBB 0 [exPure 11; exStore 13] (BranchInst 2 []);
                 mkBB 0 [] exReturn] 20) 0 false.

(** Blocks 0 and 1 pass to block 2 the same pure value as argument 0 and
    different values as argument 1. *)
Definition exArgs : PassState :=
  mkState (mkFn [mkBB 0 [exPure 10; exPure 12]
                   (BranchInst 2 [InstResult 10; InstResult 12]);
                 mkBB 0 [exPure 11; mkInst 13 (GenericInst 4 false [])]
                   (BranchInst 2 [InstResult 11; InstResult 13]);
                 mkBB 2 [mkInst 14 (GenericInst 3 true [BBArg 2 0; BBArg 2 1])]
                   exReturn] 20) 0 false.

Definition exArgsSunk : PassState :=
  Eval vm_compute in
    match sinkArgument 2 0 exArgs with
    | Some r => r.1
    | None => exArgs
    end.

(** The first predecessor of block 2 ends in a [switch_enum] with a single
    case; the second one in a branch. *)
Definition exSwitchFirstPred : PassState :=
  mkState (mkFn [mkBB 0 [exPure 10] (SwitchEnumInst (InstResult 10) [(exSome, 2)] None);
                 mkBB 0 [exPure 11] (BranchInst 2 [InstResult 11]);
                 mkBB 1 [mkInst 14 (GenericInst 3 true [BBArg 2 0])] exReturn] 20)
          0 false.

Definition exSwitchFirstPredSunk : PassState :=
  Eval vm_compute in
    match sinkArgumentsFromPredecessors 2 exSwitchFirstPred with
    | Some r => r.1
    | None => exSwitchFirstPred
    end.

(** Block 0 retains its argument and dispatches on it: one case with a
    payload, one without. *)
Definition exRetainValue : SILInstruction := mkInst 5 (RetainValueInst (BBArg 0 0)).

Definition exSwitchBlock : SILBasicBlock :=
  mkBB 1 [exRetainValue; exStore 6]
       (SwitchEnumInst (BBArg 0 0) [(exSome, 1); (exNone, 2)] None).

Definition exSwitchRetain : PassState :=
  mkState (mkFn [exSwitchBlock; mkBB 0 [exPure 11] exReturn; mkBB 0 [] exReturn] 20)
          0 false.

(** Block 0 has two [strong_retain]s of the same pointer around an
    instruction that the oracle [exDecrementAt2] says may decrement it. *)
Definition exStrongRetain (id : nat) : SILInstruction :=
  mkInst id (StrongRetainInst (BBArg 0 0)).

Definition exCondBrBlock : SILBasicBlock :=
  mkBB 2 [exStrongRetain 1; exStore 2; exStrongRetain 3]
       (CondBranchInst (BBArg 0 1) 1 [] 2 []).

Definition exTwoRetains : PassState :=
  mkState (mkFn [exCondBrBlock; mkBB 0 [] exReturn; mkBB 0 [] exReturn] 20) 0 false.

Definition exDecrementAt2 : AliasAnalysis := λ II _, bool_decide (instId II = 2).

Definition exTwoRetainsSunk : PassState :=
  Eval vm_compute in (tryToSinkRefCountInst exNoAlias 0 (bbTerm exCondBrBlock)
                        (exStrongRetain 3) exTwoRetains).1.

(** A function in which nothing can be sunk. *)
Definition exQuiet : PassState :=
  mkState (mkFn [mkBB 0 [exPure 10] (BranchInst 1 []); mkBB 0 [] exReturn] 20) 0 false.

(** ** Capture lists: [CaptureInfo] *)

Module CaptureInfo.

Record ValueDecl : Type := mkDecl {
  getName : string;
  isLocalContext : bool
}.

(** A [raw_ostream] is the text written to it so far. *)
Definition raw_ostream : Type := string.

Definition hasLocalCaptures (Captures : list ValueDecl) : bool :=
  existsb isLocalContext Captures.

(** [None] is the out-of-range read of [getCaptures()[0]]. *)
Definition print (Captures : list ValueDecl) (OS : raw_ostream) : option raw_ostream :=
  let OS1 := OS +:+ "captures=("%string in
  VD0 ← Captures !! 0;
  let OS2 := OS1 +:+ getName VD0 in
  let OS3 := foldl (λ os VD, os +:+ ", "%string +:+ getName VD) OS2 (drop 1 Captures) in
  Some (OS3 +:+ ")"%string).

Definition newline : string := String (Ascii.ascii_of_nat 10) EmptyString.

Definition dump (Captures : list ValueDecl) (errs : raw_ostream) : option raw_ostream :=
  OS ← print Captures errs;
  Some (OS +:+ newline).

(** The names of a capture list, separated by [sep]. *)
Fixpoint joinNames (sep : string) (l : list ValueDecl) : string :=
  match l with
  | [] => EmptyString
  | [VD] => getName VD
  | VD :: rest => getName VD +:+ sep +:+ joinNames sep rest
  end.

End CaptureInfo.

(** ** Renaming operands *)

(** [operandsRenamed g F F']: the function [F'] has the blocks of [F] with
    the same block arguments and the same terminators up to the renaming [g]
    of operands, and every instruction of [F'] is an instruction of [F] with
    its operands renamed by [g]. *)
Definition operandsRenamed (g : SILValue → SILValue) (F F' : SILFunction) : Prop :=
  length (fnBlocks F') = length (fnBlocks F) ∧
  (∀ BB b, fnBlocks F !! BB = Some b →
     ∃ b', fnBlocks F' !! BB = Some b' ∧ bbArgs b' = bbArgs b ∧
           bbTerm b' = mapTermOperands g (bbTerm b)) ∧
  (∀ x', x' ∈ fnInsts F' → ∃ x, x ∈ fnInsts F ∧ x' = mapInst g x).

(** What the loop over [Clones] does to a value. *)
Definition cloneSubst (FSI : SILInstruction) (Clones : list SILValue)
    (v : SILValue) : SILValue :=
  match v with
  | InstResult d =>
      if decide (d ≠ instId FSI ∧ v ∈ Clones) then Undef else v
  | _ => v
  end.

(** What [sinkArgument] does to a value when it sinks argument [ArgNum] of
    [BB]: the argument becomes the result of [FSI], the incoming values
    become undef. *)
Definition sinkArgumentSubst (BB ArgNum : nat) (FSI : SILInstruction)
    (Clones : list SILValue) (v : SILValue) : SILValue :=
  if decide (v = BBArg BB ArgNum) then InstResult (instId FSI)
  else if decide (v = InstResult (instId FSI)) then Undef
  else cloneSubst FSI Clones v.

(** ** Well-formed instruction identifiers *)

Definition fnInstIds (F : SILFunction) : list nat := fnBlocks F ≫= bbInstIds.

(** Identifiers stand for addresses: no two instructions share one, and the
    allocator only hands out identifiers that are not in use. *)
Definition wfIds (F : SILFunction) : Prop :=
  NoDup (fnInstIds F) ∧ Forall (λ id, id < fnNextId F) (fnInstIds F).

(** ** The loop of [sinkArgument] over the clones *)


(** ** Local captures: [CaptureInfo::hasLocalCaptures] and
    [CaptureInfo::getLocalCaptures] *)

Module LocalCaptures.
Import CaptureInfo.

(** A declaration is known by its address; its name and its context are
    read through it. *)
Record DeclRef : Type := mkRef {
  declAddr : nat;
  declOf : ValueDecl
}.

(** A function declaration: [getAccessorStorageDecl] is the address of the
    storage declaration when the function is an accessor, null otherwise. *)
Record FuncDecl : Type := mkFunc {
  getAccessorStorageDecl : option nat
}.

(** A capture with the flag that tells a direct capture. *)
Definition LocalCaptureTy : Type := DeclRef * bool.

Definition hasLocalCaptures (Captures : list DeclRef) : bool :=
  CaptureInfo.hasLocalCaptures (declOf <$> Captures).

(** The flag computed in the loop of [getLocalCaptures]; [FuncContext] may
    be null. *)
Definition isDirectCapture (FuncContext : option FuncDecl) (VD : DeclRef) : bool :=
  match FuncContext with
  | Some FD =>
      match getAccessorStorageDecl FD with
      | Some ASD => bool_decide (ASD = declAddr VD)
      | None => false
      end
  | None => false
  end.

(** The body of the loop of [getLocalCaptures] for one capture. *)
Definition pushLocalCapture (FuncContext : option FuncDecl)
    (Result : list LocalCaptureTy) (VD : DeclRef) : list LocalCaptureTy :=
  if negb (isLocalContext (declOf VD)) then Result
  else Result ++ [(VD, isDirectCapture FuncContext VD)].

(** [Result] is the vector the captures are appended to. *)
Definition getLocalCaptures (Captures : list DeclRef) (FuncContext : option FuncDecl)
    (Result : list LocalCaptureTy) : list LocalCaptureTy :=
  if negb (hasLocalCaptures Captures) then Result
  else foldl (pushLocalCapture FuncContext) Result Captures.

End LocalCaptures.

(** ** The backward search for a duplicate *)

(** What the search tests at every instruction it passes. *)
Definition matchesIden (F : SILFunction) (Iden : SILInstruction) (n : SILNode) : bool :=
  canSinkInstruction F n && nodeIdenticalTo Iden n.

(** ** The shape of the control-flow graph *)

(** [sameCFG F F']: [F'] has the blocks of [F], each with the same number of
    arguments and the same terminator up to its operands. *)
Definition sameCFG (F F' : SILFunction) : Prop :=
  length (fnBlocks F') = length (fnBlocks F) ∧
  ∀ BB b, fnBlocks F !! BB = Some b →
    ∃ b' g, fnBlocks F' !! BB = Some b' ∧ bbArgs b' = bbArgs b ∧
            bbTerm b' = mapTermOperands g (bbTerm b).

(** Every edge passes at least as many operands as its target has
    arguments, and leads to a block of the function. *)
Definition operandsCoverArgs (F : SILFunction) : Prop :=
  ∀ P pb BB, fnBlocks F !! P = Some pb → BB ∈ termSuccessors (bbTerm pb) →
    ∃ b, fnBlocks F !! BB = Some b ∧ bbArgs b ≤ length (termOperands (bbTerm pb)).

(** ** The search window of the duplicate-code sinker *)

(** What the budget still allows when the iterator stands at [cur]: the
    terminator is passed before anything can be sunk. *)
Definition sinksLeft (SkipBudget : nat) (cur : list SILNode) : nat :=
  match cur with
  | NTerm _ :: _ => SkipBudget - 1
  | _ => SkipBudget
  end.

(** The instructions the iterator has passed since the last restart have
    each used one unit of the budget. *)
Definition withinWindow (FirstPred : nat) (c : ScanConfig) : Prop :=
  ∃ skipped,
    blockNodesBackward (stFn (cfgState c)) FirstPred = skipped ++ cfgCur c ∧
    length skipped + cfgBudget c ≤ SinkSearchWindow.

(** ** What the reference-count sinker leaves alone *)

(** [extendsWithFresh F0 F]: [F] has the blocks of [F0] with the same
    arguments and terminators, and every instruction of [F] is an
    instruction of [F0] or was created after [F0]. *)
Definition extendsWithFresh (F0 F : SILFunction) : Prop :=
  length (fnBlocks F) = length (fnBlocks F0) ∧
  (∀ j, bbTerm <$> fnBlocks F !! j = bbTerm <$> fnBlocks F0 !! j ∧
        bbArgs <$> fnBlocks F !! j = bbArgs <$> fnBlocks F0 !! j) ∧
  fnNextId F0 ≤ fnNextId F ∧
  ∀ x, x ∈ fnInsts F → x ∈ fnInsts F0 ∨ fnNextId F0 ≤ instId x.

(** ** Reference-count sinker: the number of increments on a path *)

(** The [strong_retain]s of [Ptr] in block [j]. *)
Definition retainsIn (Ptr : SILValue) (F : SILFunction) (j : nat) : nat :=
  match fnBlocks F !! j with
  | Some b => length (filter (λ i, instKind i = StrongRetainInst Ptr) (bbInsts b))
  | None => 0
  end.

(** ** A further example *)

(** A [release_value] of the argument of block 0. *)
Definition exReleaseValue : SILInstruction := mkInst 7 (ReleaseValueInst (BBArg 0 0)).

(** ** Block-argument sinker: the instructions that stay *)

(** [instsKept g Gone F F']: every instruction of [F] whose identifier is
    not in [Gone] is still in its block in [F'], with its operands renamed
    by [g]. *)
Definition instsKept (g : SILValue → SILValue) (Gone : nat → Prop)
    (F F' : SILFunction) : Prop :=
  ∀ j b x, fnBlocks F !! j = Some b → x ∈ bbInsts b → ¬ Gone (instId x) →
    ∃ b', fnBlocks F' !! j = Some b' ∧ mapInst g x ∈ bbInsts b'.

(** ** Values at run time *)



(** ** Typing of the edges *)

(** Modelled from the spec: values have a type, and the types belong to the
    IR library.  [getType] is the type of an instruction's result, a
    function of its kind ([isIdenticalTo] compares the types); [argType BB
    i] is the type of argument [i] of block [BB].  The operands of a branch
    are the arguments of its destination and have their types.  A
    [switch_enum] passes to a destination the payload of the case, never
    its own operand, the enum value; the other terminators with successors
    ([switch_int], [dynamic_method_br] and the like) pass no argument or a
    new value of another type than their operand.  Nothing is required of a
    [cond_br] or a [checked_cast_br], which have two successor edges. *)
Definition edgesWellTyped {SILType : Type} (getType : InstKind → SILType)
    (argType : nat → nat → SILType) (F : SILFunction) : Prop :=
  ∀ P pb BB b i x,
    fnBlocks F !! P = Some pb → BB ∈ termSuccessors (bbTerm pb) →
    fnBlocks F !! BB = Some b → i < bbArgs b →
    getOperand (bbTerm pb) i = Some (InstResult (instId x)) → x ∈ fnInsts F →
    match bbTerm pb with
    | BranchInst _ _ => getType (instKind x) = argType BB i
    | CondBranchInst _ _ _ _ _ | CheckedCastBranchInst _ _ _ => True
    | SwitchEnumInst _ _ _ | OtherTerm _ _ _ => getType (instKind x) ≠ argType BB i
    end.

(** ** Reference-count sinker: increments moved to the successors *)

(** [retainsMoved Ptr BB Succs n F F']: from [F] to [F'] block [BB] has lost
    [n] [strong_retain]s of [Ptr], every block of [Succs] has gained [n],
    and the other blocks have as many as before. *)
Definition retainsMoved (Ptr : SILValue) (BB : nat) (Succs : list nat) (n : nat)
    (F F' : SILFunction) : Prop :=
  retainsIn Ptr F' BB + n = retainsIn Ptr F BB ∧
  (∀ s, s ∈ Succs → retainsIn Ptr F' s = retainsIn Ptr F s + n) ∧
  (∀ j, j ≠ BB → j ∉ Succs → retainsIn Ptr F' j = retainsIn Ptr F j).

(** ** Further examples *)

(** Block 0 retains its argument and dispatches on it: the case [#some]
    (with a payload) leads to block 1, every other case of the enum, among
    them one with a payload, to the default block 2. *)
Definition exSwitchDefault : PassState :=
  mkState (mkFn [mkBB 1 [exRetainValue]
                   (SwitchEnumInst (BBArg 0 0) [(exSome, 1)] (Some 2));
                 mkBB 0 [exPure 11] exReturn;
                 mkBB 0 [exPure 12] exReturn] 20) 0 false.

Definition exSwitchDefaultSunk : PassState :=
  Eval vm_compute in (sinkRetainToSuccessors exNoAlias 0 exSwitchDefault).1.

(** The first predecessor of block 2 ends in a pure instruction that the
    other predecessor does not have; before it stands one that both have. *)
Definition exSkip : PassState :=
  mkState (mkFn [mkBB 0 [exPure 10; mkInst 12 (GenericInst 3 false [])] (BranchInst 2 []);
                 mkBB 0 [exPure 11] (BranchInst 2 []);
                 mkBB 0 [] exReturn] 20) 0 false.

(** Blocks 0 and 1 pass to block 2 the same pure value, each followed in its
    block by a side-effecting instruction that the other block does not
    have. *)
Definition exArgsBarrier : PassState :=
  mkState (mkFn [mkBB 0 [exPure 10; exStore 12] (BranchInst 2 [InstResult 10]);
                 mkBB 0 [exPure 11; mkInst 13 (GenericInst 5 true [])]
                   (BranchInst 2 [InstResult 11]);
                 mkBB 1 [mkInst 14 (GenericInst 3 true [BBArg 2 0])] exReturn] 20)
          0 false.

Definition exArgsBarrierSunk : PassState :=
  Eval vm_compute in
    match sinkArgumentsFromPredecessors 2 exArgsBarrier with
    | Some r => r.1
    | None => exArgsBarrier
    end.

(** An example typing: the type of a generic instruction is its opcode. *)
Definition exGetType (k : InstKind) : nat :=
  match k with
  | GenericInst opcode _ _ => opcode
  | _ => 0
  end.

(** The first predecessor of block 2 ends in a [switch_enum] on the enum
    value [%10]; the second one passes [%11], of the payload type. *)
Definition exSwitchTyped : PassState :=
  mkState (mkFn [mkBB 0 [mkInst 10 (GenericInst 5 false [])]
                   (SwitchEnumInst (InstResult 10) [(exSome, 2)] None);
                 mkBB 0 [exPure 11] (BranchInst 2 [InstResult 11]);
                 mkBB 1 [mkInst 14 (GenericInst 3 true [BBArg 2 0])] exReturn] 20)
          0 false.

(** [exTwoRetains] after the reference-count sinker has run on block 0,
    with an oracle that reports no decrement. *)
Definition exRetainsSunk : PassState :=
  Eval vm_compute in (sinkRetainToSuccessors exNoAlias 0 exTwoRetains).1.

(** * Properties *)

(** ** Capture lists *)

Module CaptureInfoFacts.
Import CaptureInfo.

Lemma append_assoc (a b c : string) : (a +:+ b) +:+ c = a +:+ b +:+ c.
Proof.
  induction a as [|ch a IH]; [reflexivity|].
  change (String ch ((a +:+ b) +:+ c) = String ch (a +:+ b +:+ c)).
  by rewrite IH.
Qed.

(** The loop over [slice(1)] appends the remaining names, each after a
    separator. *)
Lemma print_rest_joinNames (VD : ValueDecl) (rest : list ValueDecl) (os : string) :
  foldl (λ os VD', os +:+ ", " +:+ getName VD') (os +:+ getName VD) rest
  = os +:+ joinNames ", " (VD :: rest).
Proof.
  revert VD os. induction rest as [|VD' rest IH]; intros VD os; [done|].
  cbn [foldl]. rewrite <- (append_assoc (os +:+ getName VD) ", " (getName VD')).
  rewrite IH.
  change (joinNames ", " (VD :: VD' :: rest))
    with (getName VD +:+ ", " +:+ joinNames ", " (VD' :: rest)).
  by rewrite !append_assoc.
Qed.

(** C10: [print] (and so [dump]) reads element 0 of the capture list before
    anything else, so on the empty list it is an out-of-range read; on every
    non-empty list it writes all capture names in list order, separated by
    ", ", between "captures=(" and ")". *)
Theorem print_reads_first_capture :
  (∀ OS, print [] OS = None) ∧
  (∀ OS, dump [] OS = None) ∧
  (∀ VD rest OS,
     print (VD :: rest) OS
     = Some (OS +:+ "captures=(" +:+ joinNames ", " (VD :: rest) +:+ ")")) ∧
  (∀ VD rest OS,
     dump (VD :: rest) OS
     = Some (OS +:+ "captures=(" +:+ joinNames ", " (VD :: rest) +:+ ")" +:+ newline)).
Proof.
  assert (Hp : ∀ VD rest OS,
     print (VD :: rest) OS
     = Some (OS +:+ "captures=(" +:+ joinNames ", " (VD :: rest) +:+ ")")).
  { intros VD rest OS. unfold print. cbn [lookup list_lookup mbind option_bind drop].
    rewrite print_rest_joinNames. by rewrite !append_assoc. }
  split_and!; [done|done|exact Hp|].
  intros VD rest OS. unfold dump. rewrite Hp. cbn [mbind option_bind].
  by rewrite !append_assoc.
Qed.

End CaptureInfoFacts.

(** ** Basic facts about the IR operations *)

Lemma lookup_updBlockInsts g BB F j :
  fnBlocks (updBlockInsts g BB F) !! j
  = if decide (BB = j) then updInsts g <$> fnBlocks F !! j else fnBlocks F !! j.
Proof.
  unfold updBlockInsts; simpl. case_decide as Hj.
  - subst. apply list_lookup_alter_eq.
  - by apply list_lookup_alter_ne.
Qed.

Lemma length_updBlockInsts g BB F :
  length (fnBlocks (updBlockInsts g BB F)) = length (fnBlocks F).
Proof. unfold updBlockInsts; simpl. apply length_alter. Qed.

Lemma createInst_fn Builder k F :
  (createInst Builder k F).2
  = mkFn (fnBlocks (updBlockInsts (insertInst (insertIdx Builder) (mkInst (fnNextId F) k))
                      (insertBB Builder) F))
         (S (fnNextId F)).
Proof. done. Qed.

Lemma lookup_createInst_begin s k F j :
  fnBlocks (createInst (setInsertionPoint_begin s) k F).2 !! j
  = if decide (s = j) then updInsts (cons (mkInst (fnNextId F) k)) <$> fnBlocks F !! j
    else fnBlocks F !! j.
Proof. rewrite createInst_fn. simpl. apply (lookup_updBlockInsts _ s F j). Qed.

(** ** Reference-count sinker *)

Section RefCountSinker.
Context (AA : AliasAnalysis).

(** An attempt that reports no change leaves the state as it was. *)
Lemma tryToSinkRefCountInst_unchanged BB T Inst st :
  (tryToSinkRefCountInst AA BB T Inst st).2 = false →
  tryToSinkRefCountInst AA BB T Inst st = (st, false).
Proof.
  unfold tryToSinkRefCountInst, tryToSinkRefCountAcrossSwitch.
  repeat (case_match; simpl; try done).
Qed.

Lemma tryCandidates_acc BB T Cands st c :
  foldl (λ acc Inst,
           let r := tryToSinkRefCountInst AA BB T Inst acc.1 in
           (r.1, acc.2 || r.2)) (st, c) Cands
  = ((tryCandidates AA BB T Cands st).1, c || (tryCandidates AA BB T Cands st).2).
Proof.
  unfold tryCandidates. revert st c.
  induction Cands as [|Inst Cands IH]; intros st c; simpl.
  - by rewrite orb_false_r.
  - rewrite IH. rewrite (IH _ (tryToSinkRefCountInst AA BB T Inst st).2).
    simpl. by rewrite orb_assoc.
Qed.

Lemma tryCandidates_cons BB T Inst Cands st :
  tryCandidates AA BB T (Inst :: Cands) st
  = let r := tryToSinkRefCountInst AA BB T Inst st in
    ((tryCandidates AA BB T Cands r.1).1,
     r.2 || (tryCandidates AA BB T Cands r.1).2).
Proof. unfold tryCandidates at 1. simpl. by rewrite tryCandidates_acc. Qed.

Lemma tryCandidates_unchanged BB T Cands st :
  (tryCandidates AA BB T Cands st).2 = false →
  tryCandidates AA BB T Cands st = (st, false).
Proof.
  revert st. induction Cands as [|Inst Cands IH]; intros st; [done|].
  rewrite tryCandidates_cons. simpl. intros [H1 H2]%orb_false_elim.
  apply tryToSinkRefCountInst_unchanged in H1. rewrite H1 in H2 |- *.
  simpl in *. by rewrite (IH _ H2).
Qed.

Lemma tryCandidates_all_unchanged BB T Cands st :
  (∀ Inst, Inst ∈ Cands → tryToSinkRefCountInst AA BB T Inst st = (st, false)) →
  tryCandidates AA BB T Cands st = (st, false).
Proof.
  induction Cands as [|Inst Cands IH]; intros Hall; [done|].
  rewrite tryCandidates_cons, (Hall Inst) by left. simpl.
  rewrite IH; [done|]. intros; apply Hall; by right.
Qed.

Lemma sinkRetainToSuccessors_unchanged BB st :
  (sinkRetainToSuccessors AA BB st).2 = false →
  sinkRetainToSuccessors AA BB st = (st, false).
Proof.
  unfold sinkRetainToSuccessors. repeat (case_match; try done).
  apply tryCandidates_unchanged.
Qed.

End RefCountSinker.

(** ** Instruction identifiers *)

Lemma removeInst_cons_ne id x l :
  instId x ≠ id → removeInst id (x :: l) = x :: removeInst id l.
Proof. intros. simpl. by rewrite decide_False. Qed.

Lemma removeInst_notin id l : id ∉ instId <$> l → removeInst id l = l.
Proof.
  induction l as [|x l IH]; [done|]. rewrite fmap_cons, not_elem_of_cons.
  intros [Hx Hl]. rewrite removeInst_cons_ne by done. by rewrite IH.
Qed.

Lemma removeInst_app_notin id l1 l2 :
  id ∉ instId <$> l1 → removeInst id (l1 ++ l2) = l1 ++ removeInst id l2.
Proof.
  induction l1 as [|x l1 IH]; [done|]. rewrite fmap_cons, not_elem_of_cons.
  intros [Hx Hl]. rewrite <- app_comm_cons, removeInst_cons_ne by done.
  by rewrite IH.
Qed.

Lemma removeInst_sublist id l : removeInst id l `sublist_of` l.
Proof.
  induction l as [|x l IH]; [done|]. simpl. case_decide.
  - by apply sublist_cons.
  - by apply sublist_skip.
Qed.

Lemma removeInst_NoDup_notin id l :
  NoDup (instId <$> l) → id ∉ instId <$> removeInst id l.
Proof.
  induction l as [|x l IH]; simpl; [intros _; apply not_elem_of_nil|].
  rewrite NoDup_cons. intros [Hx Hl]. case_decide as Heq.
  - by rewrite <- Heq.
  - rewrite fmap_cons, not_elem_of_cons. split; [done|by apply IH].
Qed.

Lemma length_removeInst id l :
  id ∈ instId <$> l → S (length (removeInst id l)) = length l.
Proof.
  induction l as [|x l IH]; simpl; [by intros ?%not_elem_of_nil|].
  case_decide as Heq; [done|]. rewrite elem_of_cons.
  intros [?|Hl]; [done|]. simpl. by rewrite IH.
Qed.

Lemma fnBlocks_split F BB b :
  fnBlocks F !! BB = Some b →
  ∃ l1 l2, fnBlocks F = l1 ++ b :: l2 ∧ BB = length l1.
Proof. apply list_elem_of_split_length. Qed.

Lemma alter_middle {A} (f : A → A) (l1 : list A) x l2 :
  alter f (length l1) (l1 ++ x :: l2) = l1 ++ f x :: l2.
Proof. induction l1 as [|y l1 IH]; [done|]. cbn. f_equal. apply IH. Qed.

Lemma getParent_Some F id P :
  getParent F id = Some P →
  ∃ b, fnBlocks F !! P = Some b ∧ id ∈ bbInstIds b.
Proof.
  unfold getParent. destruct (list_find _ _) as [[j b]|] eqn:Hfind; [|done].
  simpl. intros [= ->]. apply list_find_Some in Hfind as (? & ? & _). eauto.
Qed.

Lemma getParent_None F id : getParent F id = None → id ∉ fnInstIds F.
Proof.
  unfold getParent. destruct (list_find _ _) as [[j b]|] eqn:Hfind; [done|].
  intros _. rewrite list_find_None in Hfind. unfold fnInstIds.
  rewrite list_elem_of_bind. intros (b & Hid & Hb).
  by eapply (proj1 (Forall_forall _ _) Hfind).
Qed.

Lemma getParent_NoDup F id BB b :
  NoDup (fnInstIds F) → fnBlocks F !! BB = Some b → id ∈ bbInstIds b →
  getParent F id = Some BB.
Proof.
  unfold getParent, fnInstIds. destruct F as [blocks n]; simpl.
  revert BB. induction blocks as [|b0 blocks IH]; intros BB; [done|].
  rewrite bind_cons, NoDup_app. intros (Hb0 & Hdisj & Hrest) Hlook Hid.
  cbn [list_find]. destruct BB as [|BB]; simpl in Hlook.
  - injection Hlook as ->. by rewrite decide_True.
  - rewrite decide_False.
    + specialize (IH BB Hrest Hlook Hid).
      destruct (list_find _ blocks) as [[j b']|]; simpl in *; congruence.
    + intros Hin. apply (Hdisj _ Hin). apply list_elem_of_bind.
      exists b. split; [done|]. by eapply list_elem_of_lookup_2.
Qed.

Lemma sublist_elem_of {A} (x : A) (l k : list A) :
  l `sublist_of` k → x ∈ l → x ∈ k.
Proof.
  induction 1 as [|y l k ? IH|y l k ? IH]; [done| |].
  - rewrite !elem_of_cons. intros [->|?]; [by left|right; auto].
  - rewrite elem_of_cons. intros ?; right; auto.
Qed.

Lemma updBlockInsts_None g BB F :
  fnBlocks F !! BB = None → updBlockInsts g BB F = F.
Proof.
  intros Hnone. destruct F as [blocks n]. unfold updBlockInsts; simpl in *.
  f_equal. apply list_eq. intros j. destruct (decide (BB = j)) as [<-|].
  - by rewrite list_lookup_alter_eq, Hnone.
  - by rewrite list_lookup_alter_ne.
Qed.

(** The identifiers of the function around those of one block. *)
Lemma fnInstIds_updBlockInsts g BB F b :
  fnBlocks F !! BB = Some b →
  ∃ pre post,
    fnInstIds F = pre ++ bbInstIds b ++ post ∧
    fnInstIds (updBlockInsts g BB F) = pre ++ (instId <$> g (bbInsts b)) ++ post.
Proof.
  intros (l1 & l2 & Hsplit & ->)%fnBlocks_split.
  exists (l1 ≫= bbInstIds), (l2 ≫= bbInstIds).
  unfold fnInstIds, updBlockInsts. simpl. rewrite Hsplit, alter_middle.
  by rewrite !bind_app, !bind_cons.
Qed.

Lemma fnInstIds_updBlockInsts_sublist g BB F :
  (∀ l, g l `sublist_of` l) →
  fnInstIds (updBlockInsts g BB F) `sublist_of` fnInstIds F.
Proof.
  intros Hg. destruct (fnBlocks F !! BB) as [b|] eqn:Hb.
  - destruct (fnInstIds_updBlockInsts g BB F b Hb) as (pre & post & -> & ->).
    apply sublist_app; [done|]. apply sublist_app; [|done].
    apply fmap_sublist, Hg.
  - by rewrite updBlockInsts_None.
Qed.

Lemma fnInstIds_updBlockInsts_cons x BB F b :
  fnBlocks F !! BB = Some b →
  ∀ k, fnInstIds (updBlockInsts (insertInst k x) BB F) ≡ₚ instId x :: fnInstIds F.
Proof.
  intros Hb k.
  destruct (fnInstIds_updBlockInsts (insertInst k x) BB F b Hb) as (pre & post & -> & ->).
  unfold insertInst, bbInstIds. rewrite fmap_app, fmap_cons.
  set (t := instId <$> take k (bbInsts b)). set (d := instId <$> drop k (bbInsts b)).
  assert (instId <$> bbInsts b = t ++ d) as ->
    by (unfold t, d; by rewrite <- fmap_app, take_drop).
  replace (pre ++ (t ++ instId x :: d) ++ post)
    with ((pre ++ t) ++ instId x :: (d ++ post)) by (by rewrite <- !app_assoc).
  symmetry. apply Permutation_cons_app. by rewrite <- !app_assoc.
Qed.

Lemma eraseFromParent_sublist id F :
  fnInstIds (eraseFromParent id F) `sublist_of` fnInstIds F.
Proof.
  unfold eraseFromParent. destruct (getParent F id); [|done].
  apply fnInstIds_updBlockInsts_sublist, removeInst_sublist.
Qed.

Lemma wfIds_sublist F F' :
  fnInstIds F' `sublist_of` fnInstIds F → fnNextId F ≤ fnNextId F' →
  wfIds F → wfIds F'.
Proof.
  intros Hsub Hle [Hnd Hlt]. split.
  - by eapply sublist_NoDup.
  - apply Forall_forall. intros id Hid.
    pose proof (proj1 (Forall_forall _ _) Hlt id (sublist_elem_of _ _ _ Hsub Hid)) as Hx.
    simpl in Hx. lia.
Qed.

Lemma wfIds_eraseFromParent id F : wfIds F → wfIds (eraseFromParent id F).
Proof.
  apply wfIds_sublist; [apply eraseFromParent_sublist|].
  unfold eraseFromParent. by destruct (getParent F id).
Qed.

Lemma fnInstIds_createInst Builder k F :
  fnInstIds (createInst Builder k F).2
  = fnInstIds (updBlockInsts (insertInst (insertIdx Builder) (mkInst (fnNextId F) k))
                 (insertBB Builder) F).
Proof. done. Qed.

Lemma fnNextId_createInst Builder k F :
  fnNextId (createInst Builder k F).2 = S (fnNextId F).
Proof. done. Qed.

Lemma wfIds_createInst Builder k F : wfIds F → wfIds (createInst Builder k F).2.
Proof.
  intros [Hnd Hlt]. unfold wfIds.
  rewrite fnInstIds_createInst, fnNextId_createInst.
  destruct (fnBlocks F !! insertBB Builder) as [b|] eqn:Hb.
  - rewrite (fnInstIds_updBlockInsts_cons _ _ _ _ Hb). simpl. split.
    + apply NoDup_cons. split; [|done]. intros Hin.
      pose proof (proj1 (Forall_forall _ _) Hlt _ Hin) as Hx. simpl in Hx. lia.
    + apply Forall_cons. split; [lia|].
      eapply Forall_impl; [done|]. simpl; lia.
  - rewrite updBlockInsts_None by done. split; [done|].
    eapply Forall_impl; [done|]. simpl; lia.
Qed.

(** ** Predecessor and successor edges *)

Lemma length_getPreds_ge F s BB b :
  fnBlocks F !! BB = Some b →
  length (filter (λ x, x = s) (termSuccessors (bbTerm b))) ≤ length (getPreds F s).
Proof.
  intros (l1 & l2 & Hsplit & ->)%fnBlocks_split. unfold getPreds.
  rewrite Hsplit, imap_app, imap_cons, join_app. simpl.
  rewrite !length_app. unfold edgesTo at 2. rewrite length_fmap. lia.
Qed.

Lemma elem_of_getPreds F s P :
  P ∈ getPreds F s ↔ ∃ b, fnBlocks F !! P = Some b ∧ s ∈ termSuccessors (bbTerm b).
Proof.
  unfold getPreds. rewrite list_elem_of_join. split.
  - intros (l & HP & Hl). apply list_elem_of_lookup in Hl as [j Hj].
    rewrite list_lookup_imap in Hj.
    destruct (fnBlocks F !! j) as [b|] eqn:Hb; [|done]. injection Hj as <-.
    unfold edgesTo in HP. apply list_elem_of_fmap in HP as (x & -> & Hx).
    apply list_elem_of_filter in Hx as [-> Hx]. eauto.
  - intros (b & Hb & Hs). exists (edgesTo s P b). split.
    + unfold edgesTo. apply list_elem_of_fmap. exists s. split; [done|].
      by apply list_elem_of_filter.
    + apply list_elem_of_lookup. exists P. by rewrite list_lookup_imap, Hb.
Qed.

Lemma NoDup_count {A} `{EqDecision A} (l : list A) :
  (∀ x, x ∈ l → length (filter (λ y, y = x) l) ≤ 1) → NoDup l.
Proof.
  induction l as [|a l IH]; intros Hcount; [constructor|].
  apply NoDup_cons. split.
  - intros Hin. specialize (Hcount a (list_elem_of_here _ _)).
    rewrite filter_cons_True in Hcount by done. simpl in Hcount.
    assert (a ∈ filter (λ y, y = a) l) as Hf by (by apply list_elem_of_filter).
    destruct (filter _ l); [by apply elem_of_nil in Hf|simpl in Hcount; lia].
  - apply IH. intros x Hx. specialize (Hcount x (list_elem_of_further _ _ _ Hx)).
    rewrite filter_cons in Hcount. case_decide; simpl in Hcount; lia.
Qed.

Lemma getSinglePredecessor_length F s :
  is_Some (getSinglePredecessor F s) → length (getPreds F s) = 1.
Proof.
  unfold getSinglePredecessor. intros [p Hp].
  destruct (getPreds F s) as [|? [|? ?]]; done.
Qed.

(** When every successor has a single predecessor edge, no two successor
    edges of the block lead to the same block. *)
Lemma allSuccsHaveSinglePredecessor_NoDup F BB b :
  fnBlocks F !! BB = Some b →
  allSuccsHaveSinglePredecessor F BB = true →
  NoDup (termSuccessors (bbTerm b)).
Proof.
  intros Hb Hall. unfold allSuccsHaveSinglePredecessor, getSuccs in Hall.
  rewrite Hb in Hall. apply Is_true_true, forallb_True in Hall.
  apply NoDup_count. intros s Hs.
  pose proof (proj1 (Forall_forall _ _) Hall s Hs) as Hsingle. simpl in Hsingle.
  apply bool_decide_unpack, getSinglePredecessor_length in Hsingle.
  rewrite <- Hsingle. by apply (length_getPreds_ge F s BB b).
Qed.

(** ** Emitting the payload operations *)

Section PayloadOps.
Context (Inst : SILInstruction).

Lemma createRefCountOp_no_payload Builder e F :
  hasArgumentType e = false →
  createRefCountOpForPayload Builder Inst e F = F.
Proof. unfold createRefCountOpForPayload. by intros ->. Qed.

Lemma lookup_createRefCountOp s e F j :
  hasArgumentType e = true → isaRetainValueInst Inst = true →
  fnBlocks (createRefCountOpForPayload (setInsertionPoint_begin s) Inst e F) !! j
  = if decide (s = j)
    then updInsts (app (payloadOps Inst (fnNextId F) e)) <$> fnBlocks F !! j
    else fnBlocks F !! j.
Proof.
  intros He HI. unfold createRefCountOpForPayload. rewrite He, HI. simpl.
  unfold updBlockInsts. case_decide as Hj.
  - subst j. rewrite !list_lookup_alter_eq.
    by destruct (fnBlocks F !! s) as [[]|].
  - by rewrite !list_lookup_alter_ne.
Qed.

Lemma fnNextId_createRefCountOp Builder e F :
  fnNextId F ≤ fnNextId (createRefCountOpForPayload Builder Inst e F).
Proof.
  unfold createRefCountOpForPayload.
  destruct (hasArgumentType e), (isaRetainValueInst Inst); simpl; lia.
Qed.

Lemma wfIds_createRefCountOp Builder e F :
  wfIds F → wfIds (createRefCountOpForPayload Builder Inst e F).
Proof.
  intros Hwf. unfold createRefCountOpForPayload.
  destruct (hasArgumentType e); cbn [negb]; [|done].
  pose proof (wfIds_createInst Builder
                (UncheckedEnumDataInst (getOperand0 Inst) e) F Hwf) as H1.
  destruct (createInst Builder _ F) as [[u b1] f1].
  destruct (isaRetainValueInst Inst); by apply wfIds_createInst.
Qed.

Lemma sinkAcrossCases_cons c Cases F :
  sinkAcrossCases Inst (c :: Cases) F
  = sinkAcrossCases Inst Cases
      (createRefCountOpForPayload (setInsertionPoint_begin c.2) Inst c.1 F).
Proof. done. Qed.

Lemma fnNextId_sinkAcrossCases Cases F :
  fnNextId F ≤ fnNextId (sinkAcrossCases Inst Cases F).
Proof.
  revert F. induction Cases as [|c Cases IH]; intros F; [done|].
  rewrite sinkAcrossCases_cons. etrans; [|apply IH].
  apply fnNextId_createRefCountOp.
Qed.

Lemma wfIds_sinkAcrossCases Cases F :
  wfIds F → wfIds (sinkAcrossCases Inst Cases F).
Proof.
  revert F. induction Cases as [|c Cases IH]; intros F Hwf; [done|].
  rewrite sinkAcrossCases_cons. by apply IH, wfIds_createRefCountOp.
Qed.

(** A block that no payload-carrying case leads to is left alone. *)
Lemma sinkAcrossCases_no_payload Cases F j :
  isaRetainValueInst Inst = true →
  (∀ e, (e, j) ∈ Cases → hasArgumentType e = false) →
  fnBlocks (sinkAcrossCases Inst Cases F) !! j = fnBlocks F !! j.
Proof.
  intros HI. revert F. induction Cases as [|[e s] Cases IH]; intros F Hj; [done|].
  rewrite sinkAcrossCases_cons, IH by (intros; apply Hj; by right). simpl.
  destruct (hasArgumentType e) eqn:He.
  - rewrite lookup_createRefCountOp, decide_False; [done| |done..].
    intros ->. specialize (Hj e (list_elem_of_here _ _)). congruence.
  - by rewrite createRefCountOp_no_payload.
Qed.

(** The block of a payload-carrying case starts with the projection of the
    payload and the retain of the projected value. *)
Lemma sinkAcrossCases_payload Cases F e s :
  isaRetainValueInst Inst = true →
  NoDup Cases.*2 → (e, s) ∈ Cases → hasArgumentType e = true →
  ∃ n, fnNextId F ≤ n ∧
    fnBlocks (sinkAcrossCases Inst Cases F) !! s
    = updInsts (app (payloadOps Inst n e)) <$> fnBlocks F !! s.
Proof.
  intros HI. revert F. induction Cases as [|[e0 s0] Cases IH]; intros F Hnd Hin He.
  { by apply elem_of_nil in Hin. }
  rewrite fmap_cons, NoDup_cons in Hnd. destruct Hnd as [Hs0 Hnd]. simpl in Hs0.
  rewrite sinkAcrossCases_cons. simpl. apply elem_of_cons in Hin as [[= <- <-]|Hin].
  - exists (fnNextId F). split; [done|].
    rewrite sinkAcrossCases_no_payload; [|done|].
    + rewrite lookup_createRefCountOp, decide_True by done. done.
    + intros e' He'. destruct Hs0. apply list_elem_of_fmap. by exists (e', s).
  - destruct (IH (createRefCountOpForPayload (setInsertionPoint_begin s0) Inst e0 F)
                Hnd Hin He) as (n & Hn & ->).
    exists n. split; [etrans; [apply fnNextId_createRefCountOp|done]|].
    destruct (hasArgumentType e0) eqn:He0.
    + rewrite lookup_createRefCountOp, decide_False; [done| |done..].
      intros ->. destruct Hs0. apply list_elem_of_fmap. by exists (e, s).
    + by rewrite createRefCountOp_no_payload.
Qed.

End PayloadOps.

(** ** Erasing under unique identifiers *)

Lemma eraseFromParent_NoDup F id BB b :
  NoDup (fnInstIds F) → fnBlocks F !! BB = Some b → id ∈ bbInstIds b →
  eraseFromParent id F = updBlockInsts (removeInst id) BB F.
Proof.
  intros Hnd Hb Hid. unfold eraseFromParent.
  by rewrite (getParent_NoDup F id BB b).
Qed.

Lemma NoDup_other_block F id BB b s bs :
  NoDup (fnInstIds F) → fnBlocks F !! BB = Some b → fnBlocks F !! s = Some bs →
  BB ≠ s → id ∈ bbInstIds b → id ∉ bbInstIds bs.
Proof.
  intros Hnd Hb Hs Hne Hid Hid'.
  pose proof (getParent_NoDup F id BB b Hnd Hb Hid) as H1.
  pose proof (getParent_NoDup F id s bs Hnd Hs Hid') as H2. congruence.
Qed.

Lemma eraseFromParent_removes F id :
  NoDup (fnInstIds F) → id ∉ fnInstIds (eraseFromParent id F).
Proof.
  intros Hnd. unfold eraseFromParent.
  destruct (getParent F id) as [P|] eqn:HP; [|by apply getParent_None].
  apply getParent_Some in HP as (b & Hb & Hid).
  destruct (fnInstIds_updBlockInsts (removeInst id) P F b Hb)
    as (pre & post & Hids & ->).
  rewrite Hids in Hnd. apply NoDup_app in Hnd as (_ & Hpre & Hnd).
  apply NoDup_app in Hnd as (Hndb & Hpost & _).
  rewrite !not_elem_of_app. split_and!.
  - intros Hin. apply (Hpre _ Hin). apply elem_of_app. by left.
  - by apply removeInst_NoDup_notin.
  - by apply Hpost.
Qed.

Lemma NoDup_snd_inj {A B} (l : list (A * B)) a a' s :
  NoDup l.*2 → (a, s) ∈ l → (a', s) ∈ l → a = a'.
Proof.
  induction l as [|[a0 s0] l IH]; [by intros _ ?%elem_of_nil|].
  rewrite fmap_cons, NoDup_cons. simpl. intros [Hs0 Hnd].
  rewrite !elem_of_cons. intros [H1|H1] [H2|H2]; simplify_eq; auto.
  - destruct Hs0. apply list_elem_of_fmap. by exists (a', s0).
  - destruct Hs0. apply list_elem_of_fmap. by exists (a, s0).
Qed.

Lemma existsb_false_iff {A} (f : A → bool) (l : list A) :
  existsb f l = false ↔ ∀ x, x ∈ l → f x = false.
Proof.
  induction l as [|y l IH]; simpl.
  - split; [by intros _ ? ?%elem_of_nil|done].
  - rewrite orb_false_iff, IH. split.
    + intros [Hy Hl] x [->|Hx]%elem_of_cons; auto.
    + intros Hall. split; [apply Hall; by left|]. intros; apply Hall; by right.
Qed.

Section RefCountSwitch.
Context (AA : AliasAnalysis).

(** One call of [tryToSinkRefCountInst] on a [retain_value] of the
    scrutinee [p] of the [switch_enum] that ends block [BB], with every
    successor having a single predecessor edge and no instruction between
    the retain and the terminator that may decrement [p]: the retain is
    erased from the function, every listed case with a payload gets at the
    start of its block the projection of the payload of [p] and a
    [retain_value] of the projected value (new instructions), and the cases
    without payload and the default block get nothing.  A block of a case is
    otherwise as before ([removeInst] only acts on [BB] itself). *)
Lemma switch_enum_retain_sunk_into_payload_cases
    (BB : nat) (b : SILBasicBlock) (p : SILValue)
    (Cases : list (EnumElementDecl * nat)) (D : option nat)
    (Inst : SILInstruction) (st : PassState) :
  wfIds (stFn st) →
  fnBlocks (stFn st) !! BB = Some b →
  bbTerm b = SwitchEnumInst p Cases D →
  allSuccsHaveSinglePredecessor (stFn st) BB = true →
  Inst ∈ bbInsts b →
  instKind Inst = RetainValueInst p →
  (∀ II, II ∈ instsAfter (instId Inst) (bbInsts b) →
         canDecrementRefCount II p AA = false) →
  ∃ st',
    tryToSinkRefCountInst AA BB (bbTerm b) Inst st = (st', true) ∧
    NumSunk st' = S (NumSunk st) ∧
    (instId Inst ∉ fnInstIds (stFn st')) ∧
    (∀ e s bs, (e, s) ∈ Cases → fnBlocks (stFn st) !! s = Some bs →
       ∃ bs', fnBlocks (stFn st') !! s = Some bs' ∧
         if hasArgumentType e
         then ∃ n, fnNextId (stFn st) ≤ n ∧
                bbInsts bs'
                = [mkInst n (UncheckedEnumDataInst p e);
                   mkInst (S n) (RetainValueInst (InstResult n))]
                  ++ removeInst (instId Inst) (bbInsts bs)
         else bbInsts bs' = removeInst (instId Inst) (bbInsts bs)) ∧
    (∀ s bs, D = Some s → fnBlocks (stFn st) !! s = Some bs →
       ∃ bs', fnBlocks (stFn st') !! s = Some bs' ∧
         bbInsts bs' = removeInst (instId Inst) (bbInsts bs)).
Proof.
  intros Hwf Hb HT Hsingle HInst Hkind Hnodec.
  set (F := stFn st) in *.
  assert (HI : isaRetainValueInst Inst = true)
    by (unfold isaRetainValueInst; by rewrite Hkind).
  assert (Hop : getOperand0 Inst = p)
    by (unfold getOperand0; by rewrite Hkind).
  assert (Hid : instId Inst ∈ bbInstIds b)
    by (by apply list_elem_of_fmap_2).
  pose proof (allSuccsHaveSinglePredecessor_NoDup F BB b Hb Hsingle) as Hnd.
  rewrite HT in Hnd. simpl in Hnd. apply NoDup_app in Hnd as (HndC & HD & _).
  set (F1 := sinkAcrossCases Inst Cases F).
  assert (Hwf1 : wfIds F1) by (by apply wfIds_sinkAcrossCases).
  (* the block of [Inst] after the payload operations were emitted *)
  assert (∃ b1, fnBlocks F1 !! BB = Some b1 ∧
                instId Inst ∈ bbInstIds b1) as (b1 & Hb1 & Hid1).
  { destruct (decide (Exists (λ c, c.2 = BB ∧ hasArgumentType c.1 = true) Cases))
      as [([e s] & He & Hs & Hpay)%Exists_exists|Hno]; simpl in *.
    - subst s. destruct (sinkAcrossCases_payload Inst Cases F e BB HI HndC He Hpay)
        as (n & _ & Hl). fold F1 in Hl. rewrite Hb in Hl. simpl in Hl.
      eexists. split; [done|]. apply list_elem_of_fmap. exists Inst.
      split; [done|]. simpl. do 2 right. done.
    - exists b. split; [|done]. unfold F1.
      rewrite sinkAcrossCases_no_payload; [done..|].
      intros e He. destruct (hasArgumentType e) eqn:Hp; [|done].
      destruct Hno. apply Exists_exists. by exists (e, BB). }
  assert (Herase : eraseFromParent (instId Inst) F1
                   = updBlockInsts (removeInst (instId Inst)) BB F1)
    by (apply (eraseFromParent_NoDup F1 _ BB b1); [apply Hwf1|done..]).
  assert (Hlt : instId Inst < fnNextId F).
  { destruct Hwf as [_ Hlt]. apply (proj1 (Forall_forall _ _) Hlt).
    unfold fnInstIds. apply list_elem_of_bind. exists b. split; [done|].
    by eapply list_elem_of_lookup_2. }
  (* what a block looks like after the erasure *)
  assert (Hafter : ∀ s bs pre,
            fnBlocks F !! s = Some bs →
            fnBlocks F1 !! s = Some (updInsts (app pre) bs) →
            Forall (λ i, fnNextId F ≤ instId i) pre →
            ∃ bs', fnBlocks (eraseFromParent (instId Inst) F1) !! s = Some bs' ∧
                   bbInsts bs' = pre ++ removeInst (instId Inst) (bbInsts bs)).
  { intros s bs pre Hs Hs1 Hpre. rewrite Herase, lookup_updBlockInsts.
    assert (Hnotin : instId Inst ∉ instId <$> pre).
    { intros (i & Hi & Hin)%list_elem_of_fmap.
      pose proof (proj1 (Forall_forall _ _) Hpre i Hin) as Hx. simpl in Hx. lia. }
    case_decide as Hs'.
    - subst s. rewrite Hs1. eexists. split; [done|]. simpl.
      by apply removeInst_app_notin.
    - rewrite Hs1. eexists. split; [done|]. simpl. f_equal.
      symmetry. apply removeInst_notin.
      apply (NoDup_other_block F _ BB b s bs); [apply Hwf|done..]. }
  eexists. split_and!.
  - unfold tryToSinkRefCountInst. rewrite HT.
    unfold tryToSinkRefCountAcrossSwitch. rewrite HI, Hop. cbn [negb].
    rewrite bool_decide_eq_true_2 by done. cbn [negb].
    unfold mayBeDecrementedAfter. fold F. rewrite Hb.
    rewrite (proj2 (existsb_false_iff _ _)) by done. reflexivity.
  - done.
  - simpl. apply eraseFromParent_removes, Hwf1.
  - intros e s bs He Hs. simpl. fold F F1.
    destruct (hasArgumentType e) eqn:Hpay.
    + destruct (sinkAcrossCases_payload Inst Cases F e s HI HndC He Hpay)
        as (n & Hn & Hl). fold F1 in Hl. rewrite Hs in Hl. simpl in Hl.
      destruct (Hafter s bs (payloadOps Inst n e) Hs Hl) as (bs' & Hbs' & Hinsts).
      { unfold payloadOps. repeat constructor; simpl; lia. }
      exists bs'. split; [done|]. exists n. split; [done|].
      rewrite Hinsts. unfold payloadOps. by rewrite Hop.
    + destruct (Hafter s bs [] Hs) as (bs' & Hbs' & Hinsts); [|constructor|by eauto].
      unfold F1. rewrite sinkAcrossCases_no_payload; [|done|].
      * rewrite Hs. by destruct bs.
      * intros e' He'. by rewrite (NoDup_snd_inj Cases e' e s).
  - intros s bs -> Hs. simpl. fold F F1.
    destruct (Hafter s bs [] Hs) as (bs' & Hbs' & Hinsts); [|constructor|by eauto].
    unfold F1. rewrite sinkAcrossCases_no_payload; [|done|].
    + rewrite Hs. by destruct bs.
    + intros e' He'. destruct (HD s).
      * apply list_elem_of_fmap. by exists (e', s).
      * simpl. by left.
Qed.

End RefCountSwitch.

(** ** Sinking a [strong_retain] to every successor *)

Section StrongRetainSink.
Context (Ptr : SILValue).

Lemma sinkToSuccessors_cons s0 Succs F :
  sinkToSuccessors Ptr (s0 :: Succs) F
  = sinkToSuccessors Ptr Succs
      (createInst (setInsertionPoint_begin s0) (StrongRetainInst Ptr) F).2.
Proof. done. Qed.

Lemma sinkToSuccessors_head Succs F s N :
  N ≤ fnNextId F → is_Some (fnBlocks F !! s) →
  s ∈ Succs ∨ startsWithRetain Ptr F s N →
  startsWithRetain Ptr (sinkToSuccessors Ptr Succs F) s N.
Proof.
  revert F. induction Succs as [|s0 Succs IH]; intros F HN Hs Hcase.
  { destruct Hcase as [?%elem_of_nil|?]; done. }
  rewrite sinkToSuccessors_cons.
  set (F' := (createInst (setInsertionPoint_begin s0) (StrongRetainInst Ptr) F).2).
  assert (Hlook : ∀ j, fnBlocks F' !! j
            = if decide (s0 = j)
              then updInsts (cons (mkInst (fnNextId F) (StrongRetainInst Ptr)))
                     <$> fnBlocks F !! j
              else fnBlocks F !! j) by (intros; apply lookup_createInst_begin).
  apply IH.
  - unfold F'. rewrite fnNextId_createInst. lia.
  - rewrite Hlook. case_decide; [|done]. by apply fmap_is_Some.
  - destruct (decide (s0 = s)) as [->|Hne].
    + right. destruct Hs as [bs Hbs]. unfold startsWithRetain.
      rewrite Hlook, decide_True, Hbs by done. simpl. eauto 10.
    + destruct Hcase as [[?|?]%elem_of_cons|Hstart]; [done|by left|].
      right. unfold startsWithRetain. by rewrite Hlook, decide_False.
Qed.

Lemma eraseFromParent_keeps_head id F s N :
  id < N → startsWithRetain Ptr F s N → startsWithRetain Ptr (eraseFromParent id F) s N.
Proof.
  intros Hid (bs & h & rest & Hbs & Hinsts & Hh). unfold eraseFromParent.
  destruct (getParent F id) as [P|]; [|by exists bs, h, rest].
  unfold startsWithRetain. rewrite lookup_updBlockInsts.
  case_decide; [|by eauto 10]. rewrite Hbs. simpl.
  eexists _, h, _. split; [done|]. simpl. rewrite Hinsts.
  rewrite removeInst_cons_ne by (simpl; lia). done.
Qed.

End StrongRetainSink.

Section RefCountCandidates.
Context (AA : AliasAnalysis).

(** C9: which instructions the reference-count sinker sinks depends on the
    terminator [bbTerm b] of the block.  With a [switch_enum] only a
    [retain_value] of the scrutinee is sunk.  With a [cond_br] or a
    [checked_cast_br] only a [strong_retain] is sunk, and it is emitted again
    on the same pointer as the first instruction of every successor.  With
    any other terminator nothing is sunk and the sinker reports no change. *)
Theorem refcount_candidates_by_terminator (BB : nat) (b : SILBasicBlock)
    (st : PassState) :
  fnBlocks (stFn st) !! BB = Some b →
  (∀ Inst st',
     tryToSinkRefCountInst AA BB (bbTerm b) Inst st = (st', true) →
     match bbTerm b with
     | SwitchEnumInst SOp _ _ => instKind Inst = RetainValueInst SOp
     | CondBranchInst _ _ _ _ _ | CheckedCastBranchInst _ _ _ =>
         ∃ Ptr, instKind Inst = StrongRetainInst Ptr ∧
           (instId Inst < fnNextId (stFn st) →
            ∀ s, s ∈ termSuccessors (bbTerm b) →
                 is_Some (fnBlocks (stFn st) !! s) →
                 startsWithRetain Ptr (stFn st') s (fnNextId (stFn st)))
     | _ => False
     end) ∧
  match bbTerm b with
  | SwitchEnumInst _ _ _ | CondBranchInst _ _ _ _ _
  | CheckedCastBranchInst _ _ _ => True
  | _ => sinkRetainToSuccessors AA BB st = (st, false)
  end.
Proof.
  intros Hb. split.
  - intros Inst st' Htry.
    assert (Hstrong : ∀ T,
      (if negb (isaStrongRetainInst Inst) then (st, false)
       else if mayBeDecrementedAfter AA BB Inst (getOperand0 Inst) (stFn st)
            then (st, false)
            else (incNumSunk (setFn (eraseFromParent (instId Inst)
                    (sinkToSuccessors (getOperand0 Inst) (getSuccs (stFn st) BB)
                       (stFn st))) st), true)) = (st', true) →
      T = bbTerm b →
      ∃ Ptr, instKind Inst = StrongRetainInst Ptr ∧
        (instId Inst < fnNextId (stFn st) →
         ∀ s, s ∈ termSuccessors T → is_Some (fnBlocks (stFn st) !! s) →
              startsWithRetain Ptr (stFn st') s (fnNextId (stFn st)))).
    { intros T Heq ->. unfold isaStrongRetainInst, getOperand0 in Heq.
      destruct (instKind Inst) as [| | |Ptr| | |] eqn:Hk; simpl in Heq; try done.
      destruct (mayBeDecrementedAfter _ _ _ _ _); [done|].
      injection Heq as <-. exists Ptr. split; [done|]. intros Hlt s Hs Hsome.
      simpl. apply eraseFromParent_keeps_head; [done|].
      apply sinkToSuccessors_head; [done|done|left].
      unfold getSuccs. by rewrite Hb. }
    unfold tryToSinkRefCountInst in Htry.
    destruct (bbTerm b) as [| |SOp Cases D| |] eqn:HT; simpl in Htry; try done.
    + by apply (Hstrong (CondBranchInst cond tdest targs fdest fargs)).
    + unfold tryToSinkRefCountAcrossSwitch, isaRetainValueInst, getOperand0 in Htry.
      destruct (instKind Inst) eqn:Hk; simpl in Htry; try done.
      case_bool_decide; simpl in Htry; [|done]. by subst.
    + by apply (Hstrong (CheckedCastBranchInst op sdest fdest)).
  - unfold sinkRetainToSuccessors. rewrite Hb.
    destruct (bbTerm b) eqn:HT; try done.
    + repeat (case_match; try done). by apply tryCandidates_all_unchanged.
    + repeat (case_match; try done). by apply tryCandidates_all_unchanged.
Qed.

(** A candidate with a possible decrement between it and the terminator is
    not sunk, whatever the terminator. *)
Lemma tryToSinkRefCountInst_blocked BB T Inst st :
  mayBeDecrementedAfter AA BB Inst (getOperand0 Inst) (stFn st) = true →
  tryToSinkRefCountInst AA BB T Inst st = (st, false).
Proof.
  intros Hdec. unfold tryToSinkRefCountInst, tryToSinkRefCountAcrossSwitch.
  rewrite Hdec. repeat (case_match; try done).
Qed.

Lemma tryToSinkRefCountInst_not_retain BB T Inst st :
  isaRetainValueInst Inst || isaStrongRetainInst Inst = false →
  tryToSinkRefCountInst AA BB T Inst st = (st, false).
Proof.
  intros [H1 H2]%orb_false_elim.
  unfold tryToSinkRefCountInst, tryToSinkRefCountAcrossSwitch.
  rewrite H1, H2. simpl. repeat (case_match; try done).
Qed.

(** C3 (as amended): the reference-count sinker leaves the function as it
    is and reports no change when some successor of the block has a
    predecessor other than the block.  A candidate with an instruction
    between it and the terminator that may decrement its pointer is not
    sunk, and the attempt on it changes nothing; the whole block is left
    unchanged, with no change reported, when this holds for every
    [retain_value] and [strong_retain] of the block. *)
Theorem refcount_sinker_declines (BB : nat) (b : SILBasicBlock) (st : PassState) :
  fnBlocks (stFn st) !! BB = Some b →
  ((∃ s P, s ∈ termSuccessors (bbTerm b) ∧ P ∈ getPreds (stFn st) s ∧ P ≠ BB) →
   sinkRetainToSuccessors AA BB st = (st, false)) ∧
  (∀ Inst II,
     II ∈ instsAfter (instId Inst) (bbInsts b) →
     canDecrementRefCount II (getOperand0 Inst) AA = true →
     tryToSinkRefCountInst AA BB (bbTerm b) Inst st = (st, false)) ∧
  ((∀ Inst, Inst ∈ bbInsts b →
            isaRetainValueInst Inst || isaStrongRetainInst Inst = true →
            ∃ II, II ∈ instsAfter (instId Inst) (bbInsts b) ∧
                  canDecrementRefCount II (getOperand0 Inst) AA = true) →
   sinkRetainToSuccessors AA BB st = (st, false)).
Proof.
  intros Hb.
  assert (Hblocked : ∀ Inst II,
     II ∈ instsAfter (instId Inst) (bbInsts b) →
     canDecrementRefCount II (getOperand0 Inst) AA = true →
     mayBeDecrementedAfter AA BB Inst (getOperand0 Inst) (stFn st) = true).
  { intros Inst II HII Hdec. unfold mayBeDecrementedAfter. rewrite Hb.
    apply existsb_exists. exists II. split; [|done]. by apply list_elem_of_In. }
  split_and!.
  - intros (s & P & Hs & HP & Hne). unfold sinkRetainToSuccessors. rewrite Hb.
    assert (allSuccsHaveSinglePredecessor (stFn st) BB = false) as ->; [|done].
    apply not_true_is_false. intros Hall.
    unfold allSuccsHaveSinglePredecessor, getSuccs in Hall. rewrite Hb in Hall.
    apply Is_true_true, forallb_True in Hall.
    pose proof (proj1 (Forall_forall _ _) Hall s Hs) as Hsingle. simpl in Hsingle.
    apply bool_decide_unpack in Hsingle as [p Hp].
    unfold getSinglePredecessor in Hp.
    assert (BB ∈ getPreds (stFn st) s) as HBB by (apply elem_of_getPreds; eauto).
    destruct (getPreds (stFn st) s) as [|p' [|? ?]]; try done.
    apply list_elem_of_singleton in HP, HBB. congruence.
  - intros Inst II HII Hdec. apply tryToSinkRefCountInst_blocked. eauto.
  - intros Hall. unfold sinkRetainToSuccessors. rewrite Hb.
    repeat (case_match; try done). apply tryCandidates_all_unchanged.
    intros Inst HInst. apply (proj1 (elem_of_reverse _ _)) in HInst.
    destruct (isaRetainValueInst Inst || isaStrongRetainInst Inst) eqn:Hk.
    + destruct (Hall Inst HInst Hk) as (II & HII & Hdec).
      apply tryToSinkRefCountInst_blocked. eauto.
    + by apply tryToSinkRefCountInst_not_retain.
Qed.

End RefCountCandidates.

(** ** Counting instructions *)

Lemma fnInstIds_fnInsts F : fnInstIds F = instId <$> fnInsts F.
Proof.
  unfold fnInstIds, fnInsts. induction (fnBlocks F) as [|b l IH]; [done|].
  by rewrite !bind_cons, fmap_app, IH.
Qed.

Lemma fnInsts_updBlockInsts g BB F b :
  fnBlocks F !! BB = Some b →
  ∃ pre post,
    fnInsts F = pre ++ bbInsts b ++ post ∧
    fnInsts (updBlockInsts g BB F) = pre ++ g (bbInsts b) ++ post.
Proof.
  intros (l1 & l2 & Hsplit & ->)%fnBlocks_split.
  exists (l1 ≫= bbInsts), (l2 ≫= bbInsts).
  unfold fnInsts, updBlockInsts. simpl. rewrite Hsplit, alter_middle.
  by rewrite !bind_app, !bind_cons.
Qed.

Lemma numInsts_updBlockInsts g BB F b :
  fnBlocks F !! BB = Some b →
  numInsts (updBlockInsts g BB F) + length (bbInsts b)
  = numInsts F + length (g (bbInsts b)).
Proof.
  intros Hb. unfold numInsts.
  destruct (fnInsts_updBlockInsts g BB F b Hb) as (pre & post & -> & ->).
  rewrite !length_app. lia.
Qed.

Lemma elem_of_removeInst_ne x id l :
  x ∈ l → instId x ≠ id → x ∈ removeInst id l.
Proof.
  induction l as [|y l IH]; [done|]. rewrite elem_of_cons. simpl.
  intros [->|Hx] Hne.
  - rewrite decide_False by done. by left.
  - case_decide; [done|]. right. by apply IH.
Qed.

Lemma numInsts_eraseFromParent_le id F :
  numInsts (eraseFromParent id F) ≤ numInsts F.
Proof.
  unfold numInsts. rewrite <- !(length_fmap instId), <- !fnInstIds_fnInsts.
  apply sublist_length, eraseFromParent_sublist.
Qed.

Lemma numInsts_eraseFromParent id F :
  id ∈ fnInstIds F → S (numInsts (eraseFromParent id F)) = numInsts F.
Proof.
  intros Hid. unfold eraseFromParent.
  destruct (getParent F id) as [P|] eqn:HP; [|by apply getParent_None in HP].
  apply getParent_Some in HP as (b & Hb & Hidb).
  pose proof (numInsts_updBlockInsts (removeInst id) P F b Hb) as Hnum.
  pose proof (length_removeInst id (bbInsts b) Hidb). lia.
Qed.

Lemma elem_of_fnInsts_eraseFromParent x id F :
  x ∈ fnInsts F → instId x ≠ id → x ∈ fnInsts (eraseFromParent id F).
Proof.
  intros Hx Hne. unfold eraseFromParent.
  destruct (getParent F id) as [P|] eqn:HP; [|done].
  apply getParent_Some in HP as (b & Hb & _).
  destruct (fnInsts_updBlockInsts (removeInst id) P F b Hb) as (pre & post & Hi & ->).
  rewrite Hi in Hx. rewrite !elem_of_app in Hx |- *.
  destruct Hx as [?|[?|?]]; auto using elem_of_removeInst_ne.
Qed.

Lemma fnInsts_replaceAllUsesWith old new F :
  fnInsts (replaceAllUsesWith old new F) = mapInst (substValue old new) <$> fnInsts F.
Proof.
  unfold fnInsts, replaceAllUsesWith. simpl.
  induction (fnBlocks F) as [|b l IH]; [done|].
  rewrite fmap_cons, !bind_cons, fmap_app, IH. done.
Qed.

Lemma fnInstIds_replaceAllUsesWith old new F :
  fnInstIds (replaceAllUsesWith old new F) = fnInstIds F.
Proof.
  rewrite !fnInstIds_fnInsts, fnInsts_replaceAllUsesWith, <- list_fmap_compose.
  done.
Qed.

Lemma numInsts_replaceAllUsesWith old new F :
  numInsts (replaceAllUsesWith old new F) = numInsts F.
Proof. unfold numInsts. by rewrite fnInsts_replaceAllUsesWith, length_fmap. Qed.

Lemma elem_of_fnInsts F x :
  x ∈ fnInsts F ↔ ∃ BB b, fnBlocks F !! BB = Some b ∧ x ∈ bbInsts b.
Proof.
  unfold fnInsts. rewrite list_elem_of_bind. split.
  - intros (b & Hx & [BB Hb]%list_elem_of_lookup). eauto.
  - intros (BB & b & Hb & Hx). exists b. split; [done|].
    by eapply list_elem_of_lookup_2.
Qed.

Lemma getInst_Some F id x :
  getInst F id = Some x → x ∈ fnInsts F ∧ instId x = id.
Proof.
  unfold getInst. destruct (list_find _ _) as [[j y]|] eqn:Hfind; [|done].
  simpl. intros [= ->]. apply list_find_Some in Hfind as (Hj & Hid & _).
  split; [by eapply list_elem_of_lookup_2|done].
Qed.

Lemma getInst_is_Some F id : id ∈ fnInstIds F → is_Some (getInst F id).
Proof.
  rewrite fnInstIds_fnInsts. intros (x & -> & Hx)%list_elem_of_fmap.
  unfold getInst. apply fmap_is_Some. by eapply list_find_elem_of.
Qed.

Lemma getInst_NoDup F x :
  NoDup (fnInstIds F) → x ∈ fnInsts F → getInst F (instId x) = Some x.
Proof.
  rewrite fnInstIds_fnInsts. intros Hnd Hx.
  destruct (getInst_is_Some F (instId x)) as [y Hy].
  { rewrite fnInstIds_fnInsts. by apply list_elem_of_fmap_2. }
  rewrite Hy. f_equal. apply getInst_Some in Hy as [Hy Hid].
  apply list_elem_of_lookup in Hx as [i Hi]. apply list_elem_of_lookup in Hy as [j Hj].
  assert (i = j).
  { eapply NoDup_lookup; [done| |].
    - by rewrite list_lookup_fmap, Hi.
    - by rewrite list_lookup_fmap, Hj, <- Hid. }
  congruence.
Qed.

(** Moving an instruction to the start of an existing block keeps the
    number of instructions. *)
Lemma numInsts_moveBefore_begin id BB F :
  numInsts (moveBefore_begin id BB F) ≤ numInsts F.
Proof.
  unfold moveBefore_begin. destruct (getInst F id) as [x|] eqn:Hx; [|done].
  apply getInst_Some in Hx as [Hx <-].
  assert (instId x ∈ fnInstIds F) as Hid
    by (rewrite fnInstIds_fnInsts; by apply list_elem_of_fmap_2).
  pose proof (numInsts_eraseFromParent (instId x) F Hid).
  destruct (fnBlocks (eraseFromParent (instId x) F) !! BB) as [b|] eqn:Hb.
  - pose proof (numInsts_updBlockInsts (cons x) BB _ b Hb). simpl in *. lia.
  - rewrite updBlockInsts_None by done. lia.
Qed.

(** ** Duplicate-code sinker: the backward scans *)

Lemma findIdenticalScan_Some F SkipBudget cur Iden D :
  findIdenticalScan F SkipBudget cur Iden = Some D →
  ∃ skipped before,
    cur = skipped ++ NInst D :: before ∧
    Forall (λ n, isSinkBarrier F n = false) skipped ∧
    canSinkInstruction F (NInst D) = true ∧
    isIdenticalTo Iden D = true ∧
    length skipped < SkipBudget.
Proof.
  revert cur. induction SkipBudget as [|budget IH]; intros cur; [done|].
  destruct cur as [|x before]; [done|]. simpl.
  destruct (canSinkInstruction F x && nodeIdenticalTo Iden x) eqn:Hmatch.
  - apply andb_true_iff in Hmatch as [Hsink Hid].
    destruct x as [t|i]; [done|]. simpl. intros [= ->].
    exists [], before. split_and!; [done|constructor|done|done|simpl; lia].
  - destruct (isSinkBarrier F x) eqn:Hbar; [done|].
    destruct before as [|y before]; [done|]. intros Hfind.
    destruct (IH _ Hfind) as (skipped & before' & -> & Hsk & Hsink & Hid & Hlen).
    exists (x :: skipped), before'.
    split_and!; [done|by constructor|done|done|simpl; lia].
Qed.

(** A duplicate found in block [P] has no sink barrier between it and the
    terminator of [P]. *)
Lemma findIdenticalInBlock_Some F P Iden D :
  findIdenticalInBlock F P Iden = Some D →
  ∃ b pre post,
    fnBlocks F !! P = Some b ∧
    bbInsts b = pre ++ D :: post ∧
    Forall (λ i, isSinkBarrier F (NInst i) = false) post ∧
    canSinkInstruction F (NInst D) = true ∧
    isIdenticalTo Iden D = true.
Proof.
  unfold findIdenticalInBlock. destruct (fnBlocks F !! P) as [b|] eqn:Hb; [|done].
  cbn [mbind option_bind]. intros Hfind.
  apply findIdenticalScan_Some in Hfind
    as (skipped & before & Hcur & Hsk & Hsink & Hid & _).
  unfold nodesBackward in Hcur. destruct skipped as [|x skipped]; [done|].
  simpl in Hcur. injection Hcur as _ Hcur.
  apply fmap_app_inv in Hcur as (l1 & l2 & -> & Hl2 & Hrev).
  symmetry in Hl2. apply fmap_cons_inv in Hl2 as (D' & l3 & [= <-] & -> & ->).
  exists b, (reverse l3), (reverse l1). split_and!; [done| | |done|done].
  - rewrite <- (reverse_involutive (bbInsts b)), Hrev.
    by rewrite reverse_app, reverse_cons, <- app_assoc.
  - apply Forall_reverse. apply Forall_cons in Hsk as [_ Hsk].
    by apply Forall_fmap in Hsk.
Qed.

Lemma findIdenticalInBlock_elem_of F P Iden D :
  findIdenticalInBlock F P Iden = Some D →
  ∃ b, fnBlocks F !! P = Some b ∧ D ∈ bbInsts b.
Proof.
  intros (b & pre & post & Hb & Hinsts & _)%findIdenticalInBlock_Some.
  exists b. split; [done|]. rewrite Hinsts, elem_of_app. right; by left.
Qed.

(** [findDups] either gives up with an empty list or returns one duplicate
    for each predecessor other than the first, in order. *)
Lemma findDups_cases F FirstPred c Preds acc :
  findDups F FirstPred c Preds acc = [] ∨
  ∃ ds, findDups F FirstPred c Preds acc = acc ++ ds ∧
        Forall2 (λ P d, findIdenticalInBlock F P c = Some d)
                (filter (λ P, P ≠ FirstPred) Preds) ds.
Proof.
  revert acc. induction Preds as [|P Preds IH]; intros acc; simpl.
  - right. exists []. split; [by rewrite app_nil_r|constructor].
  - case_decide as HP.
    + rewrite filter_cons_False by (by intros ?). apply IH.
    + rewrite filter_cons_True by done.
      destruct (findIdenticalInBlock F P c) as [d|] eqn:Hd; [|by left].
      destruct (IH (acc ++ [d])) as [->|(ds & -> & Hds)]; [by left|].
      right. exists (d :: ds). split; [by rewrite <- app_assoc|by constructor].
Qed.

Lemma findDups_complete F FirstPred c Preds acc ds :
  Forall2 (λ P d, findIdenticalInBlock F P c = Some d)
          (filter (λ P, P ≠ FirstPred) Preds) ds →
  findDups F FirstPred c Preds acc = acc ++ ds.
Proof.
  revert acc ds. induction Preds as [|P Preds IH]; intros acc ds; simpl.
  - intros ->%Forall2_nil_inv_l. by rewrite app_nil_r.
  - case_decide as HP.
    + rewrite filter_cons_False by (by intros ?). apply IH.
    + rewrite filter_cons_True by done.
      intros (d & ds' & Hd & Hds & ->)%Forall2_cons_inv_l.
      rewrite Hd, (IH _ _ Hds). by rewrite <- app_assoc.
Qed.

Lemma scanStep_Sunk_inv BB FirstPred x before st st' :
  scanStep BB FirstPred x before st = StepSunk st' →
  ∃ i D Dups,
    x = NInst i ∧
    canSinkInstruction (stFn st) x = true ∧
    findDups (stFn st) FirstPred i (getPreds (stFn st) BB) [] = D :: Dups ∧
    st' = sinkDups BB i (D :: Dups) st.
Proof.
  unfold scanStep, dupsFor.
  destruct (canSinkInstruction (stFn st) x) eqn:Hsink.
  - destruct x as [t|i].
    + repeat (case_match; try done).
    + destruct (findDups _ _ _ _ _) as [|D Dups] eqn:Hd.
      * repeat (case_match; try done).
      * intros [= <-]. by exists i, D, Dups.
  - repeat (case_match; try done).
Qed.

(** Once a sink has happened the scan reports a change. *)
Lemma sinkScan_Changed fuel BB FirstPred SkipBudget cur st :
  (sinkScan fuel BB FirstPred SkipBudget cur st true).2 = true.
Proof.
  revert SkipBudget cur st.
  induction fuel as [|fuel IH]; intros SkipBudget cur st; [done|].
  destruct SkipBudget as [|budget]; [done|]. destruct cur as [|x before]; [done|].
  simpl. destruct (scanStep BB FirstPred x before st); auto.
Qed.

(** A scan that reports no change has left the state as it was. *)
Lemma sinkScan_unchanged fuel BB FirstPred SkipBudget cur st :
  (sinkScan fuel BB FirstPred SkipBudget cur st false).2 = false →
  sinkScan fuel BB FirstPred SkipBudget cur st false = (st, false).
Proof.
  revert SkipBudget cur.
  induction fuel as [|fuel IH]; intros SkipBudget cur; [done|].
  destruct SkipBudget as [|budget]; [done|]. destruct cur as [|x before]; [done|].
  simpl. destruct (scanStep BB FirstPred x before st); auto.
  by rewrite sinkScan_Changed.
Qed.

Lemma sinkCodeFromPredecessors_unchanged BB st :
  (sinkCodeFromPredecessors BB st).2 = false →
  sinkCodeFromPredecessors BB st = (st, false).
Proof.
  unfold sinkCodeFromPredecessors. repeat (case_match; try done).
  apply sinkScan_unchanged.
Qed.

(** ** Duplicate-code sinker: every sink erases an instruction *)

Lemma length_eraseFromParent id F :
  length (fnBlocks (eraseFromParent id F)) = length (fnBlocks F).
Proof.
  unfold eraseFromParent. destruct (getParent F id); [|done].
  apply length_updBlockInsts.
Qed.

Lemma NumSunk_eraseDups c Dups st :
  NumSunk (eraseDups c Dups st) = NumSunk st + length Dups.
Proof.
  revert st. induction Dups as [|D Dups IH]; intros st; simpl; [lia|].
  rewrite IH. simpl. lia.
Qed.

Lemma numInsts_eraseDups_le c Dups st :
  numInsts (stFn (eraseDups c Dups st)) ≤ numInsts (stFn st).
Proof.
  revert st. induction Dups as [|D Dups IH]; intros st; simpl; [lia|].
  etrans; [apply IH|]. simpl. etrans; [apply numInsts_eraseFromParent_le|].
  by rewrite numInsts_replaceAllUsesWith.
Qed.

Lemma numInsts_eraseDups_lt c D Dups st :
  instId D ∈ fnInstIds (stFn st) →
  numInsts (stFn (eraseDups c (D :: Dups) st)) < numInsts (stFn st).
Proof.
  intros HD. simpl. eapply Nat.le_lt_trans; [apply numInsts_eraseDups_le|]. simpl.
  pose proof (numInsts_eraseFromParent (instId D)
    (replaceAllUsesWith (InstResult (instId D)) (InstResult (instId c)) (stFn st))) as Hlt.
  rewrite fnInstIds_replaceAllUsesWith, numInsts_replaceAllUsesWith in Hlt.
  specialize (Hlt HD). lia.
Qed.

Lemma elem_of_fnInstIds F x : x ∈ fnInsts F → instId x ∈ fnInstIds F.
Proof. rewrite fnInstIds_fnInsts. apply list_elem_of_fmap_2. Qed.

Lemma fnInsts_moveBefore_begin c BB F D :
  is_Some (fnBlocks F !! BB) → c ∈ fnInsts F → D ∈ fnInsts F →
  instId D ∈ fnInstIds (moveBefore_begin (instId c) BB F).
Proof.
  intros HBB Hc HD. unfold moveBefore_begin.
  destruct (getInst_is_Some F (instId c) (elem_of_fnInstIds _ _ Hc)) as [c' Hc'].
  rewrite Hc'. apply getInst_Some in Hc' as [_ Hid].
  assert (is_Some (fnBlocks (eraseFromParent (instId c) F) !! BB)) as [b' Hb'].
  { apply lookup_lt_is_Some. rewrite length_eraseFromParent.
    by apply lookup_lt_is_Some. }
  destruct (fnInsts_updBlockInsts (cons c') BB _ b' Hb') as (pre & post & Hi & Hi').
  destruct (decide (instId D = instId c)) as [Heq|Hne].
  - replace (instId D) with (instId c') by congruence.
    apply elem_of_fnInstIds. rewrite Hi'.
    rewrite !elem_of_app. right; left; by left.
  - apply elem_of_fnInstIds. rewrite Hi'.
    pose proof (elem_of_fnInsts_eraseFromParent D (instId c) F HD Hne) as HD'.
    rewrite Hi in HD'. rewrite !elem_of_app in HD' |- *. rewrite elem_of_cons.
    tauto.
Qed.

Lemma numInsts_sinkDups BB c D Dups st :
  is_Some (fnBlocks (stFn st) !! BB) →
  c ∈ fnInsts (stFn st) → D ∈ fnInsts (stFn st) →
  numInsts (stFn (sinkDups BB c (D :: Dups) st)) < numInsts (stFn st).
Proof.
  intros HBB Hc HD. unfold sinkDups.
  eapply Nat.lt_le_trans; [apply numInsts_eraseDups_lt|].
  - simpl. by apply fnInsts_moveBefore_begin.
  - simpl. apply numInsts_moveBefore_begin.
Qed.

Lemma elem_of_blockNodesBackward F BB i :
  NInst i ∈ blockNodesBackward F BB → i ∈ fnInsts F.
Proof.
  unfold blockNodesBackward. destruct (fnBlocks F !! BB) as [b|] eqn:Hb.
  - unfold nodesBackward. rewrite elem_of_cons. intros [?|Hin]; [done|].
    apply list_elem_of_fmap in Hin as (i' & [= ->] & Hi').
    apply elem_of_fnInsts. exists BB, b. split; [done|].
    by apply elem_of_reverse.
  - by intros ?%elem_of_nil.
Qed.

Lemma findDups_elem_of F FirstPred c Preds D Dups :
  findDups F FirstPred c Preds [] = D :: Dups → D ∈ fnInsts F.
Proof.
  intros Hd. destruct (findDups_cases F FirstPred c Preds []) as [H|(ds & H & Hall)];
    rewrite Hd in H; [done|].
  simpl in H. subst ds. apply Forall2_cons_inv_r in Hall as (P & ? & HP & _).
  apply findIdenticalInBlock_elem_of in HP as (b & Hb & HD).
  apply elem_of_fnInsts. eauto.
Qed.

(** A sink step erases at least one instruction of the function. *)
Lemma scanStep_Sunk_numInsts BB FirstPred x before st st' :
  is_Some (fnBlocks (stFn st) !! BB) →
  x ∈ blockNodesBackward (stFn st) FirstPred →
  scanStep BB FirstPred x before st = StepSunk st' →
  numInsts (stFn st') < numInsts (stFn st).
Proof.
  intros HBB Hx (i & D & Dups & -> & _ & Hd & ->)%scanStep_Sunk_inv.
  apply numInsts_sinkDups; [done| |].
  - by eapply elem_of_blockNodesBackward.
  - by eapply findDups_elem_of.
Qed.

Lemma length_fnBlocks_replaceAllUsesWith old new F :
  length (fnBlocks (replaceAllUsesWith old new F)) = length (fnBlocks F).
Proof. unfold replaceAllUsesWith. simpl. apply length_fmap. Qed.

Lemma length_fnBlocks_moveBefore_begin id BB F :
  length (fnBlocks (moveBefore_begin id BB F)) = length (fnBlocks F).
Proof.
  unfold moveBefore_begin. destruct (getInst F id); [|done].
  by rewrite length_updBlockInsts, length_eraseFromParent.
Qed.

Lemma length_fnBlocks_eraseDups c Dups st :
  length (fnBlocks (stFn (eraseDups c Dups st))) = length (fnBlocks (stFn st)).
Proof.
  revert st. induction Dups as [|D Dups IH]; intros st; [done|].
  simpl. rewrite IH. simpl.
  by rewrite length_eraseFromParent, length_fnBlocks_replaceAllUsesWith.
Qed.

Lemma length_fnBlocks_sinkDups BB c Dups st :
  length (fnBlocks (stFn (sinkDups BB c Dups st))) = length (fnBlocks (stFn st)).
Proof.
  unfold sinkDups. rewrite length_fnBlocks_eraseDups. simpl.
  apply length_fnBlocks_moveBefore_begin.
Qed.

(** The scan does not depend on the bound on its iterations, as long as the
    bound is at least the number of instructions plus the budget left. *)
Lemma sinkScan_fuel BB FirstPred fuel1 fuel2 SkipBudget cur st Changed :
  is_Some (fnBlocks (stFn st) !! BB) →
  cur `suffix_of` blockNodesBackward (stFn st) FirstPred →
  numInsts (stFn st) + SkipBudget ≤ fuel1 →
  numInsts (stFn st) + SkipBudget ≤ fuel2 →
  sinkScan fuel1 BB FirstPred SkipBudget cur st Changed
  = sinkScan fuel2 BB FirstPred SkipBudget cur st Changed.
Proof.
  revert fuel2 SkipBudget cur st Changed.
  induction fuel1 as [|fuel1 IH]; intros fuel2 SkipBudget cur st Changed HBB Hsuf H1 H2.
  { assert (SkipBudget = 0) as -> by lia. by destruct fuel2. }
  destruct fuel2 as [|fuel2].
  { assert (SkipBudget = 0) as -> by lia. done. }
  destruct SkipBudget as [|budget]; [done|]. destruct cur as [|x before]; [done|].
  simpl. destruct (scanStep BB FirstPred x before st) as [st'| |] eqn:Hstep; [|done|].
  - assert (numInsts (stFn st') < numInsts (stFn st)).
    { eapply scanStep_Sunk_numInsts; [done| |done].
      destruct Hsuf as [k ->]. rewrite elem_of_app. right; by left. }
    apply IH; [|done|lia|lia].
    apply scanStep_Sunk_inv in Hstep as (i & D & Dups & _ & _ & _ & ->).
    apply lookup_lt_is_Some. rewrite length_fnBlocks_sinkDups.
    by apply lookup_lt_is_Some.
  - apply IH; [done| |lia|lia]. by eapply suffix_cons_l.
Qed.

(** ** Operands and use lists *)

Lemma fmap_id_on {A} (g : A → A) (l : list A) :
  (∀ u, u ∈ l → g u = u) → g <$> l = l.
Proof.
  induction l as [|x l IH]; intros Hg; [done|].
  rewrite fmap_cons, Hg, IH; [done| |by left]. intros; apply Hg; by right.
Qed.

Lemma mapInstOperands_id g k :
  (∀ u, u ∈ instOperands k → g u = u) → mapInstOperands g k = k.
Proof.
  destruct k; simpl; intros Hg; f_equal;
    try (apply fmap_id_on; intros; apply Hg; by repeat constructor);
    try (apply Hg; by repeat constructor).
Qed.

Lemma mapTermOperands_id g t :
  (∀ u, u ∈ termOperands t → g u = u) → mapTermOperands g t = t.
Proof.
  destruct t; simpl; intros Hg; f_equal;
    try (apply Hg; by repeat constructor);
    apply fmap_id_on; intros u Hu; apply Hg; rewrite ?elem_of_cons, ?elem_of_app; auto.
Qed.

Lemma elem_of_fnOperands F v :
  v ∈ fnOperands F ↔
  (∃ x, x ∈ fnInsts F ∧ v ∈ instOperands (instKind x)) ∨
  (∃ BB b, fnBlocks F !! BB = Some b ∧ v ∈ termOperands (bbTerm b)).
Proof.
  unfold fnOperands. rewrite list_elem_of_bind. split.
  - intros (b & Hv & Hb). apply list_elem_of_lookup in Hb as [BB Hb].
    unfold bbOperands in Hv. apply elem_of_app in Hv as [Hv|Hv].
    + left. apply list_elem_of_bind in Hv as (x & Hv & Hx). exists x.
      split; [|done]. apply elem_of_fnInsts. eauto.
    + right. eauto.
  - intros [(x & Hx & Hv)|(BB & b & Hb & Hv)].
    + apply elem_of_fnInsts in Hx as (BB & b & Hb & Hx). exists b.
      split; [|by eapply list_elem_of_lookup_2].
      unfold bbOperands. apply elem_of_app. left. apply list_elem_of_bind. eauto.
    + exists b. split; [|by eapply list_elem_of_lookup_2].
      unfold bbOperands. apply elem_of_app. by right.
Qed.

Lemma numUses_zero F v : numUses F v = 0 ↔ v ∉ fnOperands F.
Proof.
  unfold numUses. split.
  - intros Hlen Hin. apply length_zero_iff_nil in Hlen.
    assert (v ∈ filter (λ u, u = v) (fnOperands F)) as Hf
      by (by apply list_elem_of_filter).
    rewrite Hlen in Hf. by apply elem_of_nil in Hf.
  - intros Hnot. apply length_zero_iff_nil, elem_of_nil_inv.
    intros u [-> Hu]%list_elem_of_filter. done.
Qed.

Lemma replaceAllUsesWith_unused old new F :
  old ∉ fnOperands F → replaceAllUsesWith old new F = F.
Proof.
  intros Hnot. destruct F as [blocks n]. unfold replaceAllUsesWith. simpl.
  f_equal. apply fmap_id_on. intros b Hb.
  assert (Hg : ∀ u, u ∈ bbOperands b → substValue old new u = u).
  { intros u Hu. unfold substValue. case_decide as Heq; [|done]. subst u.
    destruct Hnot. unfold fnOperands. simpl. apply list_elem_of_bind. eauto. }
  destruct b as [args insts term]. unfold mapBBOperands, bbOperands in *.
  simpl in *. f_equal.
  - apply fmap_id_on. intros [id k] Hx. unfold mapInst. simpl. f_equal.
    apply mapInstOperands_id. intros u Hu. apply Hg, elem_of_app. left.
    apply list_elem_of_bind. by exists (mkInst id k).
  - apply mapTermOperands_id. intros u Hu. apply Hg, elem_of_app. by right.
Qed.

Lemma fnInsts_eraseFromParent_subset id F x :
  x ∈ fnInsts (eraseFromParent id F) → x ∈ fnInsts F.
Proof.
  unfold eraseFromParent. destruct (getParent F id) as [P|] eqn:HP; [|done].
  apply getParent_Some in HP as (b & Hb & _).
  destruct (fnInsts_updBlockInsts (removeInst id) P F b Hb) as (pre & post & -> & ->).
  rewrite !elem_of_app. intros [?|[Hx|?]]; auto.
  right; left. eapply sublist_elem_of; [apply removeInst_sublist|done].
Qed.

Lemma bbTerm_updBlockInsts g P F BB :
  bbTerm <$> fnBlocks (updBlockInsts g P F) !! BB = bbTerm <$> fnBlocks F !! BB.
Proof.
  rewrite lookup_updBlockInsts. case_decide; [|done].
  by destruct (fnBlocks F !! BB).
Qed.

Lemma bbArgs_updBlockInsts g P F BB :
  bbArgs <$> fnBlocks (updBlockInsts g P F) !! BB = bbArgs <$> fnBlocks F !! BB.
Proof.
  rewrite lookup_updBlockInsts. case_decide; [|done].
  by destruct (fnBlocks F !! BB).
Qed.

Lemma bbTerm_eraseFromParent id F BB :
  bbTerm <$> fnBlocks (eraseFromParent id F) !! BB = bbTerm <$> fnBlocks F !! BB.
Proof.
  unfold eraseFromParent. destruct (getParent F id); [|done].
  apply bbTerm_updBlockInsts.
Qed.

Lemma bbArgs_eraseFromParent id F BB :
  bbArgs <$> fnBlocks (eraseFromParent id F) !! BB = bbArgs <$> fnBlocks F !! BB.
Proof.
  unfold eraseFromParent. destruct (getParent F id); [|done].
  apply bbArgs_updBlockInsts.
Qed.

Lemma lookup_fmap_Some_inv {A B} (f : A → B) (l l' : list A) i x :
  f <$> l !! i = f <$> l' !! i → l !! i = Some x →
  ∃ y, l' !! i = Some y ∧ f y = f x.
Proof.
  intros Heq Hx. rewrite Hx in Heq. simpl in Heq.
  destruct (l' !! i) as [y|]; [|done]. exists y. split; [done|].
  simpl in Heq. congruence.
Qed.

Lemma fnOperands_eraseFromParent_subset id F v :
  v ∈ fnOperands (eraseFromParent id F) → v ∈ fnOperands F.
Proof.
  rewrite !elem_of_fnOperands. intros [(x & Hx & Hv)|(BB & b & Hb & Hv)].
  - left. exists x. split; [by eapply fnInsts_eraseFromParent_subset|done].
  - right. destruct (lookup_fmap_Some_inv bbTerm _ (fnBlocks F) BB b
      (bbTerm_eraseFromParent id F BB) Hb) as (b' & Hb' & Ht).
    exists BB, b'. by rewrite Ht.
Qed.

Lemma fnInsts_moveBefore_begin_subset id BB F x :
  x ∈ fnInsts (moveBefore_begin id BB F) → x ∈ fnInsts F.
Proof.
  unfold moveBefore_begin. destruct (getInst F id) as [c|] eqn:Hc; [|done].
  apply getInst_Some in Hc as [Hc _].
  destruct (fnBlocks (eraseFromParent id F) !! BB) as [b|] eqn:Hb.
  - destruct (fnInsts_updBlockInsts (cons c) BB _ b Hb) as (pre & post & Hi & ->).
    intros Hx. assert (x = c ∨ x ∈ fnInsts (eraseFromParent id F)) as [->|Hx'].
    { rewrite Hi. rewrite !elem_of_app, elem_of_cons in Hx.
      rewrite !elem_of_app. tauto. }
    + done.
    + by eapply fnInsts_eraseFromParent_subset.
  - rewrite updBlockInsts_None by done. apply fnInsts_eraseFromParent_subset.
Qed.

Lemma bbTerm_moveBefore_begin id P F BB :
  bbTerm <$> fnBlocks (moveBefore_begin id P F) !! BB = bbTerm <$> fnBlocks F !! BB.
Proof.
  unfold moveBefore_begin. destruct (getInst F id); [|done].
  by rewrite bbTerm_updBlockInsts, bbTerm_eraseFromParent.
Qed.

Lemma bbArgs_moveBefore_begin id P F BB :
  bbArgs <$> fnBlocks (moveBefore_begin id P F) !! BB = bbArgs <$> fnBlocks F !! BB.
Proof.
  unfold moveBefore_begin. destruct (getInst F id); [|done].
  by rewrite bbArgs_updBlockInsts, bbArgs_eraseFromParent.
Qed.

Lemma fnOperands_moveBefore_begin_subset id P F v :
  v ∈ fnOperands (moveBefore_begin id P F) → v ∈ fnOperands F.
Proof.
  rewrite !elem_of_fnOperands. intros [(x & Hx & Hv)|(BB & b & Hb & Hv)].
  - left. exists x. split; [by eapply fnInsts_moveBefore_begin_subset|done].
  - right. destruct (lookup_fmap_Some_inv bbTerm _ (fnBlocks F) BB b
      (bbTerm_moveBefore_begin id P F BB) Hb) as (b' & Hb' & Ht).
    exists BB, b'. by rewrite Ht.
Qed.

(** ** Duplicate-code sinker: one sink *)

Lemma eraseDups_unused c Dups st :
  (∀ D, D ∈ Dups → InstResult (instId D) ∉ fnOperands (stFn st)) →
  stFn (eraseDups c Dups st)
  = foldl (λ F D, eraseFromParent (instId D) F) (stFn st) Dups.
Proof.
  revert st. induction Dups as [|D Dups IH]; intros st Hunused; [done|].
  simpl. rewrite IH; simpl.
  - by rewrite replaceAllUsesWith_unused by (apply Hunused; by left).
  - intros D' HD'. rewrite replaceAllUsesWith_unused by (apply Hunused; by left).
    intros Hin%fnOperands_eraseFromParent_subset.
    by apply (Hunused D'); [right|].
Qed.

Lemma wfIds_moveBefore_begin id BB F : wfIds F → wfIds (moveBefore_begin id BB F).
Proof.
  intros Hwf. unfold moveBefore_begin.
  destruct (getInst F id) as [c|] eqn:Hc; [|done].
  apply getInst_Some in Hc as [Hc <-].
  pose proof (wfIds_eraseFromParent (instId c) F Hwf) as [Hnd Hlt].
  pose proof (eraseFromParent_removes F (instId c) (proj1 Hwf)) as Hnotin.
  destruct (fnBlocks (eraseFromParent (instId c) F) !! BB) as [b|] eqn:Hb.
  - unfold wfIds.
    change (updBlockInsts (cons c) BB ?G) with (updBlockInsts (insertInst 0 c) BB G).
    rewrite (fnInstIds_updBlockInsts_cons c BB _ b Hb 0). split.
    + by apply NoDup_cons.
    + apply Forall_cons. split; [|done]. simpl.
      replace (fnNextId (eraseFromParent (instId c) F)) with (fnNextId F)
        by (unfold eraseFromParent; by destruct (getParent F (instId c))).
      destruct Hwf as [_ Hlt']. apply (proj1 (Forall_forall _ _) Hlt').
      by apply elem_of_fnInstIds.
  - by rewrite updBlockInsts_None.
Qed.

Lemma moveBefore_begin_head c BB F :
  NoDup (fnInstIds F) → c ∈ fnInsts F → is_Some (fnBlocks F !! BB) →
  ∃ b' rest, fnBlocks (moveBefore_begin (instId c) BB F) !! BB = Some b' ∧
             bbInsts b' = c :: rest.
Proof.
  intros Hnd Hc HBB. unfold moveBefore_begin. rewrite getInst_NoDup by done.
  assert (is_Some (fnBlocks (eraseFromParent (instId c) F) !! BB)) as [b Hb].
  { apply lookup_lt_is_Some. rewrite length_eraseFromParent.
    by apply lookup_lt_is_Some. }
  rewrite lookup_updBlockInsts, decide_True, Hb by done. simpl. eauto.
Qed.

Lemma eraseFromParent_head id F BB b h rest :
  fnBlocks F !! BB = Some b → bbInsts b = h :: rest → instId h ≠ id →
  ∃ b' rest', fnBlocks (eraseFromParent id F) !! BB = Some b' ∧
              bbInsts b' = h :: rest'.
Proof.
  intros Hb Hinsts Hne. unfold eraseFromParent.
  destruct (getParent F id) as [P|]; [|by eauto].
  rewrite lookup_updBlockInsts. case_decide; [|by eauto].
  rewrite Hb. simpl. eexists _, _. split; [done|]. simpl.
  by rewrite Hinsts, removeInst_cons_ne.
Qed.

Lemma foldl_erase_head (Dups : list SILInstruction) F BB b h rest :
  fnBlocks F !! BB = Some b → bbInsts b = h :: rest →
  (∀ D, D ∈ Dups → instId D ≠ instId h) →
  ∃ b' rest',
    fnBlocks (foldl (λ F D, eraseFromParent (instId D) F) F Dups) !! BB = Some b' ∧
    bbInsts b' = h :: rest'.
Proof.
  revert F b rest. induction Dups as [|D Dups IH]; intros F b rest Hb Hinsts Hne.
  { by eauto. }
  simpl. destruct (eraseFromParent_head (instId D) F BB b h rest Hb Hinsts)
    as (b' & rest' & Hb' & Hinsts').
  { intros Heq. apply (Hne D); [by left|done]. }
  eapply IH; [done..|]. intros D' HD'. apply Hne. by right.
Qed.

Lemma foldl_erase_sublist (Dups : list SILInstruction) F :
  fnInstIds (foldl (λ F D, eraseFromParent (instId D) F) F Dups)
    `sublist_of` fnInstIds F.
Proof.
  revert F. induction Dups as [|D Dups IH]; intros F; [done|].
  simpl. etrans; [apply IH|apply eraseFromParent_sublist].
Qed.

Lemma foldl_erase_removed (Dups : list SILInstruction) F D :
  NoDup (fnInstIds F) → D ∈ Dups →
  instId D ∉ fnInstIds (foldl (λ F D, eraseFromParent (instId D) F) F Dups).
Proof.
  revert F. induction Dups as [|D0 Dups IH]; intros F Hnd HD.
  { by apply elem_of_nil in HD. }
  simpl. apply elem_of_cons in HD as [->|HD].
  - intros Hin. apply (eraseFromParent_removes F (instId D0) Hnd).
    eapply sublist_elem_of; [apply foldl_erase_sublist|done].
  - apply IH; [|done].
    exact (sublist_NoDup _ _ Hnd (eraseFromParent_sublist _ _)).
Qed.

Lemma foldl_erase_operands (Dups : list SILInstruction) F v :
  v ∈ fnOperands (foldl (λ F D, eraseFromParent (instId D) F) F Dups) →
  v ∈ fnOperands F.
Proof.
  revert F. induction Dups as [|D Dups IH]; intros F; [done|].
  simpl. intros Hv%IH. by eapply fnOperands_eraseFromParent_subset.
Qed.

Lemma wfIds_foldl_erase (Dups : list SILInstruction) F :
  wfIds F → wfIds (foldl (λ F D, eraseFromParent (instId D) F) F Dups).
Proof.
  revert F. induction Dups as [|D Dups IH]; intros F Hwf; [done|].
  simpl. by apply IH, wfIds_eraseFromParent.
Qed.

Lemma sinkScan_unfold fuel BB FirstPred SkipBudget x before st Changed :
  sinkScan (S fuel) BB FirstPred (S SkipBudget) (x :: before) st Changed
  = match scanStep BB FirstPred x before st with
    | StepSunk st' =>
        sinkScan fuel BB FirstPred (S SkipBudget)
          (blockNodesBackward (stFn st') FirstPred) st' true
    | StepStop => (st, Changed)
    | StepPrev => sinkScan fuel BB FirstPred SkipBudget before st Changed
    end.
Proof. done. Qed.

Lemma canSinkInstruction_unused F D :
  canSinkInstruction F (NInst D) = true → InstResult (instId D) ∉ fnOperands F.
Proof.
  unfold canSinkInstruction, node_use_empty, use_empty.
  intros [Hu _]%andb_true_iff. by apply bool_decide_eq_true_1, numUses_zero in Hu.
Qed.

(** C4 (as amended): when a sinkable candidate [c] of the first predecessor
    has a structurally identical sinkable match in every other predecessor,
    and there is at least one other predecessor, the scan step sinks it: [c]
    is moved to the front of [BB], no operand refers to a duplicate, the
    duplicates are erased, the statistic grows by one for each erased
    duplicate (one per other predecessor), and the scan restarts at the
    first predecessor's terminator with the same budget and having recorded
    a change. *)
Theorem duplicate_sink_step (BB FirstPred : nat) (c : SILInstruction)
    (before : list SILNode) (st : PassState) (fuel SkipBudget : nat)
    (Changed : bool) (Dups : list SILInstruction) :
  wfIds (stFn st) →
  is_Some (fnBlocks (stFn st) !! BB) →
  NInst c ∈ blockNodesBackward (stFn st) FirstPred →
  canSinkInstruction (stFn st) (NInst c) = true →
  filter (λ P, P ≠ FirstPred) (getPreds (stFn st) BB) ≠ [] →
  Forall2 (λ P d, findIdenticalInBlock (stFn st) P c = Some d)
          (filter (λ P, P ≠ FirstPred) (getPreds (stFn st) BB)) Dups →
  ∃ st',
    scanStep BB FirstPred (NInst c) before st = StepSunk st' ∧
    sinkScan (S fuel) BB FirstPred (S SkipBudget) (NInst c :: before) st Changed
    = sinkScan fuel BB FirstPred (S SkipBudget)
        (blockNodesBackward (stFn st') FirstPred) st' true ∧
    (∃ b' rest, fnBlocks (stFn st') !! BB = Some b' ∧ bbInsts b' = c :: rest) ∧
    (∀ D, D ∈ Dups →
          (instId D ∉ fnInstIds (stFn st')) ∧
          numUses (stFn st') (InstResult (instId D)) = 0) ∧
    wfIds (stFn st') ∧
    NumSunk st' = NumSunk st + length Dups ∧
    length Dups = length (filter (λ P, P ≠ FirstPred) (getPreds (stFn st) BB)).
Proof.
  intros Hwf HBB Hc Hsink Hothers Hall.
  set (F := stFn st) in *.
  pose proof (elem_of_blockNodesBackward F FirstPred c Hc) as HcF.
  assert (HcFP : ∃ fb, fnBlocks F !! FirstPred = Some fb ∧ c ∈ bbInsts fb).
  { unfold blockNodesBackward in Hc. destruct (fnBlocks F !! FirstPred) as [fb|];
      [|by apply elem_of_nil in Hc].
    exists fb. split; [done|]. unfold nodesBackward in Hc.
    apply elem_of_cons in Hc as [?|Hc]; [done|].
    apply list_elem_of_fmap in Hc as (c' & [= ->] & Hc'). by apply elem_of_reverse. }
  destruct HcFP as (fb & Hfb & Hcfb).
  (* every duplicate sits in another block, is unused and is not [c] *)
  assert (HD : ∀ D, D ∈ Dups →
            (InstResult (instId D) ∉ fnOperands F) ∧ instId D ≠ instId c).
  { intros D HDin. apply list_elem_of_lookup in HDin as [k Hk].
    destruct (Forall2_lookup_r _ _ _ _ _ Hall Hk) as (P & HP & Hfind).
    apply list_elem_of_lookup_2, list_elem_of_filter in HP as [HPne _].
    apply findIdenticalInBlock_Some in Hfind
      as (b & pre & post & Hb & Hinsts & _ & HsinkD & _).
    split; [by apply canSinkInstruction_unused|].
    intros Heq. apply (NoDup_other_block F (instId c) FirstPred fb P b);
      [apply Hwf|done|done|done|by apply list_elem_of_fmap_2|].
    rewrite <- Heq. apply list_elem_of_fmap_2. rewrite Hinsts, elem_of_app.
    right; by left. }
  assert (Hfind : findDups F FirstPred c (getPreds F BB) [] = Dups)
    by (by rewrite (findDups_complete _ _ _ _ [] Dups)).
  assert (Hne : Dups ≠ []).
  { intros ->. apply Forall2_nil_inv_r in Hall. done. }
  destruct Dups as [|D0 Dups0] eqn:HDups; [done|]. rewrite <- HDups in *.
  set (F2 := moveBefore_begin (instId c) BB F).
  assert (Hst' : stFn (sinkDups BB c Dups st)
                 = foldl (λ F D, eraseFromParent (instId D) F) F2 Dups).
  { unfold sinkDups. rewrite eraseDups_unused; [done|]. simpl.
    intros D HDin Hin%fnOperands_moveBefore_begin_subset.
    by apply (proj1 (HD D HDin)). }
  assert (Hstep : scanStep BB FirstPred (NInst c) before st
                  = StepSunk (sinkDups BB c Dups st)).
  { unfold scanStep, dupsFor. fold F. rewrite Hsink, Hfind. by rewrite HDups. }
  exists (sinkDups BB c Dups st). split_and!.
  - done.
  - by rewrite sinkScan_unfold, Hstep.
  - rewrite Hst'.
    destruct (moveBefore_begin_head c BB F) as (b' & rest & Hb' & Hinsts');
      [apply Hwf|done..|].
    eapply foldl_erase_head; [done..|]. intros D HDin. by apply HD.
  - intros D HDin. rewrite Hst'. split.
    + apply foldl_erase_removed; [|done]. by apply wfIds_moveBefore_begin.
    + apply numUses_zero.
      intros Hin%foldl_erase_operands%fnOperands_moveBefore_begin_subset.
      by apply (proj1 (HD D HDin)).
  - rewrite Hst'. by apply wfIds_foldl_erase, wfIds_moveBefore_begin.
  - unfold sinkDups. by rewrite NumSunk_eraseDups.
  - symmetry. by eapply Forall2_length.
Qed.

(** ** Duplicate-code sinker: barriers *)

Lemma scanStep_Prev_inv BB FirstPred x before st :
  scanStep BB FirstPred x before st = StepPrev →
  isSinkBarrier (stFn st) x = false.
Proof.
  unfold scanStep. destruct (isSinkBarrier (stFn st) x); [|done].
  repeat (case_match; try done).
Qed.

Lemma scanStep_barrier BB FirstPred x before st :
  isSinkBarrier (stFn st) x = true →
  dupsFor BB FirstPred x st = [] →
  scanStep BB FirstPred x before st = StepStop.
Proof. unfold scanStep. by intros -> ->. Qed.

Lemma nodesBackward_split (Q : SILNode → Prop) b skipped i before :
  nodesBackward b = skipped ++ NInst i :: before →
  Forall Q skipped →
  ∃ pre post, bbInsts b = pre ++ i :: post ∧ Forall (λ j, Q (NInst j)) post.
Proof.
  unfold nodesBackward. intros Hcur Hsk.
  destruct skipped as [|x skipped]; [done|].
  simpl in Hcur. injection Hcur as _ Hcur.
  apply fmap_app_inv in Hcur as (l1 & l2 & -> & Hl2 & Hrev).
  symmetry in Hl2. apply fmap_cons_inv in Hl2 as (i' & l3 & [= <-] & -> & ->).
  exists (reverse l3), (reverse l1). split.
  - rewrite <- (reverse_involutive (bbInsts b)), Hrev.
    by rewrite reverse_app, reverse_cons, <- app_assoc.
  - apply Forall_reverse. apply Forall_cons in Hsk as [_ Hsk].
    rewrite Forall_fmap in Hsk. eapply Forall_impl; [exact Hsk|]. by intros ?.
Qed.

Lemma scanNext_invariant BB FirstPred c c' :
  scanNext BB FirstPred c c' →
  skippedAreNotBarriers FirstPred c → skippedAreNotBarriers FirstPred c'.
Proof.
  intros Hnext (skipped & Hnodes & Hsk). destruct Hnext as [|budget x before st ch Hstep].
  - exists []. by split.
  - simpl in *. exists (skipped ++ [x]). split; [by rewrite <- app_assoc|].
    apply Forall_app. split; [done|]. apply Forall_singleton.
    by eapply scanStep_Prev_inv.
Qed.

(** The function [sinkScan] runs the transitions from the configuration it
    is called with. *)
Lemma sinkScan_follows BB FirstPred fuel budget cur st ch :
  ∃ c, rtc (scanNext BB FirstPred) (mkConfig budget cur st ch) c ∧
       sinkScan fuel BB FirstPred budget cur st ch = (cfgState c, cfgChanged c).
Proof.
  revert budget cur st ch. induction fuel as [|fuel IH]; intros budget cur st ch.
  { by eexists. }
  destruct budget as [|budget]; [by eexists|].
  destruct cur as [|x before]; [by eexists|]. rewrite sinkScan_unfold.
  destruct (scanStep BB FirstPred x before st) as [st'| |] eqn:Hstep.
  - destruct (IH (S budget) (blockNodesBackward (stFn st') FirstPred) st' true)
      as (c & Hrtc & ->).
    exists c. split; [|done]. eapply rtc_l; [|done]. by constructor.
  - by eexists.
  - destruct (IH budget before st ch) as (c & Hrtc & ->).
    exists c. split; [|done]. eapply rtc_l; [|done]. by constructor.
Qed.

(** C6 (as amended): in every configuration the scan of the first
    predecessor reaches, no instruction between the iterator and the end of
    the block is a sink barrier.  So the candidate of a sink step has no
    barrier after it in the first predecessor, and each duplicate erased with
    it has none after it in its own block.  A barrier under the iterator
    that is not itself sunk ends the scan; a barrier that is sinkable and
    matched in every other predecessor is sunk like any other candidate.
    The scan of [sinkCodeFromPredecessors] is a run of these transitions. *)
Theorem no_sink_across_barrier (BB FirstPred : nat) (st : PassState)
    (c : ScanConfig) :
  rtc (scanNext BB FirstPred)
      (mkConfig SinkSearchWindow (blockNodesBackward (stFn st) FirstPred) st false) c →
  skippedAreNotBarriers FirstPred c ∧
  (∀ x before st',
     cfgCur c = x :: before →
     scanStep BB FirstPred x before (cfgState c) = StepSunk st' →
     ∃ i, x = NInst i ∧
       (∃ fb pre post,
          fnBlocks (stFn (cfgState c)) !! FirstPred = Some fb ∧
          bbInsts fb = pre ++ i :: post ∧
          Forall (λ j, isSinkBarrier (stFn (cfgState c)) (NInst j) = false) post) ∧
       (∀ D, D ∈ dupsFor BB FirstPred x (cfgState c) →
          ∃ P b pre post,
            fnBlocks (stFn (cfgState c)) !! P = Some b ∧
            bbInsts b = pre ++ D :: post ∧
            Forall (λ j, isSinkBarrier (stFn (cfgState c)) (NInst j) = false) post)) ∧
  (∀ budget x before fuel,
     cfgBudget c = S budget → cfgCur c = x :: before →
     isSinkBarrier (stFn (cfgState c)) x = true →
     dupsFor BB FirstPred x (cfgState c) = [] →
     (∀ c', ¬ scanNext BB FirstPred c c') ∧
     sinkScan (S fuel) BB FirstPred (cfgBudget c) (cfgCur c) (cfgState c) (cfgChanged c)
     = (cfgState c, cfgChanged c)) ∧
  (∀ fuel, ∃ c',
     rtc (scanNext BB FirstPred)
         (mkConfig SinkSearchWindow (blockNodesBackward (stFn st) FirstPred) st false)
         c' ∧
     sinkScan fuel BB FirstPred SinkSearchWindow
       (blockNodesBackward (stFn st) FirstPred) st false
     = (cfgState c', cfgChanged c')).
Proof.
  intros Hrtc.
  assert (Hinv : skippedAreNotBarriers FirstPred c).
  { revert c Hrtc.
    apply (rtc_ind_r (R := scanNext BB FirstPred)
             (λ c, skippedAreNotBarriers FirstPred c)); [by exists []|].
    intros c1 c2 _ Hnext Hc1. by eapply scanNext_invariant. }
  split_and!; [done| | |intros fuel; apply sinkScan_follows].
  - intros x before st' Hcur Hstep. destruct Hinv as (skipped & Hnodes & Hsk).
    pose proof Hstep as (i & D0 & Dups & -> & _ & Hd & _)%scanStep_Sunk_inv.
    exists i. split_and!; [done| |].
    + rewrite Hcur in Hnodes. unfold blockNodesBackward in Hnodes.
      destruct (fnBlocks (stFn (cfgState c)) !! FirstPred) as [fb|];
        [|by destruct skipped].
      destruct (nodesBackward_split _ fb skipped i before Hnodes Hsk)
        as (pre & post & Hinsts & Hpost).
      by exists fb, pre, post.
    + intros D HD. unfold dupsFor in HD.
      destruct (canSinkInstruction _ _); [|by apply elem_of_nil in HD].
      destruct (findDups_cases (stFn (cfgState c)) FirstPred i
                  (getPreds (stFn (cfgState c)) BB) []) as [Hnil|(ds & Hds & Hall)].
      { rewrite Hnil in HD. by apply elem_of_nil in HD. }
      rewrite Hds in HD. simpl in HD. apply list_elem_of_lookup in HD as [k Hk].
      destruct (Forall2_lookup_r _ _ _ _ _ Hall Hk) as (P & _ & Hfind).
      apply findIdenticalInBlock_Some in Hfind
        as (b & pre & post & Hb & Hinsts & Hpost & _).
      by exists P, b, pre, post.
  - intros budget x before fuel Hbudget Hcur Hbar Hnodups.
    pose proof (scanStep_barrier BB FirstPred x before _ Hbar Hnodups) as Hstop.
    split.
    + intros c' Hnext. destruct Hnext; simpl in *; simplify_eq; congruence.
    + by rewrite Hbudget, Hcur, sinkScan_unfold, Hstop.
Qed.

(** ** Renaming operands *)

Lemma mapInstOperands_compose g h k :
  mapInstOperands h (mapInstOperands g k) = mapInstOperands (h ∘ g) k.
Proof. destruct k; simpl; by rewrite <- ?list_fmap_compose. Qed.

Lemma mapTermOperands_compose g h t :
  mapTermOperands h (mapTermOperands g t) = mapTermOperands (h ∘ g) t.
Proof. destruct t; simpl; by rewrite <- ?list_fmap_compose. Qed.

Lemma mapInstOperands_ext g g' k :
  (∀ v, g v = g' v) → mapInstOperands g k = mapInstOperands g' k.
Proof.
  intros Hext. destruct k; simpl; rewrite ?Hext; f_equal; by apply list_fmap_ext.
Qed.

Lemma mapTermOperands_ext g g' t :
  (∀ v, g v = g' v) → mapTermOperands g t = mapTermOperands g' t.
Proof.
  intros Hext. destruct t; simpl; rewrite ?Hext; f_equal; by apply list_fmap_ext.
Qed.

Lemma mapInst_id x : mapInst (λ v, v) x = x.
Proof.
  destruct x as [id k]. unfold mapInst. simpl. f_equal.
  by apply mapInstOperands_id.
Qed.

Lemma operandsRenamed_refl F : operandsRenamed (λ v, v) F F.
Proof.
  split_and!; [done| |].
  - intros BB b Hb. exists b. split_and!; [done..|].
    symmetry. by apply mapTermOperands_id.
  - intros x Hx. exists x. by rewrite mapInst_id.
Qed.

Lemma operandsRenamed_trans g h F F' F'' :
  operandsRenamed g F F' → operandsRenamed h F' F'' →
  operandsRenamed (h ∘ g) F F''.
Proof.
  intros (Hl1 & Hb1 & Hi1) (Hl2 & Hb2 & Hi2). split_and!; [congruence| |].
  - intros BB b Hb. destruct (Hb1 BB b Hb) as (b' & Hb' & Ha' & Ht').
    destruct (Hb2 BB b' Hb') as (b'' & Hb'' & Ha'' & Ht'').
    exists b''. split_and!; [done|congruence|].
    by rewrite Ht'', Ht', mapTermOperands_compose.
  - intros x'' Hx''. destruct (Hi2 x'' Hx'') as (x' & Hx' & ->).
    destruct (Hi1 x' Hx') as (x & Hx & ->). exists x. split; [done|].
    unfold mapInst. simpl. by rewrite mapInstOperands_compose.
Qed.

Lemma operandsRenamed_ext g g' F F' :
  (∀ v, g v = g' v) → operandsRenamed g F F' → operandsRenamed g' F F'.
Proof.
  intros Hext (Hl & Hb & Hi). split_and!; [done| |].
  - intros BB b Hlook. destruct (Hb BB b Hlook) as (b' & ? & ? & Ht).
    exists b'. split_and!; [done..|]. by rewrite Ht, (mapTermOperands_ext g g').
  - intros x' Hx'. destruct (Hi x' Hx') as (x & Hx & ->). exists x.
    split; [done|]. unfold mapInst. by rewrite (mapInstOperands_ext g g').
Qed.

(** An operation that only removes or moves instructions renames nothing. *)
Lemma operandsRenamed_same F F' :
  length (fnBlocks F') = length (fnBlocks F) →
  (∀ BB, bbTerm <$> fnBlocks F' !! BB = bbTerm <$> fnBlocks F !! BB) →
  (∀ BB, bbArgs <$> fnBlocks F' !! BB = bbArgs <$> fnBlocks F !! BB) →
  (∀ x, x ∈ fnInsts F' → x ∈ fnInsts F) →
  operandsRenamed (λ v, v) F F'.
Proof.
  intros Hl Ht Ha Hi. split_and!; [done| |].
  - intros BB b Hb.
    destruct (fnBlocks F' !! BB) as [b'|] eqn:Hb'.
    + exists b'. specialize (Ht BB). specialize (Ha BB).
      rewrite Hb, Hb' in Ht, Ha. simpl in *. split_and!; [done|congruence|].
      rewrite mapTermOperands_id by done. congruence.
    + specialize (Ht BB). by rewrite Hb, Hb' in Ht.
  - intros x Hx. exists x. split; [by apply Hi|]. by rewrite mapInst_id.
Qed.

Lemma operandsRenamed_eraseFromParent id F :
  operandsRenamed (λ v, v) F (eraseFromParent id F).
Proof.
  apply operandsRenamed_same.
  - apply length_eraseFromParent.
  - apply bbTerm_eraseFromParent.
  - apply bbArgs_eraseFromParent.
  - apply fnInsts_eraseFromParent_subset.
Qed.

Lemma operandsRenamed_moveBefore_begin id BB F :
  operandsRenamed (λ v, v) F (moveBefore_begin id BB F).
Proof.
  apply operandsRenamed_same.
  - apply length_fnBlocks_moveBefore_begin.
  - apply bbTerm_moveBefore_begin.
  - apply bbArgs_moveBefore_begin.
  - apply fnInsts_moveBefore_begin_subset.
Qed.

Lemma operandsRenamed_replaceAllUsesWith old new F :
  operandsRenamed (substValue old new) F (replaceAllUsesWith old new F).
Proof.
  split_and!; [apply length_fnBlocks_replaceAllUsesWith| |].
  - intros BB b Hb. exists (mapBBOperands (substValue old new) b).
    unfold replaceAllUsesWith. simpl. by rewrite list_lookup_fmap, Hb.
  - intros x'. rewrite fnInsts_replaceAllUsesWith.
    intros (x & -> & Hx)%list_elem_of_fmap. eauto.
Qed.

Lemma operandsRenamed_id_trans g F F' F'' :
  operandsRenamed g F F' → operandsRenamed (λ v, v) F' F'' →
  operandsRenamed g F F''.
Proof.
  intros H1 H2. eapply operandsRenamed_ext; [|by eapply operandsRenamed_trans].
  done.
Qed.

Lemma operandsRenamed_recursivelyDelete fuel id F :
  operandsRenamed (λ v, v) F (recursivelyDelete fuel id F).
Proof.
  revert id F. induction fuel as [|fuel IH]; intros id F;
    [apply operandsRenamed_refl|].
  simpl. destruct (getInst F id) as [x|]; [|apply operandsRenamed_refl].
  destruct (isInstructionTriviallyDead F x); [|apply operandsRenamed_refl].
  assert (Hfold : ∀ ops F0, operandsRenamed (λ v, v) F F0 →
    operandsRenamed (λ v, v) F
      (foldl (λ F' v, match v with
                      | InstResult d => recursivelyDelete fuel d F'
                      | _ => F'
                      end) F0 ops)).
  { induction ops as [|v ops IHops]; intros F0 HF0; [done|]. simpl.
    apply IHops. destruct v; [|done..].
    eapply operandsRenamed_id_trans; [done|apply IH]. }
  apply Hfold, operandsRenamed_eraseFromParent.
Qed.

Lemma cloneSubst_unchanged FSI Clones v :
  (∀ d, v = InstResult d → d ≠ instId FSI → v ∉ Clones) →
  cloneSubst FSI Clones v = v.
Proof.
  intros Hv. unfold cloneSubst. destruct v as [d| |]; [|done..].
  rewrite decide_False; [done|]. intros [Hd Hin]. by apply (Hv d).
Qed.

Lemma operandsRenamed_deleteClone FSI F S :
  operandsRenamed (cloneSubst FSI [S]) F (deleteClone FSI F S).
Proof.
  unfold deleteClone. destruct S as [d| |].
  - case_decide as Hd.
    + eapply operandsRenamed_ext; [|apply operandsRenamed_refl].
      intros v. symmetry. apply cloneSubst_unchanged.
      intros d' -> Hne Hin. apply list_elem_of_singleton in Hin. congruence.
    + eapply operandsRenamed_ext;
        [|eapply operandsRenamed_id_trans;
           [apply (operandsRenamed_replaceAllUsesWith (InstResult d) Undef)
           |apply operandsRenamed_recursivelyDelete]].
      intros v. unfold substValue. case_decide as Hv.
      * subst v. unfold cloneSubst. rewrite decide_True; [done|].
        split; [done|by left].
      * symmetry. apply cloneSubst_unchanged.
        intros d' -> Hne Hin. by apply list_elem_of_singleton in Hin.
  - eapply operandsRenamed_ext; [|apply operandsRenamed_refl].
    intros v. symmetry. apply cloneSubst_unchanged.
    intros d' -> Hne Hin. by apply list_elem_of_singleton in Hin.
  - eapply operandsRenamed_ext; [|apply operandsRenamed_refl].
    intros v. symmetry. apply cloneSubst_unchanged.
    intros d' -> Hne Hin. by apply list_elem_of_singleton in Hin.
Qed.

Lemma cloneSubst_cons FSI S Clones v :
  cloneSubst FSI Clones (cloneSubst FSI [S] v) = cloneSubst FSI (S :: Clones) v.
Proof.
  unfold cloneSubst. destruct v as [d| |]; [|done..].
  destruct (decide (d ≠ instId FSI ∧ InstResult d ∈ [S])) as [[Hd HS]|Hno].
  - rewrite decide_True; [done|]. split; [done|].
    apply list_elem_of_singleton in HS as <-. by left.
  - destruct (decide (d ≠ instId FSI ∧ InstResult d ∈ Clones)) as [[Hd HC]|Hno'].
    + rewrite decide_True; [done|]. split; [done|by right].
    + rewrite decide_False; [done|]. intros [Hd [Heq|HC]%elem_of_cons].
      * apply Hno. split; [done|]. rewrite Heq. by left.
      * by apply Hno'.
Qed.

Lemma operandsRenamed_deleteClones FSI Clones F :
  operandsRenamed (cloneSubst FSI Clones) F (foldl (deleteClone FSI) F Clones).
Proof.
  revert F. induction Clones as [|S Clones IH]; intros F.
  - eapply operandsRenamed_ext; [|apply operandsRenamed_refl].
    intros v. symmetry. apply cloneSubst_unchanged.
    intros d' -> Hne Hin. by apply elem_of_nil in Hin.
  - simpl. eapply operandsRenamed_ext;
      [|eapply operandsRenamed_trans; [apply operandsRenamed_deleteClone|apply IH]].
    intros v. simpl. apply cloneSubst_cons.
Qed.

(** ** Block-argument sinker *)

Lemma getDef_Some F v x :
  getDef F v = Some x → v = InstResult (instId x) ∧ x ∈ fnInsts F.
Proof.
  destruct v as [d| |]; [|done..]. simpl.
  intros [Hx <-]%getInst_Some. done.
Qed.

(** What the loop over the predecessors has checked when it runs to its
    end. *)
Lemma checkPreds_Some F FirstPred ArgNum FSI Preds acc Clones :
  checkPreds F FirstPred ArgNum FSI Preds acc = Some (Some Clones) →
  (∀ S, S ∈ acc → S ∈ Clones) ∧
  (∀ P, P ∈ Preds → P ≠ FirstPred →
     ∃ pb SI,
       fnBlocks F !! P = Some pb ∧
       (isaBranchInst (bbTerm pb) = true ∨ isaCondBranchInst (bbTerm pb) = true) ∧
       getOperand (bbTerm pb) ArgNum = Some (InstResult (instId SI)) ∧
       InstResult (instId SI) ∈ Clones ∧
       SI ∈ fnInsts F ∧
       hasOneUse F (InstResult (instId SI)) = true ∧
       isIdenticalTo SI FSI = true).
Proof.
  revert acc. induction Preds as [|P Preds IH]; intros acc; simpl.
  { intros [= <-]. split; [done|]. by intros P ?%elem_of_nil. }
  case_decide as HP.
  - intros [Hacc Hpreds]%IH. split; [done|].
    intros P' [->|HP']%elem_of_cons Hne; [done|by apply Hpreds].
  - destruct (fnBlocks F !! P) as [pb|] eqn:Hpb; [|done]. simpl.
    destruct (negb (isaBranchInst (bbTerm pb)) && negb (isaCondBranchInst (bbTerm pb)))
      eqn:Hbr; [done|].
    destruct (getOperand (bbTerm pb) ArgNum) as [Arg|] eqn:HArg; [|done]. simpl.
    destruct (getDef F Arg) as [SI|] eqn:HSI; [|done].
    destruct (hasOneUse F (InstResult (instId SI)) && isIdenticalTo SI FSI)
      eqn:Hok; [|done].
    apply andb_true_iff in Hok as [Hone Hident].
    apply getDef_Some in HSI as [-> HSI].
    intros [Hacc Hpreds]%IH. split.
    + intros S HS. apply Hacc, elem_of_app. by left.
    + intros P' [->|HP']%elem_of_cons Hne; [|by apply Hpreds].
      exists pb, SI. split_and!; try done.
      * apply andb_false_iff in Hbr as [Hbr|Hbr]; apply negb_false_iff in Hbr; auto.
      * apply Hacc, elem_of_app. right. by left.
Qed.

Lemma sinkArgument_true_inv BB ArgNum st st' :
  sinkArgument BB ArgNum st = Some (st', true) →
  ∃ b FirstPred fp FSI Clones,
    fnBlocks (stFn st) !! BB = Some b ∧ ArgNum < bbArgs b ∧
    head (getPreds (stFn st) BB) = Some FirstPred ∧
    fnBlocks (stFn st) !! FirstPred = Some fp ∧
    getOperand (bbTerm fp) ArgNum = Some (InstResult (instId FSI)) ∧
    FSI ∈ fnInsts (stFn st) ∧
    hasOneUse (stFn st) (InstResult (instId FSI)) = true ∧
    mayHaveSideEffects (instKind FSI) = false ∧
    checkPreds (stFn st) FirstPred ArgNum FSI (getPreds (stFn st) BB)
      [InstResult (instId FSI)] = Some (Some Clones) ∧
    st' = setFn (foldl (deleteClone FSI)
                   (replaceAllUsesWith (BBArg BB ArgNum) (InstResult (instId FSI))
                      (moveBefore_begin (instId FSI) BB
                         (replaceAllUsesWith (InstResult (instId FSI)) Undef (stFn st))))
                   Clones) st.
Proof.
  unfold sinkArgument. intros H. simplify_option_eq.
  destruct (getDef (stFn st) _) as [FSI|] eqn:HFSI; [|done].
  apply getDef_Some in HFSI as [-> HFSI].
  destruct (hasOneUse _ _) eqn:Hone; simpl in H; [|done].
  destruct (mayHaveSideEffects _) eqn:Hside; [done|].
  destruct (checkPreds _ _ _ _ _ _) as [[Clones|]|] eqn:Hcheck;
    simpl in H; try done.
  injection H as <-. eexists _, _, _, FSI, Clones. by split_and!.
Qed.

Lemma sinkArgumentSubst_spec BB ArgNum FSI Clones v :
  sinkArgumentSubst BB ArgNum FSI Clones v
  = cloneSubst FSI Clones
      (substValue (BBArg BB ArgNum) (InstResult (instId FSI))
         (substValue (InstResult (instId FSI)) Undef v)).
Proof.
  unfold sinkArgumentSubst, substValue.
  destruct (decide (v = BBArg BB ArgNum)) as [->|Harg].
  - rewrite (decide_False (P := BBArg BB ArgNum = InstResult (instId FSI))) by done.
    rewrite decide_True by done.
    unfold cloneSubst. rewrite decide_False; [done|]. by intros [? _].
  - destruct (decide (v = InstResult (instId FSI))) as [->|Hfsi].
    + by rewrite decide_False.
    + by rewrite decide_False.
Qed.

(** The function after the mutations of [sinkArgument]. *)
Lemma sinkArgument_renamed BB ArgNum FSI Clones F :
  operandsRenamed (sinkArgumentSubst BB ArgNum FSI Clones) F
    (foldl (deleteClone FSI)
       (replaceAllUsesWith (BBArg BB ArgNum) (InstResult (instId FSI))
          (moveBefore_begin (instId FSI) BB
             (replaceAllUsesWith (InstResult (instId FSI)) Undef F)))
       Clones).
Proof.
  eapply operandsRenamed_ext; [intros v; symmetry; apply sinkArgumentSubst_spec|].
  eapply (operandsRenamed_trans _ (cloneSubst FSI Clones));
    [|apply operandsRenamed_deleteClones].
  eapply (operandsRenamed_trans _ (substValue _ _));
    [|apply operandsRenamed_replaceAllUsesWith].
  eapply operandsRenamed_id_trans;
    [apply operandsRenamed_replaceAllUsesWith|apply operandsRenamed_moveBefore_begin].
Qed.

Lemma sinkArgumentSubst_clone BB ArgNum FSI Clones d :
  InstResult d ∈ Clones →
  sinkArgumentSubst BB ArgNum FSI Clones (InstResult d) = Undef.
Proof.
  intros Hd. unfold sinkArgumentSubst. rewrite decide_False by done.
  case_decide as Heq; [done|]. unfold cloneSubst. rewrite decide_True; [done|].
  split; [congruence|done].
Qed.

Lemma sinkArgumentSubst_Undef BB ArgNum FSI Clones :
  sinkArgumentSubst BB ArgNum FSI Clones Undef = Undef.
Proof. unfold sinkArgumentSubst. by rewrite !decide_False. Qed.

Lemma termOperands_map g t :
  termOperands (mapTermOperands g t) = g <$> termOperands t.
Proof. destruct t; simpl; rewrite ?fmap_app; done. Qed.


Lemma getOperand_map g t n :
  getOperand (mapTermOperands g t) n = g <$> getOperand t n.
Proof. unfold getOperand. by rewrite termOperands_map, list_lookup_fmap. Qed.

(** *** The sunk instruction stands at the start of the block *)











(** *** The instructions that stay *)

Section Kept.
Context (Gone : nat → Prop).

Lemma instsKept_refl F : instsKept (λ v, v) Gone F F.
Proof. intros j b x Hb Hx _. exists b. by rewrite mapInst_id. Qed.

Lemma instsKept_ext g g' F F' :
  (∀ v, g v = g' v) → instsKept g Gone F F' → instsKept g' Gone F F'.
Proof.
  intros Hext H j b x Hb Hx Hg. destruct (H j b x Hb Hx Hg) as (b' & Hb' & Hin).
  exists b'. split; [done|]. unfold mapInst in *.
  by rewrite <- (mapInstOperands_ext g g').
Qed.

Lemma instsKept_trans g h F F' F'' :
  instsKept g Gone F F' → instsKept h Gone F' F'' → instsKept (h ∘ g) Gone F F''.
Proof.
  intros H1 H2 j b x Hb Hx Hg.
  destruct (H1 j b x Hb Hx Hg) as (b' & Hb' & Hin').
  destruct (H2 j b' _ Hb' Hin' Hg) as (b'' & Hb'' & Hin'').
  exists b''. split; [done|]. unfold mapInst in *. simpl in Hin''.
  by rewrite mapInstOperands_compose in Hin''.
Qed.

Lemma instsKept_id_trans g F F' F'' :
  instsKept g Gone F F' → instsKept (λ v, v) Gone F' F'' → instsKept g Gone F F''.
Proof.
  intros H1 H2. eapply instsKept_ext; [|by eapply instsKept_trans]. done.
Qed.


Lemma instsKept_updBlockInsts f BB F :
  (∀ l x, x ∈ l → ¬ Gone (instId x) → x ∈ f l) →
  instsKept (λ v, v) Gone F (updBlockInsts f BB F).
Proof.
  intros Hf j b x Hb Hx Hg. rewrite lookup_updBlockInsts, mapInst_id.
  case_decide; [|by eauto]. rewrite Hb. simpl. eexists. split; [done|].
  simpl. by apply Hf.
Qed.

Lemma instsKept_eraseFromParent d F :
  Gone d → instsKept (λ v, v) Gone F (eraseFromParent d F).
Proof.
  intros Hd. unfold eraseFromParent.
  destruct (getParent F d); [|apply instsKept_refl].
  apply instsKept_updBlockInsts. intros l x Hx Hg.
  apply elem_of_removeInst_ne; [done|]. intros Heq. apply Hg. by rewrite Heq.
Qed.




End Kept.



(** *** Uses *)






(** ** Sinkers that report no change *)

Lemma sinkArgument_unchanged BB ArgNum st st' :
  sinkArgument BB ArgNum st = Some (st', false) → st' = st.
Proof.
  unfold sinkArgument. intros H. simplify_option_eq.
  repeat (case_match; simplify_option_eq; try done).
Qed.

Lemma sinkArguments_unchanged BB ArgNums st Changed st' :
  sinkArguments BB ArgNums st Changed = Some (st', false) →
  st' = st ∧ Changed = false.
Proof.
  revert st Changed. induction ArgNums as [|i ArgNums IH]; intros st Changed; simpl.
  { by intros [= -> ->]. }
  destruct (sinkArgument BB i st) as [[st1 c]|] eqn:Harg; [|done]. simpl.
  intros [-> [-> ->]%orb_false_elim]%IH.
  by apply sinkArgument_unchanged in Harg as ->.
Qed.

Lemma sinkArgumentsFromPredecessors_unchanged BB st st' :
  sinkArgumentsFromPredecessors BB st = Some (st', false) → st' = st.
Proof.
  unfold sinkArgumentsFromPredecessors. intros H.
  repeat (case_match; simplify_option_eq; try done).
  by apply sinkArguments_unchanged in H as [-> _].
Qed.

Section Driver.
Context (AA : AliasAnalysis).

Lemma runOnBlock_unchanged BB st Changed st' :
  runOnBlock AA BB st Changed = Some (st', false) → st' = st ∧ Changed = false.
Proof.
  unfold runOnBlock.
  destruct (sinkCodeFromPredecessors BB st) as [st1 c1] eqn:H1. simpl.
  destruct (sinkArgumentsFromPredecessors BB st1) as [[st2 c2]|] eqn:H2; [|done].
  simpl. destruct (sinkRetainToSuccessors AA BB st2) as [st3 c3] eqn:H3. simpl.
  intros [= -> Hc]. repeat apply orb_false_elim in Hc as [Hc ?]. subst.
  pose proof (sinkRetainToSuccessors_unchanged AA BB st2) as H3'.
  rewrite H3 in H3'. specialize (H3' eq_refl). injection H3' as ->.
  apply sinkArgumentsFromPredecessors_unchanged in H2 as ->.
  pose proof (sinkCodeFromPredecessors_unchanged BB st) as H1'.
  rewrite H1 in H1'. specialize (H1' eq_refl). by injection H1' as ->.
Qed.

Lemma runOnBlocks_unchanged BBs st Changed st' :
  runOnBlocks AA BBs st Changed = Some (st', false) → st' = st ∧ Changed = false.
Proof.
  revert st Changed. induction BBs as [|BB BBs IH]; intros st Changed; simpl.
  { by intros [= -> ->]. }
  destruct (runOnBlock AA BB st Changed) as [[st1 c1]|] eqn:Hblock; [|done].
  simpl. intros [-> ->]%IH. by apply runOnBlock_unchanged in Hblock.
Qed.

Lemma run_unchanged st st' : run AA st = Some (st', false) → st' = st.
Proof.
  unfold run. destruct (runOnBlocks _ _ _ _) as [[st1 c]|] eqn:Hrun; [|done].
  intros [= <- ->]. by apply runOnBlocks_unchanged in Hrun as [-> _].
Qed.

Lemma runOnBlocks_nothingToSink BBs st :
  forallb (λ BB,
             negb (sinkCodeFromPredecessors BB st).2 &&
             match sinkArgumentsFromPredecessors BB st with
             | Some r => negb r.2
             | None => false
             end &&
             negb (sinkRetainToSuccessors AA BB st).2) BBs = true →
  runOnBlocks AA BBs st false = Some (st, false).
Proof.
  induction BBs as [|BB BBs IH]; [done|]. simpl.
  intros [[[H1 H2]%andb_true_iff H3]%andb_true_iff Hrest]%andb_true_iff.
  apply negb_true_iff in H1, H3.
  apply sinkCodeFromPredecessors_unchanged in H1.
  apply sinkRetainToSuccessors_unchanged in H3.
  unfold runOnBlock. rewrite H1. simpl.
  destruct (sinkArgumentsFromPredecessors BB st) as [[st2 c2]|] eqn:Hargs; [|done].
  simpl in H2. apply negb_true_iff in H2. subst c2.
  apply sinkArgumentsFromPredecessors_unchanged in Hargs as ->. simpl.
  rewrite H3. simpl. by apply IH.
Qed.

(** C7: on a function in which no sinker finds anything to sink, a run of
    the pass reports no change and leaves the state, and so the IR, exactly
    as it was; and whenever a run reports no change it has left the state as
    it was, so running the pass again gives the same result. *)
Theorem pass_idempotent (st : PassState) :
  (nothingToSink AA st = true → run AA st = Some (st, false)) ∧
  (∀ st', run AA st = Some (st', false) →
          st' = st ∧ run AA st' = Some (st', false)).
Proof.
  split.
  - intros Hq. unfold run. by rewrite runOnBlocks_nothingToSink.
  - intros st' Hrun. pose proof (run_unchanged _ _ Hrun) as ->. done.
Qed.

End Driver.

(** ** Sinkers that report a change have changed the function *)

Lemma sinkScan_numInsts fuel BB FirstPred SkipBudget cur st Changed :
  is_Some (fnBlocks (stFn st) !! BB) →
  cur `suffix_of` blockNodesBackward (stFn st) FirstPred →
  ∃ st' Changed',
    sinkScan fuel BB FirstPred SkipBudget cur st Changed = (st', Changed') ∧
    length (fnBlocks (stFn st')) = length (fnBlocks (stFn st)) ∧
    numInsts (stFn st') ≤ numInsts (stFn st) ∧
    (Changed' = true → Changed = true ∨ numInsts (stFn st') < numInsts (stFn st)).
Proof.
  revert SkipBudget cur st Changed.
  induction fuel as [|fuel IH]; intros SkipBudget cur st Changed HBB Hsuf.
  { exists st, Changed. split_and!; [done|done|lia|auto]. }
  destruct SkipBudget as [|budget];
    [exists st, Changed; split_and!; [done|done|lia|auto]|].
  destruct cur as [|x before];
    [exists st, Changed; split_and!; [done|done|lia|auto]|].
  rewrite sinkScan_unfold.
  destruct (scanStep BB FirstPred x before st) as [st1| |] eqn:Hstep.
  - assert (numInsts (stFn st1) < numInsts (stFn st)) as Hlt.
    { eapply scanStep_Sunk_numInsts; [done| |done].
      destruct Hsuf as [k ->]. rewrite elem_of_app. right; by left. }
    assert (length (fnBlocks (stFn st1)) = length (fnBlocks (stFn st))) as Hlen.
    { apply scanStep_Sunk_inv in Hstep as (i & D & Dups & _ & _ & _ & ->).
      apply length_fnBlocks_sinkDups. }
    destruct (IH (S budget) (blockNodesBackward (stFn st1) FirstPred) st1 true)
      as (st' & Changed' & -> & Hl & Hle & _); [|done|].
    { apply lookup_lt_is_Some. rewrite Hlen. by apply lookup_lt_is_Some. }
    exists st', Changed'. split_and!; [done|congruence|lia|intros _; right; lia].
  - exists st, Changed. split_and!; [done|done|lia|auto].
  - apply IH; [done|by eapply suffix_cons_l].
Qed.

Lemma sinkCodeFromPredecessors_changed BB st :
  is_Some (fnBlocks (stFn st) !! BB) →
  let r := sinkCodeFromPredecessors BB st in
  length (fnBlocks (stFn r.1)) = length (fnBlocks (stFn st)) ∧
  (r.2 = true → stFn r.1 ≠ stFn st).
Proof.
  intros HBB. unfold sinkCodeFromPredecessors.
  destruct (getPreds (stFn st) BB) as [|FirstPred Preds]; [done|].
  destruct (negb (allPredsHaveSingleSuccessor (stFn st) BB)); [done|].
  destruct (fnBlocks (stFn st) !! FirstPred) as [fp|] eqn:Hfp; [|done].
  destruct (bbInsts fp) as [|i insts] eqn:Hinsts; [done|]. simpl.
  destruct (sinkScan_numInsts (scanFuel (stFn st)) BB FirstPred SinkSearchWindow
              (nodesBackward fp) st false HBB) as (st' & c & -> & Hlen & _ & Hch).
  { unfold blockNodesBackward. by rewrite Hfp. }
  simpl. split; [done|]. intros Htrue Heq. destruct (Hch Htrue) as [?|Hlt]; [done|].
  rewrite Heq in Hlt. lia.
Qed.

Lemma length_fnBlocks_createInst Builder k F :
  length (fnBlocks (createInst Builder k F).2) = length (fnBlocks F).
Proof. rewrite createInst_fn. simpl. apply length_alter. Qed.

Lemma fnNextId_eraseFromParent id F :
  fnNextId (eraseFromParent id F) = fnNextId F.
Proof. unfold eraseFromParent. by destruct (getParent F id). Qed.

Lemma createRefCountOp_facts Builder Inst e F :
  let F' := createRefCountOpForPayload Builder Inst e F in
  length (fnBlocks F') = length (fnBlocks F) ∧
  fnNextId F ≤ fnNextId F' ∧
  (fnNextId F' = fnNextId F → F' = F).
Proof.
  unfold createRefCountOpForPayload. destruct (hasArgumentType e); cbn [negb];
    [|split_and!; [done|lia|done]].
  destruct (createInst Builder _ F) as [[u b1] f1] eqn:H1.
  assert (f1 = (createInst Builder
                  (UncheckedEnumDataInst (getOperand0 Inst) e) F).2) as ->
    by (by rewrite H1).
  destruct (isaRetainValueInst Inst); simpl;
    rewrite !length_alter; split_and!; try done; lia.
Qed.

Lemma sinkAcrossCases_facts Inst Cases F :
  let F' := sinkAcrossCases Inst Cases F in
  length (fnBlocks F') = length (fnBlocks F) ∧
  fnNextId F ≤ fnNextId F' ∧
  (fnNextId F' = fnNextId F → F' = F).
Proof.
  revert F. induction Cases as [|c Cases IH]; intros F; [split_and!; done|].
  rewrite sinkAcrossCases_cons.
  destruct (createRefCountOp_facts (setInsertionPoint_begin c.2) Inst c.1 F)
    as (Hl1 & Hn1 & He1).
  destruct (IH (createRefCountOpForPayload (setInsertionPoint_begin c.2) Inst c.1 F))
    as (Hl2 & Hn2 & He2).
  simpl in *. split_and!; [congruence|lia|].
  intros Heq. rewrite He2 by lia. apply He1. lia.
Qed.

Lemma sinkToSuccessors_facts Ptr Succs F :
  let F' := sinkToSuccessors Ptr Succs F in
  length (fnBlocks F') = length (fnBlocks F) ∧
  fnNextId F ≤ fnNextId F' ∧
  (fnNextId F' = fnNextId F → F' = F).
Proof.
  revert F. induction Succs as [|s Succs IH]; intros F; [split_and!; done|].
  rewrite sinkToSuccessors_cons.
  destruct (IH (createInst (setInsertionPoint_begin s) (StrongRetainInst Ptr) F).2)
    as (Hl & Hn & _).
  rewrite length_fnBlocks_createInst in Hl. rewrite fnNextId_createInst in Hn.
  simpl in *. split_and!; [done|lia|lia].
Qed.

Section RefCountChanged.
Context (AA : AliasAnalysis).

(** A sunk reference-count instruction was erased, after new instructions
    were created or not. *)
Lemma tryToSinkRefCountInst_true BB T Inst st st' :
  tryToSinkRefCountInst AA BB T Inst st = (st', true) →
  length (fnBlocks (stFn st')) = length (fnBlocks (stFn st)) ∧
  (fnNextId (stFn st) < fnNextId (stFn st') ∨
   stFn st' = eraseFromParent (instId Inst) (stFn st)).
Proof.
  assert (Hgen : ∀ F1,
    length (fnBlocks F1) = length (fnBlocks (stFn st)) ∧
    fnNextId (stFn st) ≤ fnNextId F1 ∧
    (fnNextId F1 = fnNextId (stFn st) → F1 = stFn st) →
    length (fnBlocks (eraseFromParent (instId Inst) F1)) = length (fnBlocks (stFn st)) ∧
    (fnNextId (stFn st) < fnNextId (eraseFromParent (instId Inst) F1) ∨
     eraseFromParent (instId Inst) F1 = eraseFromParent (instId Inst) (stFn st))).
  { intros F1 (Hl & Hn & He). rewrite length_eraseFromParent, fnNextId_eraseFromParent.
    split; [done|]. destruct (decide (fnNextId F1 = fnNextId (stFn st))) as [Heq|Hne].
    - right. by rewrite He.
    - left. lia. }
  unfold tryToSinkRefCountInst, tryToSinkRefCountAcrossSwitch.
  intros Htry. repeat (case_match; simplify_eq; try done); simpl;
    first [apply Hgen, sinkAcrossCases_facts | apply Hgen, sinkToSuccessors_facts].
Qed.

Lemma tryToSinkRefCountInst_measure BB T Inst st :
  let r := tryToSinkRefCountInst AA BB T Inst st in
  length (fnBlocks (stFn r.1)) = length (fnBlocks (stFn st)) ∧
  fnNextId (stFn st) ≤ fnNextId (stFn r.1) ∧
  (fnNextId (stFn r.1) = fnNextId (stFn st) →
   numInsts (stFn r.1) ≤ numInsts (stFn st)).
Proof.
  destruct (tryToSinkRefCountInst AA BB T Inst st) as [st' c] eqn:Htry. simpl.
  destruct c.
  - apply tryToSinkRefCountInst_true in Htry as [Hl [Hlt|Heq]].
    + split_and!; [done|lia|lia].
    + rewrite Heq in Hl |- *. rewrite fnNextId_eraseFromParent.
      split_and!; [done|lia|]. intros _. apply numInsts_eraseFromParent_le.
  - pose proof (tryToSinkRefCountInst_unchanged AA BB T Inst st) as Hun.
    rewrite Htry in Hun. specialize (Hun eq_refl). injection Hun as ->.
    split_and!; [done|lia|lia].
Qed.

Lemma tryCandidates_measure BB T Cands st :
  let r := tryCandidates AA BB T Cands st in
  length (fnBlocks (stFn r.1)) = length (fnBlocks (stFn st)) ∧
  fnNextId (stFn st) ≤ fnNextId (stFn r.1) ∧
  (fnNextId (stFn r.1) = fnNextId (stFn st) →
   numInsts (stFn r.1) ≤ numInsts (stFn st)).
Proof.
  revert st. induction Cands as [|Inst Cands IH]; intros st.
  { simpl. split_and!; [done|lia|lia]. }
  rewrite tryCandidates_cons. simpl.
  destruct (tryToSinkRefCountInst_measure BB T Inst st) as (Hl1 & Hn1 & Hi1).
  destruct (IH (tryToSinkRefCountInst AA BB T Inst st).1) as (Hl2 & Hn2 & Hi2).
  simpl in *. split_and!; [congruence|lia|].
  intros Heq. etrans; [apply Hi2; lia|apply Hi1; lia].
Qed.

Lemma tryCandidates_changed BB T Cands st :
  (∀ Inst, Inst ∈ Cands → instId Inst ∈ fnInstIds (stFn st)) →
  (tryCandidates AA BB T Cands st).2 = true →
  stFn (tryCandidates AA BB T Cands st).1 ≠ stFn st.
Proof.
  revert st. induction Cands as [|Inst Cands IH]; intros st Hin.
  { unfold tryCandidates. simpl. done. }
  rewrite tryCandidates_cons. simpl.
  destruct (tryToSinkRefCountInst AA BB T Inst st) as [st1 c] eqn:Htry. simpl.
  destruct c; simpl.
  - intros _ Heq.
    destruct (tryCandidates_measure BB T Cands st1) as (_ & Hn & Hi).
    simpl in *. rewrite Heq in Hn, Hi.
    apply tryToSinkRefCountInst_true in Htry as [_ [Hlt|Hst1]]; [lia|].
    assert (fnNextId (stFn st1) = fnNextId (stFn st)) as Hnext
      by (by rewrite Hst1, fnNextId_eraseFromParent).
    specialize (Hi (eq_sym Hnext)).
    pose proof (numInsts_eraseFromParent (instId Inst) (stFn st)
                  (Hin Inst (list_elem_of_here _ _))) as Hlt.
    rewrite <- Hst1 in Hlt. lia.
  - pose proof (tryToSinkRefCountInst_unchanged AA BB T Inst st) as Hun.
    rewrite Htry in Hun. specialize (Hun eq_refl). injection Hun as ->.
    apply IH. intros; apply Hin; by right.
Qed.

Lemma sinkRetainToSuccessors_changed BB st :
  let r := sinkRetainToSuccessors AA BB st in
  length (fnBlocks (stFn r.1)) = length (fnBlocks (stFn st)) ∧
  (r.2 = true → stFn r.1 ≠ stFn st).
Proof.
  unfold sinkRetainToSuccessors.
  destruct (fnBlocks (stFn st) !! BB) as [b|] eqn:Hb; [|done].
  destruct (negb (allSuccsHaveSinglePredecessor (stFn st) BB)); [done|].
  destruct (bbInsts b) as [|i insts] eqn:Hinsts; [done|]. simpl. split.
  - apply tryCandidates_measure.
  - apply tryCandidates_changed. intros Inst HInst.
    apply (proj1 (elem_of_reverse _ _)) in HInst.
    apply elem_of_fnInstIds, elem_of_fnInsts. exists BB, b. by rewrite Hinsts.
Qed.

End RefCountChanged.

(** ** Block-argument sinker: a reported change is a change *)

Lemma sinkArgument_facts BB ArgNum st st' c :
  sinkArgument BB ArgNum st = Some (st', c) →
  stInvalidated st' = stInvalidated st ∧
  ∃ g, g Undef = Undef ∧ operandsRenamed g (stFn st) (stFn st') ∧
       (c = true → ∃ P pb v, fnBlocks (stFn st) !! P = Some pb ∧
                    getOperand (bbTerm pb) ArgNum = Some v ∧
                    v ≠ Undef ∧ g v = Undef).
Proof.
  destruct c.
  - intros (b & FirstPred & fp & FSI & Clones & Hb & Harg & Hfirst & Hfp & Hop
            & HFSI & Hone & Hside & Hcheck & ->)%sinkArgument_true_inv.
    split; [done|]. exists (sinkArgumentSubst BB ArgNum FSI Clones). split_and!.
    + apply sinkArgumentSubst_Undef.
    + apply sinkArgument_renamed.
    + intros _. exists FirstPred, fp, (InstResult (instId FSI)).
      split_and!; [done..|]. apply sinkArgumentSubst_clone.
      apply checkPreds_Some in Hcheck as [Hacc _]. apply Hacc. by left.
  - intros ->%sinkArgument_unchanged. split; [done|]. exists (λ v, v).
    split_and!; [done|apply operandsRenamed_refl|done].
Qed.

Lemma sinkArguments_facts BB ArgNums st Changed st' Changed' :
  sinkArguments BB ArgNums st Changed = Some (st', Changed') →
  stInvalidated st' = stInvalidated st ∧
  ∃ g, g Undef = Undef ∧ operandsRenamed g (stFn st) (stFn st') ∧
       (Changed' = true → Changed = true ∨ stFn st' ≠ stFn st).
Proof.
  revert st Changed. induction ArgNums as [|i ArgNums IH]; intros st Changed; simpl.
  { intros [= -> ->]. split; [done|]. exists (λ v, v).
    split_and!; [done|apply operandsRenamed_refl|auto]. }
  destruct (sinkArgument BB i st) as [[st1 c]|] eqn:Harg; [|done]. simpl.
  intros (Hinv2 & g2 & Hg2 & Hren2 & Hch2)%IH.
  pose proof (sinkArgument_facts _ _ _ _ _ Harg) as (Hinv1 & g1 & Hg1 & Hren1 & Hch1).
  split; [congruence|]. exists (g2 ∘ g1). split_and!.
  - simpl. by rewrite Hg1.
  - by eapply operandsRenamed_trans.
  - intros Htrue. destruct c.
    + right. destruct (Hch1 eq_refl) as (P & pb & v & Hpb & Hv & Hne & Hgv).
      intros Heq.
      destruct (proj1 (proj2 (operandsRenamed_trans _ _ _ _ _ Hren1 Hren2)) P pb Hpb)
        as (pb' & Hpb' & _ & Ht).
      rewrite Heq, Hpb in Hpb'. injection Hpb' as <-.
      pose proof (getOperand_map (g2 ∘ g1) (bbTerm pb) i) as Hop.
      rewrite <- Ht, Hv in Hop. simpl in Hop. rewrite Hgv, Hg2 in Hop. congruence.
    + apply sinkArgument_unchanged in Harg as ->.
      destruct (Hch2 Htrue) as [Hc|Hne]; [left; by rewrite orb_false_r in Hc|by right].
Qed.

Lemma sinkArgumentsFromPredecessors_facts BB st st' c :
  sinkArgumentsFromPredecessors BB st = Some (st', c) →
  stInvalidated st' = stInvalidated st ∧
  length (fnBlocks (stFn st')) = length (fnBlocks (stFn st)) ∧
  (c = true → stFn st' ≠ stFn st).
Proof.
  unfold sinkArgumentsFromPredecessors. intros H.
  repeat (case_match; simplify_option_eq; try done).
  apply sinkArguments_facts in H as (Hinv & g & _ & Hren & Hch).
  split_and!; [done|apply Hren|]. intros Htrue. by destruct (Hch Htrue).
Qed.

(** ** The invalidation flag is only set by the driver *)

Lemma stInvalidated_eraseDups c Dups st :
  stInvalidated (eraseDups c Dups st) = stInvalidated st.
Proof.
  revert st. induction Dups as [|D Dups IH]; intros st; [done|].
  simpl. by rewrite IH.
Qed.

Lemma stInvalidated_sinkScan fuel BB FirstPred SkipBudget cur st Changed :
  stInvalidated (sinkScan fuel BB FirstPred SkipBudget cur st Changed).1
  = stInvalidated st.
Proof.
  revert SkipBudget cur st Changed.
  induction fuel as [|fuel IH]; intros SkipBudget cur st Changed; [done|].
  destruct SkipBudget as [|budget]; [done|]. destruct cur as [|x before]; [done|].
  rewrite sinkScan_unfold.
  destruct (scanStep BB FirstPred x before st) as [st1| |] eqn:Hstep; [|done|apply IH].
  rewrite IH. apply scanStep_Sunk_inv in Hstep as (i & D & Dups & _ & _ & _ & ->).
  unfold sinkDups. by rewrite stInvalidated_eraseDups.
Qed.

Lemma stInvalidated_sinkCodeFromPredecessors BB st :
  stInvalidated (sinkCodeFromPredecessors BB st).1 = stInvalidated st.
Proof.
  unfold sinkCodeFromPredecessors. repeat (case_match; try done).
  apply stInvalidated_sinkScan.
Qed.

Lemma stInvalidated_tryToSinkRefCountInst AA BB T Inst st :
  stInvalidated (tryToSinkRefCountInst AA BB T Inst st).1 = stInvalidated st.
Proof.
  unfold tryToSinkRefCountInst, tryToSinkRefCountAcrossSwitch.
  repeat (case_match; try done).
Qed.

Lemma stInvalidated_tryCandidates AA BB T Cands st :
  stInvalidated (tryCandidates AA BB T Cands st).1 = stInvalidated st.
Proof.
  revert st. induction Cands as [|Inst Cands IH]; intros st; [done|].
  rewrite tryCandidates_cons. simpl.
  by rewrite IH, stInvalidated_tryToSinkRefCountInst.
Qed.

Lemma stInvalidated_sinkRetainToSuccessors AA BB st :
  stInvalidated (sinkRetainToSuccessors AA BB st).1 = stInvalidated st.
Proof.
  unfold sinkRetainToSuccessors. repeat (case_match; try done).
  apply stInvalidated_tryCandidates.
Qed.

Section Sweep.
Context (AA : AliasAnalysis).

(** What a sinker reports is what it did: it reports a change exactly when
    the function after the call differs from the function before. *)
Lemma applySinker_facts s BB st st' c :
  is_Some (fnBlocks (stFn st) !! BB) →
  applySinker AA s BB st = Some (st', c) →
  stInvalidated st' = stInvalidated st ∧
  length (fnBlocks (stFn st')) = length (fnBlocks (stFn st)) ∧
  (c = true ↔ stFn st' ≠ stFn st).
Proof.
  intros HBB Happly.
  assert (Hfalse : c = false → st' = st).
  { intros ->. destruct s; simpl in Happly.
    - pose proof (sinkCodeFromPredecessors_unchanged BB st) as H.
      injection Happly as Happly. rewrite Happly in H. by injection (H eq_refl).
    - by eapply sinkArgumentsFromPredecessors_unchanged.
    - pose proof (sinkRetainToSuccessors_unchanged AA BB st) as H.
      injection Happly as Happly. rewrite Happly in H. by injection (H eq_refl). }
  assert (Hmain : stInvalidated st' = stInvalidated st ∧
            length (fnBlocks (stFn st')) = length (fnBlocks (stFn st)) ∧
            (c = true → stFn st' ≠ stFn st)).
  { destruct s; simpl in Happly.
    - injection Happly as Happly.
      pose proof (stInvalidated_sinkCodeFromPredecessors BB st) as Hinv.
      destruct (sinkCodeFromPredecessors_changed BB st HBB) as [Hl Hc].
      rewrite Happly in Hinv, Hl, Hc. done.
    - by eapply sinkArgumentsFromPredecessors_facts.
    - injection Happly as Happly.
      pose proof (stInvalidated_sinkRetainToSuccessors AA BB st) as Hinv.
      destruct (sinkRetainToSuccessors_changed AA BB st) as [Hl Hc].
      rewrite Happly in Hinv, Hl, Hc. done. }
  destruct Hmain as (Hinv & Hl & Hc). split_and!; [done..|].
  split; [done|]. intros Hne. destruct c; [done|]. by rewrite Hfalse in Hne.
Qed.

Lemma sweepCalls_app sched1 sched2 st :
  sweepCalls AA (sched1 ++ sched2) st
  = '(calls1, st1) ← sweepCalls AA sched1 st;
    '(calls2, st2) ← sweepCalls AA sched2 st1;
    Some (calls1 ++ calls2, st2).
Proof.
  revert st. induction sched1 as [|[BB s] sched1 IH]; intros st; simpl.
  { destruct (sweepCalls AA sched2 st) as [[calls2 st2]|]; done. }
  destruct (applySinker AA s BB st) as [[st1 c]|]; [|done]. simpl.
  rewrite IH. destruct (sweepCalls AA sched1 st1) as [[calls1 st1']|]; [|done].
  simpl. destruct (sweepCalls AA sched2 st1') as [[calls2 st2]|]; done.
Qed.

(** The loop body of the driver is the three sinker calls on the block. *)
Lemma runOnBlock_sweep BB st Changed st' Changed' :
  runOnBlock AA BB st Changed = Some (st', Changed') →
  ∃ calls, sweepCalls AA (sinkersOfBlock BB) st = Some (calls, st') ∧
           Changed' = Changed || existsb callChanged calls.
Proof.
  unfold runOnBlock, sinkersOfBlock. simpl.
  destruct (sinkCodeFromPredecessors BB st) as [st1 c1]. simpl.
  destruct (sinkArgumentsFromPredecessors BB st1) as [[st2 c2]|]; [|done]. simpl.
  destruct (sinkRetainToSuccessors AA BB st2) as [st3 c3]. simpl.
  intros [= <- <-]. eexists. split; [done|]. simpl.
  by rewrite orb_false_r, !orb_assoc.
Qed.

Lemma runOnBlocks_sweep BBs st Changed st' Changed' :
  runOnBlocks AA BBs st Changed = Some (st', Changed') →
  ∃ calls, sweepCalls AA (BBs ≫= sinkersOfBlock) st = Some (calls, st') ∧
           Changed' = Changed || existsb callChanged calls.
Proof.
  revert st Changed. induction BBs as [|BB BBs IH]; intros st Changed.
  { simpl. intros [= <- <-]. exists []. by rewrite orb_false_r. }
  rewrite bind_cons, sweepCalls_app. cbn [runOnBlocks].
  destruct (runOnBlock AA BB st Changed) as [[st1 c1]|] eqn:Hblock; [|done].
  cbn [mbind option_bind]. intros (calls2 & Hcalls2 & ->)%IH.
  apply runOnBlock_sweep in Hblock as (calls1 & Hcalls1 & ->).
  exists (calls1 ++ calls2). rewrite Hcalls1. cbn [mbind option_bind].
  rewrite Hcalls2. cbn [mbind option_bind].
  split; [done|]. by rewrite existsb_app, orb_assoc.
Qed.

(** The calls follow the schedule, each on a block of the function, and
    each call starts from the state the previous one left. *)
Lemma sweepCalls_facts sched st calls st' :
  Forall (λ e, e.1 < length (fnBlocks (stFn st))) sched →
  sweepCalls AA sched st = Some (calls, st') →
  (λ c, (callBlock c, callSinker c)) <$> calls = sched ∧
  stInvalidated st' = stInvalidated st ∧
  Forall (λ c, callChanged c = true ↔ stFn (callAfter c) ≠ stFn (callBefore c)) calls ∧
  (existsb callChanged calls = false → st' = st).
Proof.
  revert st calls. induction sched as [|[BB s] sched IH]; intros st calls Hvalid; simpl.
  { intros [= <- <-]. split_and!; [done|done|constructor|done]. }
  apply Forall_cons in Hvalid as [HBB Hvalid]. simpl in HBB.
  destruct (applySinker AA s BB st) as [[st1 c]|] eqn:Happly; [|done]. simpl.
  destruct (sweepCalls AA sched st1) as [[calls1 st1']|] eqn:Hrest; [|done]. simpl.
  intros [= <- <-].
  destruct (applySinker_facts s BB st st1 c) as (Hinv & Hl & Hc);
    [by apply lookup_lt_is_Some|done|].
  destruct (IH st1 calls1) as (Hsched & Hinv' & Hall & Hsame); [|done|].
  { eapply Forall_impl; [done|]. intros e He. simpl in *. by rewrite Hl. }
  split_and!.
  - by rewrite fmap_cons, Hsched.
  - congruence.
  - by constructor.
  - simpl. intros [-> Hfalse]%orb_false_elim. rewrite (Hsame Hfalse).
    destruct s; simpl in Happly.
    + pose proof (sinkCodeFromPredecessors_unchanged BB st) as H.
      injection Happly as Happly. rewrite Happly in H. by injection (H eq_refl).
    + by eapply sinkArgumentsFromPredecessors_unchanged.
    + pose proof (sinkRetainToSuccessors_unchanged AA BB st) as H.
      injection Happly as Happly. rewrite Happly in H. by injection (H eq_refl).
Qed.

Lemma sweepSchedule_valid n :
  Forall (λ e : nat * Sinker, e.1 < n) (sweepSchedule n).
Proof.
  unfold sweepSchedule. apply Forall_forall. intros [BB s].
  rewrite list_elem_of_bind. intros (BB' & Hin & HBB'%elem_of_seq).
  unfold sinkersOfBlock in Hin. simpl.
  repeat (apply elem_of_cons in Hin as [[= -> ->]|Hin]; [lia|]).
  by apply elem_of_nil in Hin.
Qed.

Lemma sweepSchedule_NoDup n : NoDup (sweepSchedule n).
Proof.
  unfold sweepSchedule. apply NoDup_bind.
  - intros BB1 BB2 [BB s] _ _ H1 H2. unfold sinkersOfBlock in *.
    repeat (apply elem_of_cons in H1 as [[= -> ->]|H1]);
      repeat (apply elem_of_cons in H2 as [[= <-]|H2]); try done;
      by apply elem_of_nil in H2 || by apply elem_of_nil in H1.
  - intros BB _. unfold sinkersOfBlock.
    repeat (apply NoDup_cons; split;
            [rewrite ?not_elem_of_cons; split_and?; (done || apply not_elem_of_nil)|]).
    apply NoDup_nil_2.
  - apply NoDup_seq.
Qed.

(** C8: a run of the pass is one sweep: the sinker calls it makes are, in
    order, the duplicate-code sinker, the block-argument sinker and the
    reference-count sinker on block 0, then on block 1, and so on, every
    block once.  The result [Changed] is the disjunction of what the calls
    reported, and the invalidation of instruction analyses is signalled
    exactly when some call changed the function. *)
Theorem run_is_one_sweep (st st' : PassState) (Changed : bool) :
  run AA st = Some (st', Changed) →
  ∃ calls stN,
    sweepCalls AA (sweepSchedule (length (fnBlocks (stFn st)))) st
      = Some (calls, stN) ∧
    (λ c, (callBlock c, callSinker c)) <$> calls
      = sweepSchedule (length (fnBlocks (stFn st))) ∧
    NoDup (sweepSchedule (length (fnBlocks (stFn st)))) ∧
    Changed = existsb callChanged calls ∧
    Forall (λ c, callChanged c = true ↔ stFn (callAfter c) ≠ stFn (callBefore c))
           calls ∧
    st' = (if Changed then invalidateAnalysis stN else stN) ∧
    (stInvalidated st = false →
     (stInvalidated st' = true ↔
      ∃ c, c ∈ calls ∧ stFn (callAfter c) ≠ stFn (callBefore c))).
Proof.
  unfold run.
  destruct (runOnBlocks AA _ st false) as [[stN ch]|] eqn:Hrun; [|done].
  intros [= <- <-].
  apply runOnBlocks_sweep in Hrun as (calls & Hcalls & ->). simpl.
  fold (sweepSchedule (length (fnBlocks (stFn st)))) in Hcalls.
  destruct (sweepCalls_facts _ st calls stN (sweepSchedule_valid _) Hcalls)
    as (Hsched & Hinv & Hall & Hsame).
  exists calls, stN. split_and!; [done|done|apply sweepSchedule_NoDup|done|done|done|].
  intros Hinit. split.
  - intros Hsig. destruct (existsb callChanged calls) eqn:Hex.
    + apply existsb_exists in Hex as (c & Hc & Hch). exists c.
      apply list_elem_of_In in Hc. split; [done|].
      by apply (proj1 (Forall_forall _ _) Hall c Hc).
    + congruence.
  - intros (c & Hc & Hne).
    assert (existsb callChanged calls = true) as ->; [|done].
    apply existsb_exists. exists c. split; [by apply list_elem_of_In|].
    by apply (proj1 (Forall_forall _ _) Hall c Hc).
Qed.

End Sweep.

(** ** The theorems on the examples *)

Ltac by_computation :=
  match goal with
  | |- ?P => apply (bool_decide_unpack P); vm_compute; exact I
  end.

Lemma exTwoPreds_wfIds : wfIds (stFn exTwoPreds).
Proof. split; by_computation. Defined.

Lemma exSwitchRetain_wfIds : wfIds (stFn exSwitchRetain).
Proof. split; by_computation. Defined.

(** On [exSwitchRetain], whose [switch_enum] lists every case, the retain
    is sunk into the case with a payload. *)
Lemma switch_enum_retain_sunk_witness :
  ∃ st', tryToSinkRefCountInst exNoAlias 0 (bbTerm exSwitchBlock) exRetainValue
           exSwitchRetain = (st', true) ∧
         NumSunk st' = 1 ∧
         (instId exRetainValue ∉ fnInstIds (stFn st')).
Proof.
  destruct (switch_enum_retain_sunk_into_payload_cases exNoAlias 0 exSwitchBlock
              (BBArg 0 0) [(exSome, 1); (exNone, 2)] None exRetainValue exSwitchRetain)
    as (st' & Htry & Hsunk & Hgone & _).
  - exact exSwitchRetain_wfIds.
  - reflexivity.
  - reflexivity.
  - reflexivity.
  - apply list_elem_of_here.
  - reflexivity.
  - intros II _. reflexivity.
  - exists st'. split; [exact Htry|]. split; [exact Hsunk|exact Hgone].
Defined.

(** C2, the code at the failing input: block 0 of [exSwitchDefault] ends in
    a [switch_enum] with a default arm, both successors have block 0 as
    their only predecessor and nothing follows the [retain_value].  The
    sinker erases the [retain_value] and emits the projection and the
    [retain_value] of the payload in the block of the listed case only: the
    default block, where the other payload case arrives, is as before, so
    the increment is lost on that path.  The loop that emits runs over the
    cases, not over the successors. *)
Theorem default_arm_loses_the_increment :
  getSuccs (stFn exSwitchDefault) 0 = [1; 2] ∧
  allSuccsHaveSinglePredecessor (stFn exSwitchDefault) 0 = true ∧
  sinkRetainToSuccessors exNoAlias 0 exSwitchDefault = (exSwitchDefaultSunk, true) ∧
  run exNoAlias exSwitchDefault = Some (invalidateAnalysis exSwitchDefaultSunk, true) ∧
  bbInsts <$> fnBlocks (stFn exSwitchDefaultSunk) !! 0 = Some [] ∧
  bbInsts <$> fnBlocks (stFn exSwitchDefaultSunk) !! 1
    = Some [mkInst 20 (UncheckedEnumDataInst (BBArg 0 0) exSome);
            mkInst 21 (RetainValueInst (InstResult 20));
            exPure 11] ∧
  bbInsts <$> fnBlocks (stFn exSwitchDefaultSunk) !! 2
    = bbInsts <$> fnBlocks (stFn exSwitchDefault) !! 2 ∧
  NumSunk exSwitchDefaultSunk = 1.
Proof. split_and!; done. Qed.

(** Counterexample to C3 as stated: in [exTwoRetains] the first
    [strong_retain] has an instruction after it that may decrement its
    pointer, yet the sinker changes the block (it sinks the second
    [strong_retain]) and reports a change. *)
Lemma blocked_candidate_does_not_block_the_block :
  exStrongRetain 1 ∈ bbInsts exCondBrBlock ∧
  exStore 2 ∈ instsAfter (instId (exStrongRetain 1)) (bbInsts exCondBrBlock) ∧
  canDecrementRefCount (exStore 2) (getOperand0 (exStrongRetain 1)) exDecrementAt2 = true ∧
  (sinkRetainToSuccessors exDecrementAt2 0 exTwoRetains).2 = true ∧
  (sinkRetainToSuccessors exDecrementAt2 0 exTwoRetains).1 ≠ exTwoRetains.
Proof.
  split_and!; [apply list_elem_of_here|apply list_elem_of_here|done|done|].
  vm_compute. discriminate.
Qed.

(** Witness of C3 (as amended): with the oracle [exDecrementAt2] the first
    [strong_retain] of [exTwoRetains] is not sunk. *)
Lemma refcount_sinker_declines_witness :
  tryToSinkRefCountInst exDecrementAt2 0 (bbTerm exCondBrBlock) (exStrongRetain 1)
    exTwoRetains = (exTwoRetains, false).
Proof.
  destruct (refcount_sinker_declines exDecrementAt2 0 exCondBrBlock exTwoRetains)
    as (_ & Hcand & _).
  - reflexivity.
  - apply (Hcand (exStrongRetain 1) (exStore 2)).
    + apply list_elem_of_here.
    + reflexivity.
Defined.

(** Witness of C9: with the [cond_br] of [exTwoRetains] the instruction
    sunk is a [strong_retain], emitted again at the start of successor 1. *)
Lemma refcount_candidates_witness :
  ∃ Ptr, instKind (exStrongRetain 3) = StrongRetainInst Ptr ∧
         startsWithRetain Ptr (stFn exTwoRetainsSunk) 1 (fnNextId (stFn exTwoRetains)).
Proof.
  destruct (refcount_candidates_by_terminator exNoAlias 0 exCondBrBlock exTwoRetains)
    as [Hsunk _]; [reflexivity|].
  destruct (Hsunk (exStrongRetain 3) exTwoRetainsSunk) as (Ptr & Hkind & Hstart);
    [reflexivity|].
  exists Ptr. split; [exact Hkind|]. apply Hstart.
  - vm_compute. lia.
  - apply list_elem_of_here.
  - by eexists.
Defined.

(** Counterexample to C4 as stated: with three predecessors one sink
    records two sunk events. *)
Lemma sunk_events_count_the_duplicates :
  ∃ st', scanStep 3 0 (NInst (exPure 10)) [] exThreePreds = StepSunk st' ∧
         NumSunk st' = 2 ∧
         NumSunk (sinkCodeFromPredecessors 3 exThreePreds).1 = 2.
Proof. eexists. split_and!; [vm_compute; reflexivity|done|done]. Qed.

(** Witness of C4 (as amended) on [exTwoPreds]. *)
Lemma duplicate_sink_step_witness :
  ∃ st', scanStep 2 0 (NInst (exPure 10)) [] exTwoPreds = StepSunk st' ∧
         NumSunk st' = 1.
Proof.
  destruct (duplicate_sink_step 2 0 (exPure 10) [] exTwoPreds 0 5 false [exPure 11])
    as (st' & Hstep & _ & _ & _ & _ & Hsunk & _).
  - exact exTwoPreds_wfIds.
  - by eexists.
  - vm_compute. apply list_elem_of_further, list_elem_of_here.
  - reflexivity.
  - vm_compute. discriminate.
  - vm_compute. constructor; [reflexivity|constructor].
  - exists st'. split; [exact Hstep|exact Hsunk].
Defined.

(** Counterexample to C6 as stated.  In [exBarrier] the scan meets the
    barrier [exStore 12], which has a match in the other predecessor: the
    scan does not end there but sinks it and restarts, and then sinks
    [exPure 10], which preceded the barrier.  In [exArgsBarrier] the
    duplicate-code sinker stops at the barrier [exStore 12] and sinks
    nothing, and in the same sweep the block-argument sinker moves
    [exPure 10], which precedes the barrier, out of block 0 while the
    barrier stays. *)
Lemma barriers_do_not_stop_every_sink :
  (isSinkBarrier (stFn exBarrier) (NInst (exStore 12)) = true ∧
   bbInsts <$> fnBlocks (stFn exBarrier) !! 0 = Some [exPure 10; exStore 12] ∧
   (∃ st', scanStep 2 0 (NInst (exStore 12)) [NInst (exPure 10)] exBarrier
           = StepSunk st') ∧
   bbInsts <$> fnBlocks (stFn (sinkCodeFromPredecessors 2 exBarrier).1) !! 0
     = Some [] ∧
   bbInsts <$> fnBlocks (stFn (sinkCodeFromPredecessors 2 exBarrier).1) !! 2
     = Some [exPure 10; exStore 12]) ∧
  (isSinkBarrier (stFn exArgsBarrier) (NInst (exStore 12)) = true ∧
   bbInsts <$> fnBlocks (stFn exArgsBarrier) !! 0 = Some [exPure 10; exStore 12] ∧
   sinkCodeFromPredecessors 2 exArgsBarrier = (exArgsBarrier, false) ∧
   sinkArgumentsFromPredecessors 2 exArgsBarrier = Some (exArgsBarrierSunk, true) ∧
   run exNoAlias exArgsBarrier = Some (invalidateAnalysis exArgsBarrierSunk, true) ∧
   bbInsts <$> fnBlocks (stFn exArgsBarrierSunk) !! 0 = Some [exStore 12] ∧
   bbInsts <$> fnBlocks (stFn exArgsBarrierSunk) !! 2
     = Some [exPure 10; mkInst 14 (GenericInst 3 true [InstResult 10])]).
Proof. split; split_and!; first [done|by eexists]. Qed.

Lemma exSkip_reaches :
  rtc (scanNext 2 0)
      (mkConfig SinkSearchWindow (blockNodesBackward (stFn exSkip) 0) exSkip false)
      (mkConfig 4 [NInst (exPure 10)] exSkip false).
Proof.
  eapply rtc_l; [apply (scanNext_prev 2 0 5); reflexivity|].
  eapply rtc_l; [apply (scanNext_prev 2 0 4); reflexivity|].
  apply rtc_refl.
Defined.

Lemma exArgsBarrier_reaches :
  rtc (scanNext 2 0)
      (mkConfig SinkSearchWindow (blockNodesBackward (stFn exArgsBarrier) 0)
         exArgsBarrier false)
      (mkConfig 5 [NInst (exStore 12); NInst (exPure 10)] exArgsBarrier false).
Proof.
  eapply rtc_l; [apply (scanNext_prev 2 0 5); reflexivity|].
  apply rtc_refl.
Defined.

(** Witness of C6 (as amended).  In [exSkip] the scan has passed the
    terminator and an unmatched instruction when it sinks [exPure 10]: none
    of the instructions after the candidate is a barrier.  In
    [exArgsBarrier] the scan has passed the terminator and stands on the
    barrier [exStore 12], which has no match: the scan ends there and
    [exPure 10], which precedes the barrier, is not sunk by it. *)
Lemma no_sink_across_barrier_witness :
  (∃ i, NInst (exPure 10) = NInst i ∧
     (∃ fb pre post,
        fnBlocks (stFn exSkip) !! 0 = Some fb ∧
        bbInsts fb = pre ++ i :: post ∧
        Forall (λ j, isSinkBarrier (stFn exSkip) (NInst j) = false) post) ∧
     (∀ D, D ∈ dupsFor 2 0 (NInst (exPure 10)) exSkip →
        ∃ P b pre post,
          fnBlocks (stFn exSkip) !! P = Some b ∧
          bbInsts b = pre ++ D :: post ∧
          Forall (λ j, isSinkBarrier (stFn exSkip) (NInst j) = false) post)) ∧
  ((∀ c', ¬ scanNext 2 0
             (mkConfig 5 [NInst (exStore 12); NInst (exPure 10)] exArgsBarrier false) c') ∧
   sinkScan 1 2 0 5 [NInst (exStore 12); NInst (exPure 10)] exArgsBarrier false
   = (exArgsBarrier, false)).
Proof.
  split.
  - destruct (no_sink_across_barrier 2 0 exSkip
                (mkConfig 4 [NInst (exPure 10)] exSkip false) exSkip_reaches)
      as (_ & Hsunk & _).
    apply (Hsunk (NInst (exPure 10)) [] (sinkDups 2 (exPure 10) [exPure 11] exSkip)).
    + reflexivity.
    + reflexivity.
  - destruct (no_sink_across_barrier 2 0 exArgsBarrier
                (mkConfig 5 [NInst (exStore 12); NInst (exPure 10)] exArgsBarrier false)
                exArgsBarrier_reaches)
      as (_ & _ & Hbarrier & _).
    apply (Hbarrier 4 (NInst (exStore 12)) [NInst (exPure 10)] 0).
    + reflexivity.
    + reflexivity.
    + reflexivity.
    + reflexivity.
Defined.




(** The terminator of the first predecessor is not tested by the loop of
    [sinkArgument].  In [exSwitchFirstPred], which no typing of the edges
    admits (the operand of the [switch_enum] and the value passed as the
    payload are results of identical instructions), argument 0 is sunk
    although the first predecessor ends in a [switch_enum]. *)
Lemma first_predecessor_terminator_unchecked :
  head (getPreds (stFn exSwitchFirstPred) 2) = Some 0 ∧
  (bbTerm <$> fnBlocks (stFn exSwitchFirstPred) !! 0
   = Some (SwitchEnumInst (InstResult 10) [(exSome, 2)] None)) ∧
  sinkArgument 2 0 exSwitchFirstPred = Some (exSwitchFirstPredSunk, true) ∧
  sinkArgumentsFromPredecessors 2 exSwitchFirstPred
  = Some (exSwitchFirstPredSunk, true) ∧
  (bbTerm <$> fnBlocks (stFn exSwitchFirstPredSunk) !! 0
   = Some (SwitchEnumInst Undef [(exSome, 2)] None)).
Proof. split_and!; done. Qed.

(** For every predecessor other than the first the check is made: a
    terminator that is neither a branch nor a conditional branch makes
    [sinkArgument] give up (or stop on an operand index out of range before
    it gets there). *)
Lemma other_predecessor_terminator_checked BB ArgNum st P pb :
  P ∈ getPreds (stFn st) BB →
  head (getPreds (stFn st) BB) ≠ Some P →
  fnBlocks (stFn st) !! P = Some pb →
  isaBranchInst (bbTerm pb) = false →
  isaCondBranchInst (bbTerm pb) = false →
  sinkArgument BB ArgNum st = None ∨ sinkArgument BB ArgNum st = Some (st, false).
Proof.
  intros HP Hfirst Hpb Hbr Hcbr.
  destruct (sinkArgument BB ArgNum st) as [[st' c]|] eqn:Hsink; [|by left].
  right. destruct c; [|by apply sinkArgument_unchanged in Hsink as ->].
  apply sinkArgument_true_inv in Hsink
    as (b & FirstPred & fp & FSI & Clones & _ & _ & Hhead & _ & _ & _ & _ & _ & Hcheck & _).
  apply checkPreds_Some in Hcheck as [_ Hpreds].
  destruct (Hpreds P HP) as (pb' & SI & Hpb' & Hbranch & _); [congruence|].
  rewrite Hpb in Hpb'. injection Hpb' as <-. destruct Hbranch; congruence.
Qed.

(** Witness of C7: nothing can be sunk in [exQuiet], and the pass leaves it
    alone. *)
Lemma pass_idempotent_witness : run exNoAlias exQuiet = Some (exQuiet, false).
Proof.
  destruct (pass_idempotent exNoAlias exQuiet) as [Hquiet _].
  apply Hquiet. reflexivity.
Defined.

(** Witness of C8: the run on [exTwoPreds] makes nine sinker calls and
    signals the invalidation. *)
Lemma run_is_one_sweep_witness :
  ∃ calls, (λ c, (callBlock c, callSinker c)) <$> calls = sweepSchedule 3 ∧
           existsb callChanged calls = true.
Proof.
  destruct (run_is_one_sweep exNoAlias exTwoPreds
              (invalidateAnalysis (sinkCodeFromPredecessors 2 exTwoPreds).1) true)
    as (calls & stN & _ & Hsched & _ & Hchanged & _).
  - reflexivity.
  - exists calls. split; [exact Hsched|]. symmetry. exact Hchanged.
Defined.

(** * Further properties of the code *)

Lemma findIdenticalScan_iff F SkipBudget cur Iden D :
  findIdenticalScan F SkipBudget cur Iden = Some D ↔
  ∃ skipped before,
    cur = skipped ++ NInst D :: before ∧
    Forall (λ n, matchesIden F Iden n = false ∧ isSinkBarrier F n = false) skipped ∧
    matchesIden F Iden (NInst D) = true ∧
    length skipped < SkipBudget.
Proof.
  unfold matchesIden. split.
  - revert cur. induction SkipBudget as [|budget IH]; intros cur; [done|].
    destruct cur as [|x before]; [done|]. simpl.
    destruct (canSinkInstruction F x && nodeIdenticalTo Iden x) eqn:Hmatch.
    + destruct x as [t|i]; [by rewrite andb_false_r in Hmatch|]. simpl.
      intros [= ->]. exists [], before.
      split_and!; [done|constructor|done|simpl; lia].
    + destruct (isSinkBarrier F x) eqn:Hbar; [done|].
      destruct before as [|y before]; [done|]. intros Hfind.
      destruct (IH _ Hfind) as (skipped & before' & -> & Hsk & HD & Hlen).
      exists (x :: skipped), before'.
      split_and!; [done|by constructor|done|simpl; lia].
  - intros (skipped & before & -> & Hsk & HD & Hlen).
    revert SkipBudget Hlen. induction Hsk as [|x skipped [Hx Hbar] Hsk IH];
      intros SkipBudget Hlen.
    + destruct SkipBudget as [|budget]; [simpl in Hlen; lia|].
      cbn [findIdenticalScan app]. by rewrite HD.
    + destruct SkipBudget as [|budget]; [simpl in Hlen; lia|].
      cbn [findIdenticalScan app]. rewrite Hx, Hbar.
      rewrite <- (IH budget) by (simpl in Hlen; lia).
      by destruct skipped.
Qed.

Lemma nodesBackward_split_iff b skipped i before :
  nodesBackward b = skipped ++ NInst i :: before ↔
  ∃ pre post,
    bbInsts b = pre ++ i :: post ∧
    skipped = NTerm (bbTerm b) :: (NInst <$> reverse post) ∧
    before = NInst <$> reverse pre.
Proof.
  unfold nodesBackward. split.
  - intros Hcur. destruct skipped as [|x skipped]; [done|].
    simpl in Hcur. injection Hcur as <- Hcur.
    apply fmap_app_inv in Hcur as (l1 & l2 & -> & Hl2 & Hrev).
    symmetry in Hl2. apply fmap_cons_inv in Hl2 as (i' & l3 & [= <-] & -> & ->).
    exists (reverse l3), (reverse l1). split_and!.
    + rewrite <- (reverse_involutive (bbInsts b)), Hrev.
      by rewrite reverse_app, reverse_cons, <- app_assoc.
    + by rewrite reverse_involutive.
    + by rewrite reverse_involutive.
  - intros (pre & post & -> & -> & ->). simpl. f_equal.
    by rewrite reverse_app, reverse_cons, !fmap_app, <- app_assoc.
Qed.

Lemma findIdenticalInBlock_inv F P Iden D :
  findIdenticalInBlock F P Iden = Some D →
  ∃ b pre post,
    fnBlocks F !! P = Some b ∧
    bbInsts b = pre ++ D :: post ∧
    length post + 2 ≤ SinkSearchWindow ∧
    Forall (λ i, isSinkBarrier F (NInst i) = false ∧
                 (use_empty F (InstResult (instId i)) && isIdenticalTo Iden i) = false)
           post ∧
    use_empty F (InstResult (instId D)) = true ∧
    isIdenticalTo Iden D = true.
Proof.
  unfold findIdenticalInBlock.
  destruct (fnBlocks F !! P) as [b|] eqn:Hb; [|done]. cbn [mbind option_bind].
  intros (skipped & before & Hcur & Hsk & HD & Hlen)%findIdenticalScan_iff.
  apply nodesBackward_split_iff in Hcur as (pre & post & Hinsts & -> & ->).
  exists b, pre, post. unfold matchesIden, canSinkInstruction in *. simpl in *.
  rewrite andb_true_r in HD. apply andb_true_iff in HD as [Huse Hid].
  rewrite length_fmap, length_reverse in Hlen.
  split_and!; [done|done|unfold SinkSearchWindow in *; lia| |done|done].
  apply Forall_cons in Hsk as [_ Hsk]. rewrite Forall_fmap in Hsk.
  apply Forall_reverse in Hsk. rewrite reverse_involutive in Hsk.
  eapply Forall_impl; [exact Hsk|]. intros i [Hm Hbar]. simpl in Hm.
  rewrite andb_true_r in Hm. done.
Qed.

Lemma findIdenticalInBlock_complete F P Iden D b pre post :
  fnBlocks F !! P = Some b →
  bbInsts b = pre ++ D :: post →
  length post + 2 ≤ SinkSearchWindow →
  Forall (λ i, isSinkBarrier F (NInst i) = false ∧
               (use_empty F (InstResult (instId i)) && isIdenticalTo Iden i) = false)
         post →
  use_empty F (InstResult (instId D)) = true →
  isIdenticalTo Iden D = true →
  findIdenticalInBlock F P Iden = Some D.
Proof.
  intros Hb Hinsts Hlen Hpost Huse Hid. unfold findIdenticalInBlock.
  rewrite Hb. cbn [mbind option_bind]. apply findIdenticalScan_iff.
  exists (NTerm (bbTerm b) :: (NInst <$> reverse post)), (NInst <$> reverse pre).
  split_and!.
  - apply nodesBackward_split_iff. by exists pre, post.
  - constructor; [done|]. rewrite Forall_fmap. apply Forall_reverse.
    eapply Forall_impl; [exact Hpost|]. intros i [Hbar Hm].
    unfold matchesIden, canSinkInstruction. simpl. by rewrite andb_true_r.
  - unfold matchesIden, canSinkInstruction. simpl. by rewrite andb_true_r, Huse.
  - simpl. rewrite length_fmap, length_reverse. unfold SinkSearchWindow in *. lia.
Qed.

(** X4: [findIdenticalInBlock] returns [D] exactly when [D] is the
    instruction of the block nearest to the terminator that has no uses and
    is identical to [Iden], at most four instructions stand between [D] and
    the terminator, and none of them is a sink barrier. *)
Theorem findIdenticalInBlock_finds_nearest_match
    (F : SILFunction) (P : nat) (Iden D : SILInstruction) :
  findIdenticalInBlock F P Iden = Some D ↔
  ∃ b pre post,
    fnBlocks F !! P = Some b ∧
    bbInsts b = pre ++ D :: post ∧
    length post + 2 ≤ SinkSearchWindow ∧
    Forall (λ i, isSinkBarrier F (NInst i) = false ∧
                 (use_empty F (InstResult (instId i)) && isIdenticalTo Iden i) = false)
           post ∧
    use_empty F (InstResult (instId D)) = true ∧
    isIdenticalTo Iden D = true.
Proof.
  split; [apply findIdenticalInBlock_inv|].
  intros (b & pre & post & Hb & Hinsts & Hlen & Hpost & Huse & Hid).
  by eapply findIdenticalInBlock_complete.
Qed.

Lemma sameCFG_refl F : sameCFG F F.
Proof.
  split; [done|]. intros BB b Hb. exists b, (λ v, v).
  split_and!; [done..|]. by rewrite mapTermOperands_id.
Qed.

Lemma sameCFG_trans F F' F'' : sameCFG F F' → sameCFG F' F'' → sameCFG F F''.
Proof.
  intros [Hl1 H1] [Hl2 H2]. split; [congruence|]. intros BB b Hb.
  destruct (H1 BB b Hb) as (b' & g & Hb' & Ha & Ht).
  destruct (H2 BB b' Hb') as (b'' & h & Hb'' & Ha' & Ht').
  exists b'', (h ∘ g). split_and!; [done|congruence|].
  by rewrite Ht', Ht, mapTermOperands_compose.
Qed.

Lemma operandsRenamed_sameCFG g F F' : operandsRenamed g F F' → sameCFG F F'.
Proof.
  intros (Hl & Hb & _). split; [done|]. intros BB b HBB.
  destruct (Hb BB b HBB) as (b' & ? & ? & ?). by exists b', g.
Qed.

Lemma sameCFG_replaceAllUsesWith old new F : sameCFG F (replaceAllUsesWith old new F).
Proof. eapply operandsRenamed_sameCFG, operandsRenamed_replaceAllUsesWith. Qed.

Lemma sameCFG_eraseFromParent id F : sameCFG F (eraseFromParent id F).
Proof. eapply operandsRenamed_sameCFG, operandsRenamed_eraseFromParent. Qed.

Lemma sameCFG_moveBefore_begin id BB F : sameCFG F (moveBefore_begin id BB F).
Proof. eapply operandsRenamed_sameCFG, operandsRenamed_moveBefore_begin. Qed.

Lemma sameCFG_createInst Builder k F : sameCFG F (createInst Builder k F).2.
Proof.
  rewrite createInst_fn. split; [simpl; apply length_alter|].
  intros BB b Hb.
  set (g := insertInst (insertIdx Builder) (mkInst (fnNextId F) k)).
  change (fnBlocks (mkFn (fnBlocks (updBlockInsts g (insertBB Builder) F))
                         (S (fnNextId F))))
    with (fnBlocks (updBlockInsts g (insertBB Builder) F)).
  rewrite lookup_updBlockInsts, Hb. case_decide.
  - eexists _, (λ v, v). split_and!; [done..|]. simpl.
    by rewrite mapTermOperands_id.
  - exists b, (λ v, v). split_and!; [done..|]. by rewrite mapTermOperands_id.
Qed.

Lemma termSuccessors_map g t :
  termSuccessors (mapTermOperands g t) = termSuccessors t.
Proof. by destruct t. Qed.

Lemma sameCFG_lookup F F' BB :
  sameCFG F F' →
  bbArgs <$> fnBlocks F' !! BB = bbArgs <$> fnBlocks F !! BB ∧
  (termSuccessors ∘ bbTerm) <$> fnBlocks F' !! BB
  = (termSuccessors ∘ bbTerm) <$> fnBlocks F !! BB ∧
  (length ∘ termOperands ∘ bbTerm) <$> fnBlocks F' !! BB
  = (length ∘ termOperands ∘ bbTerm) <$> fnBlocks F !! BB.
Proof.
  intros [Hl H]. destruct (fnBlocks F !! BB) as [b|] eqn:Hb.
  - destruct (H BB b Hb) as (b' & g & -> & Ha & Ht). simpl.
    rewrite Ha, Ht, termSuccessors_map, termOperands_map, length_fmap. done.
  - rewrite (proj2 (lookup_ge_None _ _)); [done|]. rewrite Hl.
    by apply lookup_ge_None.
Qed.

Lemma sameCFG_getSuccs F F' BB : sameCFG F F' → getSuccs F' BB = getSuccs F BB.
Proof.
  intros (_ & Hs & _)%(sameCFG_lookup _ _ BB). unfold getSuccs.
  destruct (fnBlocks F' !! BB), (fnBlocks F !! BB); simpl in Hs; congruence.
Qed.

Lemma getPreds_successors F BB :
  getPreds F BB
  = mjoin (imap (λ P succs, (λ _, P) <$> filter (λ s, s = BB) succs)
                ((termSuccessors ∘ bbTerm) <$> fnBlocks F)).
Proof. unfold getPreds. by rewrite imap_fmap. Qed.

Lemma sameCFG_getPreds F F' BB : sameCFG F F' → getPreds F' BB = getPreds F BB.
Proof.
  intros HF. rewrite !getPreds_successors. f_equal. f_equal.
  apply list_eq. intros j. rewrite !list_lookup_fmap.
  by destruct (sameCFG_lookup F F' j HF) as (_ & -> & _).
Qed.

Lemma sameCFG_operandsCoverArgs F F' :
  sameCFG F F' → operandsCoverArgs F → operandsCoverArgs F'.
Proof.
  intros HF Hcov P pb' BB HP HBB.
  destruct (sameCFG_lookup F F' P HF) as (_ & HsP & HlP).
  rewrite HP in HsP, HlP. simpl in HsP, HlP.
  destruct (fnBlocks F !! P) as [pb|] eqn:Hpb; [|done].
  injection HsP as HsP. injection HlP as HlP. rewrite HsP in HBB.
  destruct (Hcov P pb BB Hpb HBB) as (b & Hb & Hle).
  destruct (proj2 HF BB b Hb) as (b' & g & Hb' & Ha & _).
  exists b'. split; [done|]. rewrite Ha, HlP. done.
Qed.

(** ** Properties kept by the four operations the pass mutates the function
    with *)

Section PrimitiveOperations.
Context (Inv : SILFunction → Prop).
Hypothesis Inv_replaceAllUsesWith :
  ∀ old new F, Inv F → Inv (replaceAllUsesWith old new F).
Hypothesis Inv_eraseFromParent : ∀ id F, Inv F → Inv (eraseFromParent id F).
Hypothesis Inv_moveBefore_begin : ∀ id BB F, Inv F → Inv (moveBefore_begin id BB F).
Hypothesis Inv_createInst : ∀ Builder k F, Inv F → Inv (createInst Builder k F).2.

Lemma Inv_eraseDups c Dups st :
  Inv (stFn st) → Inv (stFn (eraseDups c Dups st)).
Proof using Inv_replaceAllUsesWith Inv_eraseFromParent.
  revert st. induction Dups as [|D Dups IH]; intros st HF; [done|].
  simpl. apply IH. simpl. by apply Inv_eraseFromParent, Inv_replaceAllUsesWith.
Qed.

Lemma Inv_sinkScan fuel BB FirstPred SkipBudget cur st Changed :
  Inv (stFn st) → Inv (stFn (sinkScan fuel BB FirstPred SkipBudget cur st Changed).1).
Proof using Inv_replaceAllUsesWith Inv_eraseFromParent Inv_moveBefore_begin.
  revert SkipBudget cur st Changed.
  induction fuel as [|fuel IH]; intros SkipBudget cur st Changed HF; [done|].
  destruct SkipBudget as [|budget]; [done|]. destruct cur as [|x before]; [done|].
  rewrite sinkScan_unfold.
  destruct (scanStep BB FirstPred x before st) as [st1| |] eqn:Hstep;
    [|done|by apply IH].
  apply IH. apply scanStep_Sunk_inv in Hstep as (i & D & Dups & _ & _ & _ & ->).
  unfold sinkDups. apply Inv_eraseDups. simpl. by apply Inv_moveBefore_begin.
Qed.

Lemma Inv_sinkCodeFromPredecessors BB st :
  Inv (stFn st) → Inv (stFn (sinkCodeFromPredecessors BB st).1).
Proof using Inv_replaceAllUsesWith Inv_eraseFromParent Inv_moveBefore_begin.
  intros HF. unfold sinkCodeFromPredecessors. repeat (case_match; try done).
  by apply Inv_sinkScan.
Qed.

Lemma Inv_recursivelyDelete fuel id F :
  Inv F → Inv (recursivelyDelete fuel id F).
Proof using Inv_eraseFromParent.
  revert id F. induction fuel as [|fuel IH]; intros id F HF; [done|].
  simpl. destruct (getInst F id) as [x|]; [|done].
  destruct (isInstructionTriviallyDead F x); [|done].
  assert (Hfold : ∀ ops F0, Inv F0 →
    Inv (foldl (λ F' v, match v with
                        | InstResult d => recursivelyDelete fuel d F'
                        | _ => F'
                        end) F0 ops)).
  { induction ops as [|v ops IHops]; intros F0 HF0; [done|]. simpl.
    apply IHops. destruct v; [by apply IH|done..]. }
  by apply Hfold, Inv_eraseFromParent.
Qed.

Lemma Inv_deleteClones FSI Clones F :
  Inv F → Inv (foldl (deleteClone FSI) F Clones).
Proof using Inv_replaceAllUsesWith Inv_eraseFromParent.
  revert F. induction Clones as [|S Clones IH]; intros F HF; [done|].
  simpl. apply IH. unfold deleteClone. destruct S as [d| |]; [|done..].
  case_decide; [done|]. unfold recursivelyDeleteTriviallyDeadInstructions.
  by apply Inv_recursivelyDelete, Inv_replaceAllUsesWith.
Qed.

Lemma Inv_sinkArgument BB ArgNum st st' c :
  sinkArgument BB ArgNum st = Some (st', c) → Inv (stFn st) → Inv (stFn st').
Proof using Inv_replaceAllUsesWith Inv_eraseFromParent Inv_moveBefore_begin.
  destruct c; [|by intros ->%sinkArgument_unchanged].
  intros (b & FirstPred & fp & FSI & Clones & _ & _ & _ & _ & _ & _ & _ & _ & _ & ->)
    %sinkArgument_true_inv HF.
  simpl. apply Inv_deleteClones.
  by apply Inv_replaceAllUsesWith, Inv_moveBefore_begin, Inv_replaceAllUsesWith.
Qed.

Lemma Inv_sinkArguments BB ArgNums st Changed st' Changed' :
  sinkArguments BB ArgNums st Changed = Some (st', Changed') →
  Inv (stFn st) → Inv (stFn st').
Proof using Inv_replaceAllUsesWith Inv_eraseFromParent Inv_moveBefore_begin.
  revert st Changed. induction ArgNums as [|i ArgNums IH]; intros st Changed; simpl.
  { by intros [= -> ->]. }
  destruct (sinkArgument BB i st) as [[st1 c]|] eqn:Harg; [|done]. simpl.
  intros Hrest HF. eapply IH; [done|]. by eapply Inv_sinkArgument.
Qed.

Lemma Inv_sinkArgumentsFromPredecessors BB st st' c :
  sinkArgumentsFromPredecessors BB st = Some (st', c) →
  Inv (stFn st) → Inv (stFn st').
Proof using Inv_replaceAllUsesWith Inv_eraseFromParent Inv_moveBefore_begin.
  unfold sinkArgumentsFromPredecessors. intros H HF.
  repeat (case_match; simplify_option_eq; try done).
  by eapply Inv_sinkArguments.
Qed.

Lemma Inv_createRefCountOpForPayload Builder Inst e F :
  Inv F → Inv (createRefCountOpForPayload Builder Inst e F).
Proof using Inv_createInst.
  intros HF. unfold createRefCountOpForPayload.
  destruct (negb (hasArgumentType e)); [done|].
  destruct (createInst Builder _ F) as [[u b1] f1] eqn:H1.
  assert (f1 = (createInst Builder
                  (UncheckedEnumDataInst (getOperand0 Inst) e) F).2) as ->
    by (by rewrite H1).
  destruct (isaRetainValueInst Inst); by apply Inv_createInst, Inv_createInst.
Qed.

Lemma Inv_sinkAcrossCases Inst Cases F :
  Inv F → Inv (sinkAcrossCases Inst Cases F).
Proof using Inv_createInst.
  revert F. induction Cases as [|c Cases IH]; intros F HF; [done|].
  rewrite sinkAcrossCases_cons. by apply IH, Inv_createRefCountOpForPayload.
Qed.

Lemma Inv_sinkToSuccessors Ptr Succs F :
  Inv F → Inv (sinkToSuccessors Ptr Succs F).
Proof using Inv_createInst.
  revert F. induction Succs as [|s Succs IH]; intros F HF; [done|].
  rewrite sinkToSuccessors_cons. by apply IH, Inv_createInst.
Qed.

Lemma Inv_tryToSinkRefCountInst AA BB T Inst st :
  Inv (stFn st) → Inv (stFn (tryToSinkRefCountInst AA BB T Inst st).1).
Proof using Inv_eraseFromParent Inv_createInst.
  intros HF. unfold tryToSinkRefCountInst, tryToSinkRefCountAcrossSwitch.
  repeat (case_match; try done); simpl;
    apply Inv_eraseFromParent;
    first [by apply Inv_sinkAcrossCases|by apply Inv_sinkToSuccessors].
Qed.

Lemma Inv_tryCandidates AA BB T Cands st :
  Inv (stFn st) → Inv (stFn (tryCandidates AA BB T Cands st).1).
Proof using Inv_eraseFromParent Inv_createInst.
  revert st. induction Cands as [|Inst Cands IH]; intros st HF; [done|].
  rewrite tryCandidates_cons. simpl. by apply IH, Inv_tryToSinkRefCountInst.
Qed.

Lemma Inv_sinkRetainToSuccessors AA BB st :
  Inv (stFn st) → Inv (stFn (sinkRetainToSuccessors AA BB st).1).
Proof using Inv_eraseFromParent Inv_createInst.
  intros HF. unfold sinkRetainToSuccessors. repeat (case_match; try done).
  by apply Inv_tryCandidates.
Qed.

Lemma Inv_runOnBlock AA BB st Changed st' Changed' :
  runOnBlock AA BB st Changed = Some (st', Changed') →
  Inv (stFn st) → Inv (stFn st').
Proof using All.
  unfold runOnBlock. intros H HF.
  destruct (sinkArgumentsFromPredecessors BB _) as [[st2 c2]|] eqn:Hargs; [|done].
  simpl in H. injection H as <- _.
  apply Inv_sinkRetainToSuccessors.
  eapply Inv_sinkArgumentsFromPredecessors; [done|].
  by apply Inv_sinkCodeFromPredecessors.
Qed.

Lemma Inv_runOnBlocks AA BBs st Changed st' Changed' :
  runOnBlocks AA BBs st Changed = Some (st', Changed') →
  Inv (stFn st) → Inv (stFn st').
Proof using All.
  revert st Changed. induction BBs as [|BB BBs IH]; intros st Changed; simpl.
  { by intros [= -> ->]. }
  destruct (runOnBlock AA BB st Changed) as [[st1 c1]|] eqn:Hblock; [|done].
  simpl. intros Hrest HF. eapply IH; [done|]. by eapply Inv_runOnBlock.
Qed.

Lemma Inv_run AA st st' Changed :
  run AA st = Some (st', Changed) → Inv (stFn st) → Inv (stFn st').
Proof using All.
  unfold run.
  destruct (runOnBlocks AA _ st false) as [[st1 c1]|] eqn:Hblocks; [|done].
  intros [= <- <-] HF.
  assert (Inv (stFn st1)) by (by eapply Inv_runOnBlocks).
  by destruct c1.
Qed.

End PrimitiveOperations.

(** ** Duplicate-code sinker: what a sink step does to the function *)

Lemma findDups_unused F FirstPred c Preds D Dups d :
  findDups F FirstPred c Preds [] = D :: Dups → d ∈ D :: Dups →
  InstResult (instId d) ∉ fnOperands F.
Proof.
  intros Hd Hin.
  destruct (findDups_cases F FirstPred c Preds []) as [H|(ds & H & Hall)];
    rewrite Hd in H; [done|].
  simpl in H. subst ds. apply list_elem_of_lookup in Hin as [k Hk].
  destruct (Forall2_lookup_r _ _ _ _ _ Hall Hk) as (P & _ & Hfind).
  apply findIdenticalInBlock_Some in Hfind as (b & pre & post & _ & _ & _ & Hs & _).
  by apply canSinkInstruction_unused.
Qed.

Lemma findDups_length F FirstPred c Preds D Dups :
  findDups F FirstPred c Preds [] = D :: Dups →
  length (D :: Dups) = length (filter (λ P, P ≠ FirstPred) Preds).
Proof.
  intros Hd.
  destruct (findDups_cases F FirstPred c Preds []) as [H|(ds & H & Hall)];
    rewrite Hd in H; [done|].
  simpl in H. subst ds. symmetry. by eapply Forall2_length.
Qed.

(** A sink step moves the candidate and erases the duplicates; the
    rewriting of the duplicates' uses finds none. *)
Lemma scanStep_Sunk_erases BB FirstPred x before st st' :
  scanStep BB FirstPred x before st = StepSunk st' →
  ∃ i Dups,
    x = NInst i ∧
    stFn st' = foldl (λ F D, eraseFromParent (instId D) F)
                 (moveBefore_begin (instId i) BB (stFn st)) Dups ∧
    NumSunk st' = NumSunk st + length Dups ∧
    0 < length Dups ∧
    length Dups = length (filter (λ P, P ≠ FirstPred) (getPreds (stFn st) BB)).
Proof.
  intros (i & D & Dups & -> & _ & Hd & ->)%scanStep_Sunk_inv.
  exists i, (D :: Dups). split_and!; [done| | |simpl; lia|by eapply findDups_length].
  - unfold sinkDups. rewrite eraseDups_unused; [done|]. simpl.
    intros d Hin Hop%fnOperands_moveBefore_begin_subset.
    by eapply findDups_unused.
  - unfold sinkDups. by rewrite NumSunk_eraseDups.
Qed.

Lemma operandsRenamed_foldl_erase (Dups : list SILInstruction) F :
  operandsRenamed (λ v, v) F (foldl (λ F D, eraseFromParent (instId D) F) F Dups).
Proof.
  revert F. induction Dups as [|D Dups IH]; intros F; [apply operandsRenamed_refl|].
  simpl. eapply operandsRenamed_id_trans; [apply operandsRenamed_eraseFromParent|].
  apply IH.
Qed.

Lemma sinkScan_erases fuel BB FirstPred SkipBudget cur st Changed :
  operandsRenamed (λ v, v) (stFn st)
    (stFn (sinkScan fuel BB FirstPred SkipBudget cur st Changed).1).
Proof.
  revert SkipBudget cur st Changed.
  induction fuel as [|fuel IH]; intros SkipBudget cur st Changed;
    [apply operandsRenamed_refl|].
  destruct SkipBudget as [|budget]; [apply operandsRenamed_refl|].
  destruct cur as [|x before]; [apply operandsRenamed_refl|].
  rewrite sinkScan_unfold.
  destruct (scanStep BB FirstPred x before st) as [st1| |] eqn:Hstep;
    [|apply operandsRenamed_refl|apply IH].
  eapply operandsRenamed_id_trans; [|apply IH].
  apply scanStep_Sunk_erases in Hstep as (i & Dups & _ & -> & _).
  eapply operandsRenamed_id_trans; [apply operandsRenamed_moveBefore_begin|].
  apply operandsRenamed_foldl_erase.
Qed.

(** X6: the duplicate-code sinker only moves and erases instructions: every
    block keeps its arguments and its terminator, operands included, and
    every instruction of the function afterwards is an instruction of the
    function before, with the same operands. *)
Theorem sinkCodeFromPredecessors_rewrites_no_operand (BB : nat) (st : PassState) :
  let F := stFn st in
  let F' := stFn (sinkCodeFromPredecessors BB st).1 in
  length (fnBlocks F') = length (fnBlocks F) ∧
  (∀ j b, fnBlocks F !! j = Some b →
     ∃ b', fnBlocks F' !! j = Some b' ∧ bbArgs b' = bbArgs b ∧ bbTerm b' = bbTerm b) ∧
  (∀ x, x ∈ fnInsts F' → x ∈ fnInsts F).
Proof.
  intros F F'.
  assert (Hren : operandsRenamed (λ v, v) F F').
  { unfold F', sinkCodeFromPredecessors.
    repeat (case_match; try apply operandsRenamed_refl). apply sinkScan_erases. }
  destruct Hren as (Hl & Hb & Hi). split_and!; [done| |].
  - intros j b Hj. destruct (Hb j b Hj) as (b' & Hb' & Ha & Ht).
    exists b'. split_and!; [done..|]. by rewrite Ht, mapTermOperands_id.
  - intros x Hx. destruct (Hi x Hx) as (x0 & Hx0 & ->). by rewrite mapInst_id.
Qed.

(** ** Duplicate-code sinker: a block with one predecessor *)

Lemma findDups_only_first F FirstPred c Preds acc :
  filter (λ P, P ≠ FirstPred) Preds = [] →
  findDups F FirstPred c Preds acc = acc.
Proof.
  revert acc. induction Preds as [|P Preds IH]; intros acc; [done|].
  rewrite filter_cons. cbn [findDups].
  destruct (decide (P = FirstPred)) as [->|Hne].
  - rewrite decide_False by (by intros ?). apply IH.
  - by rewrite decide_True.
Qed.

Lemma sinkScan_only_first fuel BB FirstPred SkipBudget cur st Changed :
  filter (λ P, P ≠ FirstPred) (getPreds (stFn st) BB) = [] →
  sinkScan fuel BB FirstPred SkipBudget cur st Changed = (st, Changed).
Proof.
  intros Hpreds. revert SkipBudget cur Changed.
  induction fuel as [|fuel IH]; intros SkipBudget cur Changed; [done|].
  destruct SkipBudget as [|budget]; [done|]. destruct cur as [|x before]; [done|].
  rewrite sinkScan_unfold.
  destruct (scanStep BB FirstPred x before st) as [st1| |] eqn:Hstep; [|done|apply IH].
  apply scanStep_Sunk_inv in Hstep as (i & D & Dups & _ & _ & Hd & _).
  by rewrite findDups_only_first in Hd.
Qed.

(** X5: the duplicate-code sinker needs a second predecessor: on a block
    with exactly one predecessor edge it changes nothing and reports no
    change, whatever the predecessor holds. *)
Theorem sinkCodeFromPredecessors_single_predecessor (BB P : nat) (st : PassState) :
  getPreds (stFn st) BB = [P] →
  sinkCodeFromPredecessors BB st = (st, false).
Proof.
  intros HP. unfold sinkCodeFromPredecessors. rewrite HP.
  repeat (case_match; try done). apply sinkScan_only_first.
  rewrite HP, filter_cons, decide_False; [done|]. by intros ?.
Qed.

(** ** The statistic and the reported change *)

Lemma sinkScan_NumSunk fuel BB FirstPred SkipBudget cur st Changed :
  let r := sinkScan fuel BB FirstPred SkipBudget cur st Changed in
  NumSunk st ≤ NumSunk r.1 ∧
  (r.2 = true ↔ Changed = true ∨ NumSunk st < NumSunk r.1).
Proof.
  revert SkipBudget cur st Changed.
  induction fuel as [|fuel IH]; intros SkipBudget cur st Changed; simpl.
  { split; [done|]. split; [by left|]. intros [?|?]; [done|lia]. }
  destruct SkipBudget as [|budget]; simpl.
  { split; [done|]. split; [by left|]. intros [?|?]; [done|lia]. }
  destruct cur as [|x before]; simpl.
  { split; [done|]. split; [by left|]. intros [?|?]; [done|lia]. }
  destruct (scanStep BB FirstPred x before st) as [st1| |] eqn:Hstep.
  - destruct (IH (S budget) (blockNodesBackward (stFn st1) FirstPred) st1 true)
      as [Hle Hiff].
    apply scanStep_Sunk_erases in Hstep as (i & Dups & _ & _ & Hnum & Hpos & _).
    split; [lia|]. rewrite sinkScan_Changed. split; [|done]. intros _. right. lia.
  - simpl. split; [done|]. split; [by left|]. intros [?|?]; [done|lia].
  - apply IH.
Qed.

Lemma tryToSinkRefCountInst_NumSunk AA BB T Inst st :
  let r := tryToSinkRefCountInst AA BB T Inst st in
  NumSunk r.1 = NumSunk st + (if r.2 then 1 else 0).
Proof.
  unfold tryToSinkRefCountInst, tryToSinkRefCountAcrossSwitch.
  repeat (case_match; simpl; try lia).
Qed.

Lemma tryCandidates_NumSunk AA BB T Cands st :
  let r := tryCandidates AA BB T Cands st in
  NumSunk st ≤ NumSunk r.1 ∧ NumSunk r.1 ≤ NumSunk st + length Cands ∧
  (r.2 = true ↔ NumSunk st < NumSunk r.1).
Proof.
  revert st. induction Cands as [|Inst Cands IH]; intros st.
  { simpl. split_and!; [done|lia|]. split; [done|lia]. }
  rewrite tryCandidates_cons.
  pose proof (tryToSinkRefCountInst_NumSunk AA BB T Inst st) as H1.
  destruct (IH (tryToSinkRefCountInst AA BB T Inst st).1) as (Hle & Hub & Hiff).
  simpl in *. destruct (tryToSinkRefCountInst AA BB T Inst st).2; simpl.
  - split_and!; [lia|lia|]. split; [lia|done].
  - rewrite Nat.add_0_r in H1. rewrite H1 in Hle, Hub, Hiff.
    split_and!; [done|lia|done].
Qed.

Lemma sinkArgument_NumSunk BB ArgNum st st' c :
  sinkArgument BB ArgNum st = Some (st', c) → NumSunk st' = NumSunk st.
Proof.
  destruct c; [|by intros ->%sinkArgument_unchanged].
  by intros (b & FirstPred & fp & FSI & Clones & _ & _ & _ & _ & _ & _ & _ & _ & _ & ->)
    %sinkArgument_true_inv.
Qed.

Lemma sinkArguments_NumSunk BB ArgNums st Changed st' Changed' :
  sinkArguments BB ArgNums st Changed = Some (st', Changed') →
  NumSunk st' = NumSunk st.
Proof.
  revert st Changed. induction ArgNums as [|i ArgNums IH]; intros st Changed; simpl.
  { by intros [= -> ->]. }
  destruct (sinkArgument BB i st) as [[st1 c]|] eqn:Harg; [|done]. simpl.
  intros ->%IH. by eapply sinkArgument_NumSunk.
Qed.

Section Counts.
Context (AA : AliasAnalysis).

Lemma sinkers_NumSunk BB st :
  (let r := sinkCodeFromPredecessors BB st in
   NumSunk st ≤ NumSunk r.1 ∧ (r.2 = true ↔ NumSunk st < NumSunk r.1)) ∧
  (let r := sinkRetainToSuccessors AA BB st in
   NumSunk st ≤ NumSunk r.1 ∧ (r.2 = true ↔ NumSunk st < NumSunk r.1) ∧
   ∀ b, fnBlocks (stFn st) !! BB = Some b →
        NumSunk r.1 ≤ NumSunk st + length (bbInsts b)).
Proof.
  split_and!.
  - unfold sinkCodeFromPredecessors.
    repeat (case_match; try (simpl; split; [done|split; [done|lia]])).
    match goal with |- context [sinkScan ?f ?B ?P ?k ?c ?s false] =>
      destruct (sinkScan_NumSunk f B P k c s false) as [Hle Hiff] end.
    split; [done|]. rewrite Hiff. split; [by intros [?|?]|by right].
  - unfold sinkRetainToSuccessors.
    destruct (fnBlocks (stFn st) !! BB) as [b|] eqn:Hb;
      [|simpl; split_and!; [done|split; [done|lia]|done]].
    destruct (negb _);
      [simpl; split_and!; [done|split; [done|lia]|intros; lia]|].
    destruct (bbInsts b) as [|i0 insts] eqn:Hinsts;
      [simpl; split_and!; [done|split; [done|lia]|intros; lia]|].
    destruct (tryCandidates_NumSunk AA BB (bbTerm b) (reverse (i0 :: insts)) st)
      as (Hle & Hub & Hiff).
    split_and!; [done..|]. intros b0 [= <-]. rewrite Hinsts.
    by rewrite length_reverse in Hub.
Qed.

End Counts.

(** X11: a call of the duplicate-code sinker or of the reference-count
    sinker reports a change exactly when it has executed [NumSunk++] at
    least once; the reference-count sinker executes it at most once for
    each instruction of the block; the block-argument sinker never executes
    it, also when it sinks. *)
Theorem NumSunk_follows_the_reported_changes
    (AA : AliasAnalysis) (BB : nat) (st : PassState) :
  (∃ n, NumSunk (sinkCodeFromPredecessors BB st).1 = NumSunk st + n ∧
        ((sinkCodeFromPredecessors BB st).2 = true ↔ 0 < n)) ∧
  (∃ n, NumSunk (sinkRetainToSuccessors AA BB st).1 = NumSunk st + n ∧
        ((sinkRetainToSuccessors AA BB st).2 = true ↔ 0 < n) ∧
        ∀ b, fnBlocks (stFn st) !! BB = Some b → n ≤ length (bbInsts b)) ∧
  (∀ st' c, sinkArgumentsFromPredecessors BB st = Some (st', c) →
            NumSunk st' = NumSunk st).
Proof.
  destruct (sinkers_NumSunk AA BB st) as [[Hle1 Hiff1] (Hle2 & Hiff2 & Hub2)].
  simpl in *. split_and!.
  - exists (NumSunk (sinkCodeFromPredecessors BB st).1 - NumSunk st).
    split; [lia|]. rewrite Hiff1. lia.
  - exists (NumSunk (sinkRetainToSuccessors AA BB st).1 - NumSunk st).
    split_and!; [lia|rewrite Hiff2; lia|]. intros b Hb. specialize (Hub2 b Hb). lia.
  - unfold sinkArgumentsFromPredecessors. intros st' c H.
    repeat (case_match; simplify_option_eq; try done).
    by eapply sinkArguments_NumSunk.
Qed.

(** ** Duplicate-code sinker: the scan ends *)

Lemma scanNext_budget_0 BB FirstPred cur st ch c' :
  ¬ scanNext BB FirstPred (mkConfig 0 cur st ch) c'.
Proof. inversion 1. Qed.

Lemma scanNext_cur_nil BB FirstPred budget st ch c' :
  ¬ scanNext BB FirstPred (mkConfig budget [] st ch) c'.
Proof. inversion 1. Qed.

Lemma scanNext_stop BB FirstPred budget x before st ch c' :
  scanStep BB FirstPred x before st = StepStop →
  ¬ scanNext BB FirstPred (mkConfig budget (x :: before) st ch) c'.
Proof. intros Hstop. inversion 1; congruence. Qed.

Lemma sinkScan_terminal BB FirstPred fuel budget cur st ch :
  is_Some (fnBlocks (stFn st) !! BB) →
  cur `suffix_of` blockNodesBackward (stFn st) FirstPred →
  numInsts (stFn st) + budget ≤ fuel →
  ∃ c, rtc (scanNext BB FirstPred) (mkConfig budget cur st ch) c ∧
       sinkScan fuel BB FirstPred budget cur st ch = (cfgState c, cfgChanged c) ∧
       ∀ c', ¬ scanNext BB FirstPred c c'.
Proof.
  revert budget cur st ch.
  induction fuel as [|fuel IH]; intros budget cur st ch HBB Hsuf Hfuel.
  { assert (budget = 0) as -> by lia. eexists. split_and!; [done|done|].
    intros c'. apply scanNext_budget_0. }
  destruct budget as [|budget].
  { eexists. split_and!; [done|done|]. intros c'. apply scanNext_budget_0. }
  destruct cur as [|x before].
  { eexists. split_and!; [done|done|]. intros c'. apply scanNext_cur_nil. }
  rewrite sinkScan_unfold.
  destruct (scanStep BB FirstPred x before st) as [st'| |] eqn:Hstep.
  - assert (numInsts (stFn st') < numInsts (stFn st)).
    { eapply scanStep_Sunk_numInsts; [done| |done].
      destruct Hsuf as [k ->]. rewrite elem_of_app. right; by left. }
    destruct (IH (S budget) (blockNodesBackward (stFn st') FirstPred) st' true)
      as (c & Hrtc & Hres & Hend); [|done|lia|].
    { apply scanStep_Sunk_inv in Hstep as (i & D & Dups & _ & _ & _ & ->).
      apply lookup_lt_is_Some. rewrite length_fnBlocks_sinkDups.
      by apply lookup_lt_is_Some. }
    exists c. split_and!; [|done|done]. eapply rtc_l; [|done]. by constructor.
  - eexists. split_and!; [done|done|]. intros c'. by apply scanNext_stop.
  - destruct (IH budget before st ch) as (c & Hrtc & Hres & Hend);
      [done|by eapply suffix_cons_l|lia|].
    exists c. split_and!; [|done|done]. eapply rtc_l; [|done]. by constructor.
Qed.

(** X7: the scan of the duplicate-code sinker ends: within
    [numInsts + SinkSearchWindow] iterations it reaches a configuration from
    which the loop makes no further iteration, and that configuration is the
    result, whatever larger bound the iterations are given. *)
Theorem sinkCodeFromPredecessors_scan_ends (BB FirstPred : nat) (st : PassState) :
  is_Some (fnBlocks (stFn st) !! BB) →
  ∃ c,
    rtc (scanNext BB FirstPred)
        (mkConfig SinkSearchWindow (blockNodesBackward (stFn st) FirstPred) st false)
        c ∧
    (∀ c', ¬ scanNext BB FirstPred c c') ∧
    ∀ fuel, scanFuel (stFn st) ≤ fuel →
      sinkScan fuel BB FirstPred SinkSearchWindow
        (blockNodesBackward (stFn st) FirstPred) st false
      = (cfgState c, cfgChanged c).
Proof.
  intros HBB.
  destruct (sinkScan_terminal BB FirstPred (scanFuel (stFn st)) SinkSearchWindow
              (blockNodesBackward (stFn st) FirstPred) st false)
    as (c & Hrtc & Hres & Hend); [done|done|done|].
  exists c. split_and!; [done|done|]. intros fuel Hfuel. rewrite <- Hres.
  by apply sinkScan_fuel.
Qed.

(** ** Duplicate-code sinker: the budget bounds the sinks *)

Lemma blockNodesBackward_head F BB :
  blockNodesBackward F BB = [] ∨
  ∃ t before, blockNodesBackward F BB = NTerm t :: before.
Proof.
  unfold blockNodesBackward. destruct (fnBlocks F !! BB) as [b|]; [|by left].
  right. unfold nodesBackward. eauto.
Qed.


Lemma scanStep_Sunk_sameCFG BB FirstPred x before st st' :
  scanStep BB FirstPred x before st = StepSunk st' → sameCFG (stFn st) (stFn st').
Proof.
  intros (i & Dups & _ & -> & _)%scanStep_Sunk_erases.
  eapply sameCFG_trans; [apply sameCFG_moveBefore_begin|].
  eapply operandsRenamed_sameCFG, operandsRenamed_foldl_erase.
Qed.

Lemma sinkScan_sinks_bounded m fuel BB FirstPred SkipBudget cur st Changed :
  length (filter (λ P, P ≠ FirstPred) (getPreds (stFn st) BB)) = m →
  NumSunk (sinkScan fuel BB FirstPred SkipBudget cur st Changed).1
  ≤ NumSunk st + sinksLeft SkipBudget cur * m.
Proof.
  revert SkipBudget cur st Changed.
  induction fuel as [|fuel IH]; intros SkipBudget cur st Changed Hm; [simpl; lia|].
  destruct SkipBudget as [|budget]; [simpl; lia|].
  destruct cur as [|x before]; [simpl; lia|].
  rewrite sinkScan_unfold.
  destruct (scanStep BB FirstPred x before st) as [st1| |] eqn:Hstep; [|simpl; lia|].
  - pose proof (scanStep_Sunk_sameCFG _ _ _ _ _ _ Hstep) as HF.
    apply scanStep_Sunk_erases in Hstep as (i & Dups & -> & _ & Hnum & _ & Hlen).
    assert (Hm1 : length (filter (λ P, P ≠ FirstPred) (getPreds (stFn st1) BB)) = m)
      by (by rewrite (sameCFG_getPreds _ _ BB HF)).
    pose proof (IH (S budget) (blockNodesBackward (stFn st1) FirstPred) st1 true Hm1)
      as Hle.
    destruct (blockNodesBackward_head (stFn st1) FirstPred) as [Hnil|(t & bef & Hcons)].
    + rewrite Hnil in Hle |- *. destruct fuel; simpl in *; lia.
    + rewrite Hcons in Hle |- *. simpl in *. rewrite Nat.sub_0_r in Hle. lia.
  - pose proof (IH budget before st Changed Hm) as Hle.
    assert (sinksLeft budget before ≤ sinksLeft (S budget) (x :: before)).
    { unfold sinksLeft. destruct x, before as [|[]]; simpl; lia. }
    nia.
Qed.

(** X8: one call of the duplicate-code sinker sinks at most
    [SinkSearchWindow - 1] candidates, because the budget is not reset when
    the scan restarts: [NumSunk] grows by at most five for each predecessor
    other than the first. *)
Theorem sinkCodeFromPredecessors_sinks_bounded (BB : nat) (st : PassState) :
  NumSunk (sinkCodeFromPredecessors BB st).1
  ≤ NumSunk st + (SinkSearchWindow - 1) * (length (getPreds (stFn st) BB) - 1).
Proof.
  unfold sinkCodeFromPredecessors.
  destruct (getPreds (stFn st) BB) as [|FirstPred Preds] eqn:HP; [simpl; lia|].
  repeat (case_match; try (simpl; lia)).
  etrans; [by apply (sinkScan_sinks_bounded _ _ _ _ _ _ _ _ eq_refl)|].
  rewrite HP, filter_cons, decide_False by (by intros ?).
  pose proof (length_filter (λ P, P ≠ FirstPred) Preds).
  unfold sinksLeft, nodesBackward, SinkSearchWindow. simpl. nia.
Qed.

(** ** Duplicate-code sinker: the search window *)


Lemma scanNext_withinWindow BB FirstPred c c' :
  scanNext BB FirstPred c c' → withinWindow FirstPred c → withinWindow FirstPred c'.
Proof.
  intros Hnext (skipped & Hnodes & Hlen).
  destruct Hnext as [budget x before st ch st' Hstep|budget x before st ch Hstep].
  - exists []. simpl in *. split; [done|lia].
  - simpl in *. exists (skipped ++ [x]). split; [by rewrite <- app_assoc|].
    rewrite length_app. simpl. lia.
Qed.

Lemma nodesBackward_split_len b skipped i before :
  nodesBackward b = skipped ++ NInst i :: before →
  ∃ pre post, bbInsts b = pre ++ i :: post ∧ S (length post) = length skipped.
Proof.
  intros (pre & post & Hinsts & -> & _)%nodesBackward_split_iff.
  exists pre, post. split; [done|]. simpl. by rewrite length_fmap, length_reverse.
Qed.

(** X9: every instruction the duplicate-code sinker sinks lies in the search
    window: when a sink step is taken, at most four instructions stand
    between the candidate and the terminator of the first predecessor, and
    at most four between each erased duplicate and the terminator of its
    block. *)
Theorem duplicate_sinker_search_window (BB FirstPred : nat) (st : PassState)
    (c : ScanConfig) :
  rtc (scanNext BB FirstPred)
      (mkConfig SinkSearchWindow (blockNodesBackward (stFn st) FirstPred) st false) c →
  withinWindow FirstPred c ∧
  ∀ budget x before st',
    cfgBudget c = S budget → cfgCur c = x :: before →
    scanStep BB FirstPred x before (cfgState c) = StepSunk st' →
    ∃ i, x = NInst i ∧
      (∃ fb pre post,
         fnBlocks (stFn (cfgState c)) !! FirstPred = Some fb ∧
         bbInsts fb = pre ++ i :: post ∧
         length post + 2 ≤ SinkSearchWindow) ∧
      (∀ D, D ∈ dupsFor BB FirstPred x (cfgState c) →
         ∃ P b pre post,
           P ∈ getPreds (stFn (cfgState c)) BB ∧
           fnBlocks (stFn (cfgState c)) !! P = Some b ∧
           bbInsts b = pre ++ D :: post ∧
           length post + 2 ≤ SinkSearchWindow).
Proof.
  intros Hrtc.
  assert (Hinv : withinWindow FirstPred c).
  { revert c Hrtc.
    apply (rtc_ind_r (R := scanNext BB FirstPred) (λ c, withinWindow FirstPred c)).
    - exists []. split; [done|]. simpl. lia.
    - intros c1 c2 _ Hnext Hc1. by eapply scanNext_withinWindow. }
  split; [done|]. intros budget x before st' Hbudget Hcur Hstep.
  destruct Hinv as (skipped & Hnodes & Hlen).
  pose proof Hstep as (i & D0 & Dups & -> & _ & Hd & _)%scanStep_Sunk_inv.
  exists i. split_and!; [done| |].
  - rewrite Hcur in Hnodes. unfold blockNodesBackward in Hnodes.
    destruct (fnBlocks (stFn (cfgState c)) !! FirstPred) as [fb|];
      [|by destruct skipped].
    apply nodesBackward_split_len in Hnodes as (pre & post & Hinsts & Hpost).
    exists fb, pre, post. split_and!; [done..|]. lia.
  - intros D HD. unfold dupsFor in HD.
    destruct (canSinkInstruction _ _); [|by apply elem_of_nil in HD].
    destruct (findDups_cases (stFn (cfgState c)) FirstPred i
                (getPreds (stFn (cfgState c)) BB) []) as [Hnil|(ds & Hds & Hall)].
    { rewrite Hnil in HD. by apply elem_of_nil in HD. }
    rewrite Hds in HD. simpl in HD. apply list_elem_of_lookup in HD as [k Hk].
    destruct (Forall2_lookup_r _ _ _ _ _ Hall Hk) as (P & HP & Hfind).
    apply list_elem_of_lookup_2, list_elem_of_filter in HP as [_ HP].
    apply findIdenticalInBlock_inv in Hfind
      as (b & pre & post & Hb & Hinsts & Hpost & _).
    by exists P, b, pre, post.
Qed.

(** ** Emitting the operation on the payload *)

Lemma insertInst_twice k x y (l : list SILInstruction) :
  k ≤ length l →
  insertInst (S k) y (insertInst k x l) = take k l ++ [x; y] ++ drop k l.
Proof.
  intros Hk. unfold insertInst.
  assert (Hlen : S k = length (take k l ++ [x]))
    by (rewrite length_app, length_take; simpl; lia).
  rewrite (cons_middle x (take k l) (drop k l)), app_assoc.
  rewrite (take_app_length' _ _ _ Hlen), (drop_app_length' _ _ _ Hlen).
  by rewrite <- app_assoc.
Qed.

(** X13: for a case with a payload [createRefCountOpForPayload] emits two
    instructions at the insertion point, in this order: the projection of
    the payload out of operand 0 of [Inst], then a [retain_value] of the
    projection when [Inst] is a [retain_value] and a [release_value] of it
    otherwise; both get fresh identifiers.  For a case without payload it
    emits nothing. *)
Theorem createRefCountOpForPayload_emits (Builder : SILBuilder)
    (Inst : SILInstruction) (e : EnumElementDecl) (F : SILFunction)
    (b : SILBasicBlock) :
  fnBlocks F !! insertBB Builder = Some b →
  insertIdx Builder ≤ length (bbInsts b) →
  let n := fnNextId F in
  let UEDI := mkInst n (UncheckedEnumDataInst (getOperand0 Inst) e) in
  let Op := mkInst (S n) (if isaRetainValueInst Inst
                          then RetainValueInst (InstResult n)
                          else ReleaseValueInst (InstResult n)) in
  createRefCountOpForPayload Builder Inst e F
  = if hasArgumentType e
    then mkFn (<[insertBB Builder :=
                   mkBB (bbArgs b)
                        (take (insertIdx Builder) (bbInsts b) ++ [UEDI; Op]
                           ++ drop (insertIdx Builder) (bbInsts b))
                        (bbTerm b)]> (fnBlocks F))
              (S (S n))
    else F.
Proof.
  intros Hb Hk n UEDI Op. unfold createRefCountOpForPayload.
  destruct (hasArgumentType e); [|done]. cbn [negb].
  assert (Halter : ∀ kind,
    (createInst (mkBuilder (insertBB Builder) (S (insertIdx Builder))) kind
       (createInst Builder (UncheckedEnumDataInst (getOperand0 Inst) e) F).2).2
    = mkFn (<[insertBB Builder :=
                mkBB (bbArgs b)
                     (take (insertIdx Builder) (bbInsts b)
                        ++ [UEDI; mkInst (S n) kind]
                        ++ drop (insertIdx Builder) (bbInsts b))
                     (bbTerm b)]> (fnBlocks F))
           (S (S n))).
  { intros kind. unfold createInst. simpl. f_equal.
    apply list_eq. intros j. destruct (decide (insertBB Builder = j)) as [<-|Hne].
    - rewrite !list_lookup_alter_eq, list_lookup_insert_eq
        by (by eapply lookup_lt_Some).
      rewrite Hb. simpl. f_equal. unfold updInsts. simpl. f_equal.
      by apply insertInst_twice.
    - by rewrite !list_lookup_alter_ne, list_lookup_insert_ne. }
  destruct (isaRetainValueInst Inst); apply Halter.
Qed.

(** ** Block-argument sinker: what is eligible *)

(** X12: the block-argument sinker sinks only single-use, side-effect-free
    values: when [sinkArgument] sinks an index, the value every predecessor
    passes at that index is the result of an instruction without side
    effects whose only use is that operand. *)
Theorem sinkArgument_sinks_single_use_values (BB ArgNum : nat) (st st' : PassState) :
  sinkArgument BB ArgNum st = Some (st', true) →
  getPreds (stFn st) BB ≠ [] ∧
  ∀ P, P ∈ getPreds (stFn st) BB →
    ∃ pb SI,
      fnBlocks (stFn st) !! P = Some pb ∧
      getOperand (bbTerm pb) ArgNum = Some (InstResult (instId SI)) ∧
      SI ∈ fnInsts (stFn st) ∧
      hasOneUse (stFn st) (InstResult (instId SI)) = true ∧
      mayHaveSideEffects (instKind SI) = false.
Proof.
  intros (b & FirstPred & fp & FSI & Clones & Hb & Harg & Hfirst & Hfp & Hop
          & HFSI & Hone & Hside & Hcheck & ->)%sinkArgument_true_inv.
  split; [by destruct (getPreds (stFn st) BB)|].
  apply checkPreds_Some in Hcheck as [_ Hpreds].
  intros P HP. destruct (decide (P = FirstPred)) as [->|Hne].
  - exists fp, FSI. by split_and!.
  - destruct (Hpreds P HP Hne) as (pb & SI & Hpb & _ & HopP & _ & HSI & HoneP & Hid).
    exists pb, SI. split_and!; [done..|].
    apply bool_decide_eq_true_1 in Hid. by rewrite Hid.
Qed.

(** ** Duplicate-code sinker: the statistic counts the erased instructions *)

Lemma NoDup_join_imap {A} (f : nat → A → list nat) (l : list A) k :
  (∀ j x, l !! j = Some x → f j x = [] ∨ f j x = [k + j]) →
  NoDup (mjoin (imap f l)) ∧ ∀ y, y ∈ mjoin (imap f l) → k ≤ y.
Proof.
  revert f k. induction l as [|x l IH]; intros f k Hf.
  { simpl. split; [constructor|]. intros y Hy. by apply elem_of_nil in Hy. }
  rewrite imap_cons. cbn [mjoin list_join].
  destruct (IH (f ∘ S) (S k)) as [Hnd Hge].
  { intros j x' Hj. specialize (Hf (S j) x' Hj). simpl.
    by replace (S (k + j)) with (k + S j) by lia. }
  destruct (Hf 0 x eq_refl) as [-> | ->]; simpl.
  - split; [done|]. intros y Hy. specialize (Hge y Hy). lia.
  - rewrite Nat.add_0_r. split.
    + apply NoDup_cons. split; [|done]. intros Hin. specialize (Hge k Hin). lia.
    + intros y [->|Hy]%elem_of_cons; [lia|]. specialize (Hge y Hy). lia.
Qed.

(** When every predecessor has a single successor edge, no block is listed
    twice among the predecessors. *)
Lemma allPredsHaveSingleSuccessor_NoDup F BB :
  allPredsHaveSingleSuccessor F BB = true → NoDup (getPreds F BB).
Proof.
  intros Hall. unfold allPredsHaveSingleSuccessor in Hall.
  apply Is_true_true, forallb_True in Hall.
  apply (NoDup_join_imap (edgesTo BB) (fnBlocks F) 0). intros j b Hj. simpl.
  unfold edgesTo.
  destruct (filter (λ s, s = BB) (termSuccessors (bbTerm b))) as [|s l] eqn:Hf;
    [by left|]. right.
  assert (Hs : s ∈ filter (λ s, s = BB) (termSuccessors (bbTerm b)))
    by (rewrite Hf; by left).
  apply list_elem_of_filter in Hs as [-> Hs].
  assert (Hpred : j ∈ getPreds F BB) by (apply elem_of_getPreds; eauto).
  pose proof (proj1 (Forall_forall _ _) Hall j Hpred) as Hsingle. simpl in Hsingle.
  apply bool_decide_unpack in Hsingle. unfold getSingleSuccessor, getSuccs in Hsingle.
  rewrite Hj in Hsingle.
  destruct (termSuccessors (bbTerm b)) as [|s0 [|s1 succs]]; [done| |done].
  injection Hsingle as ->. rewrite filter_cons, decide_True in Hf by done.
  injection Hf as <-. done.
Qed.

Lemma numInsts_moveBefore_begin_eq id BB F :
  id ∈ fnInstIds F → is_Some (fnBlocks F !! BB) →
  numInsts (moveBefore_begin id BB F) = numInsts F.
Proof.
  intros Hid HBB. unfold moveBefore_begin.
  destruct (getInst_is_Some F id Hid) as [x ->].
  pose proof (numInsts_eraseFromParent id F Hid).
  assert (is_Some (fnBlocks (eraseFromParent id F) !! BB)) as [b Hb].
  { apply lookup_lt_is_Some. rewrite length_eraseFromParent.
    by apply lookup_lt_is_Some. }
  pose proof (numInsts_updBlockInsts (cons x) BB _ b Hb). simpl in *. lia.
Qed.

Lemma fnInstIds_eraseFromParent_ne id id0 F :
  id ∈ fnInstIds F → id ≠ id0 → id ∈ fnInstIds (eraseFromParent id0 F).
Proof.
  rewrite !fnInstIds_fnInsts. intros (x & -> & Hx)%list_elem_of_fmap Hne.
  apply list_elem_of_fmap_2. by apply elem_of_fnInsts_eraseFromParent.
Qed.

Lemma foldl_erase_count (Dups : list SILInstruction) F :
  NoDup (instId <$> Dups) →
  (∀ D, D ∈ Dups → instId D ∈ fnInstIds F) →
  numInsts (foldl (λ F D, eraseFromParent (instId D) F) F Dups) + length Dups
  = numInsts F.
Proof.
  revert F. induction Dups as [|D Dups IH]; intros F Hnd Hin; simpl; [lia|].
  rewrite fmap_cons in Hnd. apply NoDup_cons in Hnd as [HD Hnd].
  pose proof (numInsts_eraseFromParent (instId D) F (Hin D (list_elem_of_here _ _))).
  assert (Hrest : ∀ D', D' ∈ Dups →
            instId D' ∈ fnInstIds (eraseFromParent (instId D) F)); [|
    specialize (IH (eraseFromParent (instId D) F) Hnd Hrest); lia].
  intros D' HD'. apply fnInstIds_eraseFromParent_ne; [apply Hin; by right|].
  intros Heq. apply HD. rewrite <- Heq. by apply list_elem_of_fmap_2.
Qed.

(** The duplicates found in different predecessors are different
    instructions. *)
Lemma findIdenticalInBlock_NoDup F c Ps ds :
  NoDup (fnInstIds F) → NoDup Ps →
  Forall2 (λ P d, findIdenticalInBlock F P c = Some d) Ps ds →
  NoDup (instId <$> ds).
Proof.
  intros HF HPs Hall. induction Hall as [|P d Ps ds Hfind Hall IH]; [constructor|].
  apply NoDup_cons in HPs as [HP HPs]. rewrite fmap_cons. apply NoDup_cons.
  split; [|by apply IH].
  intros (d' & Hid & Hd')%list_elem_of_fmap.
  apply list_elem_of_lookup in Hd' as [k Hk].
  destruct (Forall2_lookup_r _ _ _ _ _ Hall Hk) as (P' & HP' & Hfind').
  apply findIdenticalInBlock_elem_of in Hfind as (b & Hb & Hdb).
  apply findIdenticalInBlock_elem_of in Hfind' as (b' & Hb' & Hdb').
  apply (NoDup_other_block F (instId d) P b P' b'); [done..| | |].
  - intros ->. apply HP. by eapply list_elem_of_lookup_2.
  - by apply list_elem_of_fmap_2.
  - rewrite Hid. by apply list_elem_of_fmap_2.
Qed.

Lemma scanStep_Sunk_dups BB FirstPred x before st st' :
  scanStep BB FirstPred x before st = StepSunk st' →
  ∃ i Dups,
    x = NInst i ∧
    Forall2 (λ P d, findIdenticalInBlock (stFn st) P i = Some d)
            (filter (λ P, P ≠ FirstPred) (getPreds (stFn st) BB)) Dups ∧
    stFn st' = foldl (λ F D, eraseFromParent (instId D) F)
                 (moveBefore_begin (instId i) BB (stFn st)) Dups ∧
    NumSunk st' = NumSunk st + length Dups.
Proof.
  intros Hstep.
  pose proof Hstep as (i & D & Dups & -> & _ & Hd & ->)%scanStep_Sunk_inv.
  exists i, (D :: Dups).
  destruct (findDups_cases (stFn st) FirstPred i (getPreds (stFn st) BB) [])
    as [H|(ds & H & Hall)]; rewrite Hd in H; [done|]. simpl in H. subst ds.
  split_and!; [done|done| |].
  - unfold sinkDups. rewrite eraseDups_unused; [done|]. simpl.
    intros d Hin Hop%fnOperands_moveBefore_begin_subset.
    by eapply findDups_unused.
  - unfold sinkDups. by rewrite NumSunk_eraseDups.
Qed.

Lemma sinkScan_count fuel BB FirstPred SkipBudget cur st Changed :
  wfIds (stFn st) → NoDup (getPreds (stFn st) BB) →
  is_Some (fnBlocks (stFn st) !! BB) →
  cur `suffix_of` blockNodesBackward (stFn st) FirstPred →
  let r := sinkScan fuel BB FirstPred SkipBudget cur st Changed in
  NumSunk r.1 + numInsts (stFn r.1) = NumSunk st + numInsts (stFn st).
Proof.
  revert SkipBudget cur st Changed.
  induction fuel as [|fuel IH]; intros SkipBudget cur st Changed Hwf Hpreds HBB Hsuf;
    [done|].
  destruct SkipBudget as [|budget]; [done|]. destruct cur as [|x before]; [done|].
  cbn zeta. rewrite sinkScan_unfold.
  destruct (scanStep BB FirstPred x before st) as [st1| |] eqn:Hstep; [|done|].
  - pose proof (scanStep_Sunk_sameCFG _ _ _ _ _ _ Hstep) as Hcfg.
    apply scanStep_Sunk_dups in Hstep as (i & Dups & -> & Hall & HF1 & Hnum).
    assert (Hi : i ∈ fnInsts (stFn st)).
    { apply (elem_of_blockNodesBackward _ FirstPred). destruct Hsuf as [k ->].
      rewrite elem_of_app. right; by left. }
    set (F2 := moveBefore_begin (instId i) BB (stFn st)) in *.
    assert (Hwf2 : wfIds F2) by (by apply wfIds_moveBefore_begin).
    assert (Hwf1 : wfIds (stFn st1)) by (rewrite HF1; by apply wfIds_foldl_erase).
    assert (Hcount : numInsts (stFn st1) + length Dups = numInsts (stFn st)).
    { rewrite HF1, foldl_erase_count.
      - apply numInsts_moveBefore_begin_eq; [by apply elem_of_fnInstIds|done].
      - eapply findIdenticalInBlock_NoDup; [apply Hwf| |done].
        by apply NoDup_filter.
      - intros D HD. apply fnInsts_moveBefore_begin; [done..|].
        apply list_elem_of_lookup in HD as [k Hk].
        destruct (Forall2_lookup_r _ _ _ _ _ Hall Hk) as (P & _ & Hfind).
        apply findIdenticalInBlock_elem_of in Hfind as (b & Hb & HDb).
        apply elem_of_fnInsts. eauto. }
    rewrite IH; [lia|done| | |done].
    + by rewrite (sameCFG_getPreds _ _ BB Hcfg).
    + apply lookup_lt_is_Some. rewrite (proj1 Hcfg). by apply lookup_lt_is_Some.
  - apply IH; [done..|]. by eapply suffix_cons_l.
Qed.

(** X10: in the duplicate-code sinker the statistic counts the erased
    instructions: with well-formed identifiers, [NumSunk] grows by exactly
    the number of instructions the function loses. *)
Theorem sinkCodeFromPredecessors_counts_erased (BB : nat) (st : PassState) :
  wfIds (stFn st) → is_Some (fnBlocks (stFn st) !! BB) →
  NumSunk (sinkCodeFromPredecessors BB st).1
    + numInsts (stFn (sinkCodeFromPredecessors BB st).1)
  = NumSunk st + numInsts (stFn st).
Proof.
  intros Hwf HBB. unfold sinkCodeFromPredecessors.
  destruct (getPreds (stFn st) BB) as [|FirstPred Preds] eqn:HP; [done|].
  destruct (allPredsHaveSingleSuccessor (stFn st) BB) eqn:Hall; [|done]. cbn [negb].
  destruct (fnBlocks (stFn st) !! FirstPred) as [fp|] eqn:Hfp; [|done].
  destruct (bbInsts fp) as [|i0 insts] eqn:Hinsts; [done|].
  apply sinkScan_count; [done| |done|].
  - by apply allPredsHaveSingleSuccessor_NoDup.
  - unfold blockNodesBackward. by rewrite Hfp.
Qed.

(** ** Reference-count sinker: what it leaves alone *)


Lemma extendsWithFresh_refl F : extendsWithFresh F F.
Proof. split_and!; [done|done|done|]. intros x Hx. by left. Qed.

Lemma extendsWithFresh_eraseFromParent F0 id F :
  extendsWithFresh F0 F → extendsWithFresh F0 (eraseFromParent id F).
Proof.
  intros (Hl & Hb & Hn & Hi). split_and!.
  - by rewrite length_eraseFromParent.
  - intros j. rewrite bbTerm_eraseFromParent, bbArgs_eraseFromParent. apply Hb.
  - by rewrite fnNextId_eraseFromParent.
  - intros x Hx%fnInsts_eraseFromParent_subset. by apply Hi.
Qed.

Lemma fnInsts_createInst Builder k F x :
  x ∈ fnInsts (createInst Builder k F).2 → x ∈ fnInsts F ∨ x = mkInst (fnNextId F) k.
Proof.
  set (g := insertInst (insertIdx Builder) (mkInst (fnNextId F) k)).
  intros Hx.
  assert (Hx' : x ∈ fnInsts (updBlockInsts g (insertBB Builder) F)) by exact Hx.
  clear Hx. revert Hx'.
  destruct (fnBlocks F !! insertBB Builder) as [b|] eqn:Hb.
  - destruct (fnInsts_updBlockInsts g (insertBB Builder) F b Hb)
      as (pre & post & -> & ->).
    unfold g, insertInst. rewrite !elem_of_app, elem_of_cons.
    rewrite <- (take_drop (insertIdx Builder) (bbInsts b)) at 3.
    rewrite elem_of_app. tauto.
  - rewrite updBlockInsts_None by done. by left.
Qed.

Lemma extendsWithFresh_createInst F0 Builder k F :
  extendsWithFresh F0 F → extendsWithFresh F0 (createInst Builder k F).2.
Proof.
  intros (Hl & Hb & Hn & Hi). split_and!.
  - by rewrite length_fnBlocks_createInst.
  - intros j. rewrite createInst_fn.
    change (fnBlocks (mkFn ?bs ?n)) with bs.
    rewrite bbTerm_updBlockInsts, bbArgs_updBlockInsts. apply Hb.
  - rewrite fnNextId_createInst. lia.
  - intros x [Hx| ->]%fnInsts_createInst; [by apply Hi|]. right. simpl. lia.
Qed.

(** X14: the reference-count sinker rewrites nothing that exists: after
    [sinkRetainToSuccessors] every block has its arguments and its
    terminator as before, operands included, and every instruction of the
    function is an instruction of the function before, unchanged, or a new
    one whose identifier the allocator had not yet handed out. *)
Theorem sinkRetainToSuccessors_only_adds_fresh
    (AA : AliasAnalysis) (BB : nat) (st : PassState) :
  let F := stFn st in
  let F' := stFn (sinkRetainToSuccessors AA BB st).1 in
  length (fnBlocks F') = length (fnBlocks F) ∧
  (∀ j, bbTerm <$> fnBlocks F' !! j = bbTerm <$> fnBlocks F !! j ∧
        bbArgs <$> fnBlocks F' !! j = bbArgs <$> fnBlocks F !! j) ∧
  fnNextId F ≤ fnNextId F' ∧
  (∀ x, x ∈ fnInsts F' → x ∈ fnInsts F ∨ fnNextId F ≤ instId x).
Proof.
  intros F F'.
  apply (Inv_sinkRetainToSuccessors (extendsWithFresh F)
           (extendsWithFresh_eraseFromParent F)
           (extendsWithFresh_createInst F) AA BB st).
  apply extendsWithFresh_refl.
Qed.

Lemma wfIds_replaceAllUsesWith old new F : wfIds F → wfIds (replaceAllUsesWith old new F).
Proof. unfold wfIds. by rewrite fnInstIds_replaceAllUsesWith. Qed.

(** X15: the pass keeps instruction identifiers well formed: if no two
    instructions share an identifier and the allocator is ahead of all of
    them before [run], the same holds afterwards. *)
Theorem run_preserves_wfIds (AA : AliasAnalysis) (st st' : PassState) (Changed : bool) :
  run AA st = Some (st', Changed) → wfIds (stFn st) → wfIds (stFn st').
Proof.
  apply (Inv_run wfIds).
  - apply wfIds_replaceAllUsesWith.
  - apply wfIds_eraseFromParent.
  - apply wfIds_moveBefore_begin.
  - apply wfIds_createInst.
Qed.

Lemma run_sameCFG AA st st' Changed :
  run AA st = Some (st', Changed) → sameCFG (stFn st) (stFn st').
Proof.
  intros Hrun. apply (Inv_run (sameCFG (stFn st)) ) with (AA := AA) (st := st) (Changed := Changed);
    [..|done|apply sameCFG_refl].
  - intros old new F HF. eapply sameCFG_trans; [done|apply sameCFG_replaceAllUsesWith].
  - intros id F HF. eapply sameCFG_trans; [done|apply sameCFG_eraseFromParent].
  - intros id BB F HF. eapply sameCFG_trans; [done|apply sameCFG_moveBefore_begin].
  - intros B k F HF. eapply sameCFG_trans; [done|apply sameCFG_createInst].
Qed.

(** X16: the pass never changes the control-flow graph: [run] keeps the
    number of blocks, and for every block its number of arguments, its
    successors, its predecessors and the number of operands of its
    terminator. *)
Theorem run_preserves_cfg (AA : AliasAnalysis) (st st' : PassState) (Changed : bool) :
  run AA st = Some (st', Changed) →
  length (fnBlocks (stFn st')) = length (fnBlocks (stFn st)) ∧
  ∀ BB,
    getSuccs (stFn st') BB = getSuccs (stFn st) BB ∧
    getPreds (stFn st') BB = getPreds (stFn st) BB ∧
    bbArgs <$> fnBlocks (stFn st') !! BB = bbArgs <$> fnBlocks (stFn st) !! BB ∧
    (length ∘ termOperands ∘ bbTerm) <$> fnBlocks (stFn st') !! BB
    = (length ∘ termOperands ∘ bbTerm) <$> fnBlocks (stFn st) !! BB.
Proof.
  intros HF%run_sameCFG. split; [apply HF|]. intros BB.
  destruct (sameCFG_lookup _ _ BB HF) as (Ha & _ & Hl).
  split_and!; [by apply sameCFG_getSuccs|by apply sameCFG_getPreds|done|done].
Qed.

(** ** The pass does not fault on a consistent function *)

Lemma checkPreds_is_Some F FirstPred ArgNum FSI Preds acc :
  (∀ P, P ∈ Preds → ∃ pb, fnBlocks F !! P = Some pb ∧
                          ArgNum < length (termOperands (bbTerm pb))) →
  is_Some (checkPreds F FirstPred ArgNum FSI Preds acc).
Proof.
  revert acc. induction Preds as [|P Preds IH]; intros acc HPreds; simpl; [by eauto|].
  assert (HIH : ∀ acc', is_Some (checkPreds F FirstPred ArgNum FSI Preds acc')).
  { intros acc'. apply IH. intros P' HP'. apply HPreds. by right. }
  case_decide; [done|].
  destruct (HPreds P) as (pb & -> & Hlt); [by left|]. simpl.
  destruct (negb _ && negb _); [by eauto|].
  unfold getOperand. destruct (lookup_lt_is_Some_2 _ _ Hlt) as [Arg ->]. simpl.
  destruct (getDef F Arg) as [SI|]; [|by eauto].
  destruct (hasOneUse F _ && isIdenticalTo SI FSI); [done|by eauto].
Qed.

Lemma sinkArgument_is_Some BB ArgNum st b :
  fnBlocks (stFn st) !! BB = Some b → ArgNum < bbArgs b →
  getPreds (stFn st) BB ≠ [] → operandsCoverArgs (stFn st) →
  is_Some (sinkArgument BB ArgNum st).
Proof.
  intros Hb Harg Hpreds Hcov.
  assert (Hops : ∀ P, P ∈ getPreds (stFn st) BB →
            ∃ pb, fnBlocks (stFn st) !! P = Some pb ∧
                  ArgNum < length (termOperands (bbTerm pb))).
  { intros P (pb & Hpb & Hs)%elem_of_getPreds.
    destruct (Hcov P pb BB Hpb Hs) as (b0 & Hb0 & Hle).
    exists pb. split; [done|]. rewrite Hb in Hb0. injection Hb0 as <-. lia. }
  unfold sinkArgument. rewrite Hb. cbn [mbind option_bind].
  rewrite option_guard_True by done. cbn [mbind option_bind].
  destruct (getPreds (stFn st) BB) as [|FirstPred Preds] eqn:HP; [done|].
  cbn [head mbind option_bind].
  destruct (Hops FirstPred) as (fp & -> & Hlt); [by left|]. cbn [mbind option_bind].
  unfold getOperand at 1. destruct (lookup_lt_is_Some_2 _ _ Hlt) as [Arg ->].
  cbn [mbind option_bind].
  destruct (getDef (stFn st) Arg) as [FSI|]; [|by eauto].
  destruct (negb _); [by eauto|]. destruct (mayHaveSideEffects _); [by eauto|].
  destruct (checkPreds_is_Some (stFn st) FirstPred ArgNum FSI (FirstPred :: Preds)
              [Arg] Hops) as [r ->].
  cbn [mbind option_bind]. destruct r; by eauto.
Qed.

Lemma sinkArguments_is_Some F0 BB b ArgNums st Changed :
  operandsCoverArgs F0 → fnBlocks F0 !! BB = Some b → getPreds F0 BB ≠ [] →
  Forall (λ i, i < bbArgs b) ArgNums →
  sameCFG F0 (stFn st) →
  is_Some (sinkArguments BB ArgNums st Changed).
Proof.
  intros Hcov Hb Hpreds. revert st Changed.
  induction ArgNums as [|i ArgNums IH]; intros st Changed Hargs HF; simpl; [by eauto|].
  apply Forall_cons in Hargs as [Hi Hargs].
  destruct (proj2 HF BB b Hb) as (b' & g & Hb' & Ha & _).
  destruct (sinkArgument_is_Some BB i st b') as [[st1 c] Harg].
  - done.
  - by rewrite Ha.
  - by rewrite (sameCFG_getPreds _ _ BB HF).
  - by eapply sameCFG_operandsCoverArgs.
  - rewrite Harg. simpl. apply IH; [done|].
    apply (Inv_sinkArgument (sameCFG F0)) with (BB := BB) (ArgNum := i) (st := st) (c := c);
      [..|done|done].
    + intros old new F HF'. eapply sameCFG_trans; [done|apply sameCFG_replaceAllUsesWith].
    + intros id F HF'. eapply sameCFG_trans; [done|apply sameCFG_eraseFromParent].
    + intros id B F HF'. eapply sameCFG_trans; [done|apply sameCFG_moveBefore_begin].
Qed.

Lemma sinkArgumentsFromPredecessors_is_Some BB st :
  operandsCoverArgs (stFn st) → BB < length (fnBlocks (stFn st)) →
  is_Some (sinkArgumentsFromPredecessors BB st).
Proof.
  intros Hcov [b Hb]%lookup_lt_is_Some. unfold sinkArgumentsFromPredecessors.
  destruct (getPreds (stFn st) BB) as [|P1 [|P2 Preds]] eqn:HP; [by eauto..|].
  destruct (negb _); [by eauto|]. rewrite Hb. cbn [mbind option_bind].
  apply (sinkArguments_is_Some (stFn st) BB b); [done|done| |..|apply sameCFG_refl].
  - by rewrite HP.
  - apply Forall_seq. intros j Hj. lia.
Qed.

Section NoFault.
Context (AA : AliasAnalysis).

Lemma runOnBlocks_is_Some F0 BBs st Changed :
  operandsCoverArgs F0 → Forall (λ BB, BB < length (fnBlocks F0)) BBs →
  sameCFG F0 (stFn st) →
  is_Some (runOnBlocks AA BBs st Changed).
Proof.
  intros Hcov. revert st Changed.
  induction BBs as [|BB BBs IH]; intros st Changed HBBs HF; simpl; [by eauto|].
  apply Forall_cons in HBBs as [HBB HBBs].
  assert (Hprim : (∀ old new F, sameCFG F0 F → sameCFG F0 (replaceAllUsesWith old new F)) ∧
                  (∀ id F, sameCFG F0 F → sameCFG F0 (eraseFromParent id F)) ∧
                  (∀ id B F, sameCFG F0 F → sameCFG F0 (moveBefore_begin id B F)) ∧
                  (∀ B k F, sameCFG F0 F → sameCFG F0 (createInst B k F).2)).
  { split_and!; intros; (eapply sameCFG_trans; [done|]).
    - apply sameCFG_replaceAllUsesWith.
    - apply sameCFG_eraseFromParent.
    - apply sameCFG_moveBefore_begin.
    - apply sameCFG_createInst. }
  destruct Hprim as (H1 & H2 & H3 & H4).
  assert (is_Some (runOnBlock AA BB st Changed)) as [[st1 c1] Hblock].
  { unfold runOnBlock.
    pose proof (Inv_sinkCodeFromPredecessors (sameCFG F0) H1 H2 H3 BB st HF) as HF1.
    destruct (sinkArgumentsFromPredecessors_is_Some BB (sinkCodeFromPredecessors BB st).1)
      as [[st2 c2] ->].
    - by eapply sameCFG_operandsCoverArgs.
    - by rewrite (proj1 HF1).
    - simpl. by eauto. }
  rewrite Hblock. simpl. apply IH; [done|].
  by eapply (Inv_runOnBlock (sameCFG F0)).
Qed.

(** X17: on a function in which every edge leads to a block of the function
    and passes at least as many operands as that block has arguments, the
    pass does not fault: no operand is read out of range. *)
Theorem run_does_not_fault (st : PassState) :
  operandsCoverArgs (stFn st) → is_Some (run AA st).
Proof.
  intros Hcov. unfold run.
  destruct (runOnBlocks_is_Some (stFn st) (seq 0 (length (fnBlocks (stFn st)))) st false)
    as [[st1 c1] ->]; [done| |apply sameCFG_refl|by eauto].
  apply Forall_seq. intros j Hj. lia.
Qed.

End NoFault.

Module LocalCapturesFacts.
Import CaptureInfo LocalCaptures.

Lemma foldl_pushLocalCapture FC Captures Result :
  foldl (pushLocalCapture FC) Result Captures
  = Result ++ ((λ VD, (VD, isDirectCapture FC VD))
                 <$> filter (λ VD, isLocalContext (declOf VD) = true) Captures).
Proof.
  revert Result. induction Captures as [|VD Captures IH]; intros Result; simpl.
  { by rewrite app_nil_r. }
  rewrite IH, filter_cons. unfold pushLocalCapture.
  destruct (isLocalContext (declOf VD)) eqn:Hloc.
  - rewrite decide_True by done. simpl. by rewrite <- app_assoc.
  - by rewrite decide_False.
Qed.

Lemma hasLocalCaptures_false Captures :
  hasLocalCaptures Captures = false ↔
  filter (λ VD, isLocalContext (declOf VD) = true) Captures = [].
Proof.
  unfold hasLocalCaptures, CaptureInfo.hasLocalCaptures.
  induction Captures as [|VD Captures IH]; [done|]. simpl.
  rewrite filter_cons. destruct (isLocalContext (declOf VD)) eqn:Hloc.
  - rewrite decide_True by done. split; done.
  - by rewrite decide_False.
Qed.

Lemma getLocalCaptures_filter Captures FC Result :
  getLocalCaptures Captures FC Result
  = Result ++ ((λ VD, (VD, isDirectCapture FC VD))
                 <$> filter (λ VD, isLocalContext (declOf VD) = true) Captures).
Proof.
  unfold getLocalCaptures. destruct (hasLocalCaptures Captures) eqn:Hhas; simpl.
  - apply foldl_pushLocalCapture.
  - apply hasLocalCaptures_false in Hhas. by rewrite Hhas, app_nil_r.
Qed.

(** X1: [getLocalCaptures] appends to [Result] exactly the captures whose
    context is local, in the order of the capture list, each with its
    direct-capture flag: what was in [Result] stays in front and a capture
    from a global context is never appended.  The early return when there
    is no local capture agrees with the loop. *)
Theorem getLocalCaptures_appends_local_captures
    (Captures : list DeclRef) (FuncContext : option FuncDecl)
    (Result : list LocalCaptureTy) :
  getLocalCaptures Captures FuncContext Result
  = Result ++ ((λ VD, (VD, isDirectCapture FuncContext VD))
                 <$> filter (λ VD, isLocalContext (declOf VD) = true) Captures) ∧
  getLocalCaptures Captures FuncContext Result
  = foldl (pushLocalCapture FuncContext) Result Captures.
Proof.
  split; [apply getLocalCaptures_filter|].
  by rewrite getLocalCaptures_filter, foldl_pushLocalCapture.
Qed.

(** X2: into an empty result, a capture comes out flagged as direct exactly
    when it is a local capture and the function context is an accessor
    whose storage declaration is that capture; without a function context
    no capture is direct. *)
Theorem getLocalCaptures_direct_capture
    (Captures : list DeclRef) (FuncContext : option FuncDecl) (VD : DeclRef) :
  (VD, true) ∈ getLocalCaptures Captures FuncContext [] ↔
  VD ∈ Captures ∧ isLocalContext (declOf VD) = true ∧
  ∃ FD, FuncContext = Some FD ∧ getAccessorStorageDecl FD = Some (declAddr VD).
Proof.
  rewrite getLocalCaptures_filter, app_nil_l, list_elem_of_fmap.
  split.
  - intros (VD' & [= <- Hflag] & [Hloc Hin]%list_elem_of_filter).
    split_and!; [done..|]. unfold isDirectCapture in Hflag.
    destruct FuncContext as [FD|]; [|done].
    destruct (getAccessorStorageDecl FD) as [ASD|] eqn:HASD; [|done].
    symmetry in Hflag. apply bool_decide_eq_true_1 in Hflag as ->. by exists FD.
  - intros (Hin & Hloc & FD & -> & HASD). exists VD. split.
    + unfold isDirectCapture. rewrite HASD. by rewrite bool_decide_eq_true_2.
    + by apply list_elem_of_filter.
Qed.

(** X3: [hasLocalCaptures] answers false exactly when no capture has a
    local context, and exactly then [getLocalCaptures] leaves the result
    vector as it was. *)
Theorem hasLocalCaptures_iff_some_capture_is_local
    (Captures : list DeclRef) (FuncContext : option FuncDecl)
    (Result : list LocalCaptureTy) :
  (hasLocalCaptures Captures = false ↔
   Forall (λ VD, isLocalContext (declOf VD) = false) Captures) ∧
  (hasLocalCaptures Captures = false ↔
   getLocalCaptures Captures FuncContext Result = Result).
Proof.
  split.
  - rewrite hasLocalCaptures_false. induction Captures as [|VD Captures IH]; [done|].
    rewrite filter_cons, Forall_cons.
    destruct (isLocalContext (declOf VD)) eqn:Hloc.
    + rewrite decide_True by done. split; [done|]. by intros [? _].
    + rewrite decide_False by done. rewrite IH. split; [done|]. by intros [_ ?].
  - rewrite hasLocalCaptures_false, getLocalCaptures_filter. split.
    + intros ->. by rewrite app_nil_r.
    + intros Heq. apply (f_equal length) in Heq.
      rewrite length_app, length_fmap in Heq.
      apply length_zero_iff_nil. lia.
Qed.

End LocalCapturesFacts.

(** ** The further properties on the examples *)

(** Witness of X5: block 1 of [exQuiet] has block 0 as its only
    predecessor. *)
Lemma sinkCodeFromPredecessors_single_predecessor_witness :
  sinkCodeFromPredecessors 1 exQuiet = (exQuiet, false).
Proof. apply (sinkCodeFromPredecessors_single_predecessor 1 0). reflexivity. Defined.

(** Witness of X7: the scan of the predecessors of block 2 of
    [exTwoPreds]. *)
Lemma sinkCodeFromPredecessors_scan_ends_witness :
  ∃ c,
    rtc (scanNext 2 0)
        (mkConfig SinkSearchWindow (blockNodesBackward (stFn exTwoPreds) 0)
           exTwoPreds false) c ∧
    (∀ c', ¬ scanNext 2 0 c c') ∧
    ∀ fuel, scanFuel (stFn exTwoPreds) ≤ fuel →
      sinkScan fuel 2 0 SinkSearchWindow
        (blockNodesBackward (stFn exTwoPreds) 0) exTwoPreds false
      = (cfgState c, cfgChanged c).
Proof.
  apply (sinkCodeFromPredecessors_scan_ends 2 0 exTwoPreds).
  eexists. reflexivity.
Defined.

(** Witness of X9: in [exSkip] the scan has passed the terminator and an
    unmatched instruction when it sinks [exPure 10]; one instruction stands
    between the candidate and the terminator. *)
Lemma duplicate_sinker_search_window_witness :
  ∃ i, NInst (exPure 10) = NInst i ∧
    (∃ fb pre post,
       fnBlocks (stFn exSkip) !! 0 = Some fb ∧
       bbInsts fb = pre ++ i :: post ∧
       length post + 2 ≤ SinkSearchWindow) ∧
    (∀ D, D ∈ dupsFor 2 0 (NInst (exPure 10)) exSkip →
       ∃ P b pre post,
         P ∈ getPreds (stFn exSkip) 2 ∧
         fnBlocks (stFn exSkip) !! P = Some b ∧
         bbInsts b = pre ++ D :: post ∧
         length post + 2 ≤ SinkSearchWindow).
Proof.
  destruct (duplicate_sinker_search_window 2 0 exSkip
              (mkConfig 4 [NInst (exPure 10)] exSkip false) exSkip_reaches)
    as [_ Hsunk].
  apply (Hsunk 3 (NInst (exPure 10)) [] (sinkDups 2 (exPure 10) [exPure 11] exSkip));
    reflexivity.
Defined.

(** Witness of X10: the duplicate-code sinker on block 2 of [exTwoPreds]
    erases one of the two instructions and counts it. *)
Lemma sinkCodeFromPredecessors_counts_erased_witness :
  NumSunk (sinkCodeFromPredecessors 2 exTwoPreds).1
    + numInsts (stFn (sinkCodeFromPredecessors 2 exTwoPreds).1)
  = NumSunk exTwoPreds + numInsts (stFn exTwoPreds).
Proof.
  apply (sinkCodeFromPredecessors_counts_erased 2 exTwoPreds).
  - exact exTwoPreds_wfIds.
  - eexists. reflexivity.
Defined.

(** Witness of X12: argument 0 of block 2 of [exArgs] is sunk; the first
    predecessor passes a single-use value. *)
Lemma sinkArgument_sinks_single_use_values_witness :
  ∃ pb SI,
    fnBlocks (stFn exArgs) !! 0 = Some pb ∧
    getOperand (bbTerm pb) 0 = Some (InstResult (instId SI)) ∧
    SI ∈ fnInsts (stFn exArgs) ∧
    hasOneUse (stFn exArgs) (InstResult (instId SI)) = true ∧
    mayHaveSideEffects (instKind SI) = false.
Proof.
  destruct (sinkArgument_sinks_single_use_values 2 0 exArgs exArgsSunk) as [_ Hpreds].
  - reflexivity.
  - apply (Hpreds 0). vm_compute. apply list_elem_of_here.
Defined.

(** Witness of X13: for a [release_value] and a case with a payload the
    projection and a [release_value] of it are emitted at the start of
    block 1 of [exSwitchRetain]. *)
Lemma createRefCountOpForPayload_emits_witness :
  bbInsts <$> fnBlocks (createRefCountOpForPayload (setInsertionPoint_begin 1)
                          exReleaseValue exSome (stFn exSwitchRetain)) !! 1
  = Some [mkInst 20 (UncheckedEnumDataInst (BBArg 0 0) exSome);
          mkInst 21 (ReleaseValueInst (InstResult 20));
          exPure 11].
Proof.
  rewrite (createRefCountOpForPayload_emits (setInsertionPoint_begin 1)
             exReleaseValue exSome (stFn exSwitchRetain)
             (mkBB 0 [exPure 11] exReturn) eq_refl (Nat.le_0_l _)).
  reflexivity.
Defined.

(** Witness of X15: the identifiers are well formed after the run on
    [exTwoPreds]. *)
Lemma run_preserves_wfIds_witness :
  wfIds (stFn (invalidateAnalysis (sinkCodeFromPredecessors 2 exTwoPreds).1)).
Proof.
  apply (run_preserves_wfIds exNoAlias exTwoPreds _ true).
  - reflexivity.
  - exact exTwoPreds_wfIds.
Defined.

(** Witness of X16: block 2 has the same predecessors after the run on
    [exTwoPreds]. *)
Lemma run_preserves_cfg_witness :
  getPreds (stFn (invalidateAnalysis (sinkCodeFromPredecessors 2 exTwoPreds).1)) 2
  = getPreds (stFn exTwoPreds) 2.
Proof.
  destruct (run_preserves_cfg exNoAlias exTwoPreds
              (invalidateAnalysis (sinkCodeFromPredecessors 2 exTwoPreds).1) true)
    as [_ Hblocks].
  - reflexivity.
  - destruct (Hblocks 2) as (_ & Hpreds & _). exact Hpreds.
Defined.

Lemma exArgs_operandsCoverArgs : operandsCoverArgs (stFn exArgs).
Proof.
  intros P pb BB HP HBB.
  destruct P as [|[|[|P]]]; simpl in HP; [| | |done]; injection HP as <-;
    simpl in HBB.
  - apply list_elem_of_singleton in HBB as ->. eexists. split; [reflexivity|].
    simpl. lia.
  - apply list_elem_of_singleton in HBB as ->. eexists. split; [reflexivity|].
    simpl. lia.
  - by apply elem_of_nil in HBB.
Defined.

(** Witness of X17: the run on [exArgs] does not fault. *)
Lemma run_does_not_fault_witness : is_Some (run exNoAlias exArgs).
Proof. apply (run_does_not_fault exNoAlias exArgs). exact exArgs_operandsCoverArgs. Defined.

(** ** Reference-count sinker: the increments on a path *)

Section NetCount.
Context (Ptr : SILValue).

Lemma retainsIn_createInst_begin s F j :
  is_Some (fnBlocks F !! j) →
  retainsIn Ptr (createInst (setInsertionPoint_begin s) (StrongRetainInst Ptr) F).2 j
  = retainsIn Ptr F j + (if decide (s = j) then 1 else 0).
Proof.
  intros [bj Hj]. unfold retainsIn. rewrite lookup_createInst_begin, Hj.
  case_decide; simpl; [|lia]. rewrite filter_cons, decide_True by done. simpl. lia.
Qed.

Lemma is_Some_createInst Builder k F j :
  is_Some (fnBlocks F !! j) → is_Some (fnBlocks (createInst Builder k F).2 !! j).
Proof.
  intros Hj. apply lookup_lt_is_Some. rewrite length_fnBlocks_createInst.
  by apply lookup_lt_is_Some.
Qed.

Lemma retainsIn_sinkToSuccessors Succs F j :
  is_Some (fnBlocks F !! j) →
  retainsIn Ptr (sinkToSuccessors Ptr Succs F) j
  = retainsIn Ptr F j + length (filter (λ s, s = j) Succs).
Proof.
  revert F. induction Succs as [|s Succs IH]; intros F Hj; [simpl; lia|].
  rewrite sinkToSuccessors_cons, IH by (by apply is_Some_createInst).
  rewrite retainsIn_createInst_begin by done. rewrite filter_cons.
  case_decide; simpl; lia.
Qed.

Lemma elem_of_sinkToSuccessors Succs F BB b Inst :
  fnBlocks F !! BB = Some b → Inst ∈ bbInsts b →
  ∃ b1, fnBlocks (sinkToSuccessors Ptr Succs F) !! BB = Some b1 ∧ Inst ∈ bbInsts b1.
Proof.
  revert F b. induction Succs as [|s Succs IH]; intros F b Hb Hin; [by eauto|].
  rewrite sinkToSuccessors_cons.
  destruct (decide (s = BB)) as [->|Hne].
  - eapply IH.
    + by rewrite lookup_createInst_begin, decide_True, Hb.
    + simpl. by right.
  - eapply IH; [|done]. by rewrite lookup_createInst_begin, decide_False.
Qed.

Lemma filter_removeInst (Q : SILInstruction → Prop) `{∀ x, Decision (Q x)} Inst l :
  NoDup (instId <$> l) → Inst ∈ l →
  length (filter Q (removeInst (instId Inst) l)) + (if decide (Q Inst) then 1 else 0)
  = length (filter Q l).
Proof.
  induction l as [|x l IH]; intros Hnd Hin; [by apply elem_of_nil in Hin|].
  rewrite fmap_cons in Hnd. apply NoDup_cons in Hnd as [Hx Hnd]. simpl.
  destruct (decide (instId x = instId Inst)) as [Heq|Hne].
  - assert (Inst = x) as ->.
    { apply elem_of_cons in Hin as [?|Hin]; [done|]. destruct Hx.
      rewrite Heq. by apply list_elem_of_fmap_2. }
    rewrite filter_cons. destruct (decide (Q x)); simpl; lia.
  - apply elem_of_cons in Hin as [->|Hin]; [done|].
    specialize (IH Hnd Hin). rewrite !filter_cons.
    destruct (decide (Q x)); simpl; lia.
Qed.

Lemma NoDup_bbInstIds F BB b :
  NoDup (fnInstIds F) → fnBlocks F !! BB = Some b → NoDup (bbInstIds b).
Proof.
  intros Hnd Hb.
  destruct (fnInstIds_updBlockInsts (λ l, l) BB F b Hb) as (pre & post & Hids & _).
  rewrite Hids in Hnd. apply NoDup_app in Hnd as (_ & _ & Hnd).
  by apply NoDup_app in Hnd as (Hnd & _).
Qed.

Lemma retainsIn_eraseFromParent F BB b Inst j :
  NoDup (fnInstIds F) → fnBlocks F !! BB = Some b → Inst ∈ bbInsts b →
  instKind Inst = StrongRetainInst Ptr →
  retainsIn Ptr (eraseFromParent (instId Inst) F) j + (if decide (j = BB) then 1 else 0)
  = retainsIn Ptr F j.
Proof.
  intros Hnd Hb Hin Hkind.
  rewrite (eraseFromParent_NoDup F (instId Inst) BB b Hnd Hb)
    by (by apply list_elem_of_fmap_2).
  unfold retainsIn. rewrite lookup_updBlockInsts.
  destruct (decide (j = BB)) as [->|Hne].
  - rewrite decide_True, Hb by done. simpl.
    rewrite <- (filter_removeInst (λ i, instKind i = StrongRetainInst Ptr) Inst (bbInsts b));
      [|by eapply NoDup_bbInstIds|done].
    by rewrite decide_True.
  - rewrite decide_False by done. lia.
Qed.

End NetCount.

Lemma wfIds_sinkToSuccessors Ptr Succs F :
  wfIds F → wfIds (sinkToSuccessors Ptr Succs F).
Proof.
  revert F. induction Succs as [|s Succs IH]; intros F HF; [done|].
  rewrite sinkToSuccessors_cons. by apply IH, wfIds_createInst.
Qed.

Lemma instsKept_createInst Gone Builder k F :
  instsKept (λ v, v) Gone F (createInst Builder k F).2.
Proof.
  intros j b x Hb Hx Hg.
  destruct (instsKept_updBlockInsts Gone
              (insertInst (insertIdx Builder) (mkInst (fnNextId F) k))
              (insertBB Builder) F) with (j := j) (b := b) (x := x)
    as (b' & Hb' & Hin); [|done..|by exists b'].
  intros l y Hy _. unfold insertInst. rewrite <- (take_drop (insertIdx Builder) l) in Hy.
  apply elem_of_app in Hy as [Hy|Hy]; apply elem_of_app; [by left|].
  right. by right.
Qed.

Lemma instsKept_createRefCountOp Gone Builder Inst e F :
  instsKept (λ v, v) Gone F (createRefCountOpForPayload Builder Inst e F).
Proof.
  unfold createRefCountOpForPayload. destruct (negb _); [apply instsKept_refl|].
  destruct (createInst Builder _ F) as [[u b1] f1] eqn:H1.
  assert (f1 = (createInst Builder
                  (UncheckedEnumDataInst (getOperand0 Inst) e) F).2) as ->
    by (by rewrite H1).
  destruct (isaRetainValueInst Inst);
    (eapply instsKept_id_trans; [apply instsKept_createInst|apply instsKept_createInst]).
Qed.

Lemma instsKept_sinkAcrossCases Gone Inst Cases F :
  instsKept (λ v, v) Gone F (sinkAcrossCases Inst Cases F).
Proof.
  revert F. induction Cases as [|c Cases IH]; intros F; [apply instsKept_refl|].
  rewrite sinkAcrossCases_cons.
  eapply instsKept_id_trans; [apply instsKept_createRefCountOp|apply IH].
Qed.

Lemma instsKept_sinkToSuccessors Gone Ptr Succs F :
  instsKept (λ v, v) Gone F (sinkToSuccessors Ptr Succs F).
Proof.
  revert F. induction Succs as [|s Succs IH]; intros F; [apply instsKept_refl|].
  rewrite sinkToSuccessors_cons.
  eapply instsKept_id_trans; [apply instsKept_createInst|apply IH].
Qed.

Lemma instsKept_tryToSinkRefCountInst AA BB T Inst st :
  instsKept (λ v, v) (λ d, d = instId Inst) (stFn st)
    (stFn (tryToSinkRefCountInst AA BB T Inst st).1).
Proof.
  unfold tryToSinkRefCountInst, tryToSinkRefCountAcrossSwitch.
  repeat (case_match; try apply instsKept_refl); simpl;
    (eapply instsKept_id_trans; [|by apply instsKept_eraseFromParent]);
    first [apply instsKept_sinkAcrossCases|apply instsKept_sinkToSuccessors].
Qed.

Section RetainsMoved.
Context (Ptr : SILValue).

Lemma retainsIn_None F j : fnBlocks F !! j = None → retainsIn Ptr F j = 0.
Proof. unfold retainsIn. by intros ->. Qed.

Lemma retainsIn_length F F' j :
  length (fnBlocks F') = length (fnBlocks F) → fnBlocks F !! j = None →
  retainsIn Ptr F' j = retainsIn Ptr F j.
Proof.
  intros Hl Hj. rewrite !retainsIn_None; [done..|].
  apply lookup_ge_None. rewrite Hl. by apply lookup_ge_None.
Qed.

Lemma retainsIn_createInst_other Builder k F j :
  k ≠ StrongRetainInst Ptr →
  retainsIn Ptr (createInst Builder k F).2 j = retainsIn Ptr F j.
Proof.
  intros Hk. unfold retainsIn. rewrite createInst_fn. simpl.
  change (alter ?f ?i (fnBlocks F)) with (fnBlocks (updBlockInsts
    (insertInst (insertIdx Builder) (mkInst (fnNextId F) k)) i F)).
  rewrite lookup_updBlockInsts. case_decide; [|done].
  destruct (fnBlocks F !! j) as [b|]; [|done]. simpl. unfold insertInst.
  rewrite filter_app, filter_cons, decide_False by done.
  rewrite <- filter_app, take_drop. done.
Qed.

Lemma retainsIn_createRefCountOp Builder Inst e F j :
  retainsIn Ptr (createRefCountOpForPayload Builder Inst e F) j = retainsIn Ptr F j.
Proof.
  unfold createRefCountOpForPayload. destruct (negb _); [done|].
  destruct (createInst Builder _ F) as [[u b1] f1] eqn:H1.
  assert (f1 = (createInst Builder
                  (UncheckedEnumDataInst (getOperand0 Inst) e) F).2) as ->
    by (by rewrite H1).
  destruct (isaRetainValueInst Inst); by rewrite !retainsIn_createInst_other.
Qed.

Lemma retainsIn_sinkAcrossCases Inst Cases F j :
  retainsIn Ptr (sinkAcrossCases Inst Cases F) j = retainsIn Ptr F j.
Proof.
  revert F. induction Cases as [|c Cases IH]; intros F; [done|].
  by rewrite sinkAcrossCases_cons, IH, retainsIn_createRefCountOp.
Qed.

Lemma retainsIn_sinkToSuccessors_other Ptr0 Succs F j :
  Ptr0 ≠ Ptr →
  retainsIn Ptr (sinkToSuccessors Ptr0 Succs F) j = retainsIn Ptr F j.
Proof.
  intros Hne. revert F. induction Succs as [|s Succs IH]; intros F; [done|].
  rewrite sinkToSuccessors_cons, IH, retainsIn_createInst_other; [done|congruence].
Qed.

Lemma retainsIn_eraseFromParent_other F BB b Inst j :
  NoDup (fnInstIds F) → fnBlocks F !! BB = Some b → Inst ∈ bbInsts b →
  instKind Inst ≠ StrongRetainInst Ptr →
  retainsIn Ptr (eraseFromParent (instId Inst) F) j = retainsIn Ptr F j.
Proof.
  intros Hnd Hb Hin Hkind.
  rewrite (eraseFromParent_NoDup F (instId Inst) BB b Hnd Hb)
    by (by apply list_elem_of_fmap_2).
  unfold retainsIn. rewrite lookup_updBlockInsts.
  case_decide as Hj; [|done]. subst j. rewrite Hb. simpl.
  pose proof (filter_removeInst (λ i, instKind i = StrongRetainInst Ptr) Inst (bbInsts b))
    as Hf.
  rewrite decide_False in Hf by done. rewrite <- Hf; [lia| |done].
  by eapply NoDup_bbInstIds.
Qed.

Lemma filter_eq_NoDup (j : nat) (l : list nat) :
  NoDup l → length (filter (λ s, s = j) l) = if decide (j ∈ l) then 1 else 0.
Proof.
  induction 1 as [|x l Hx Hnd IH]; [done|]. rewrite filter_cons.
  destruct (decide (x = j)) as [->|Hne]; simpl.
  - rewrite IH. rewrite decide_False by done. rewrite decide_True; [done|by left].
  - rewrite IH. destruct (decide (j ∈ l)).
    + rewrite decide_True; [done|by right].
    + rewrite decide_False; [done|]. intros [?|?]%elem_of_cons; congruence.
Qed.

Lemma retainsMoved_refl BB Succs F : retainsMoved Ptr BB Succs 0 F F.
Proof. split_and!; [lia|intros; lia|done]. Qed.

Lemma retainsMoved_trans BB Succs n m F F' F'' :
  retainsMoved Ptr BB Succs n F F' → retainsMoved Ptr BB Succs m F' F'' →
  retainsMoved Ptr BB Succs (n + m) F F''.
Proof.
  intros (H1 & H2 & H3) (H1' & H2' & H3'). split_and!.
  - lia.
  - intros s Hs. rewrite (H2' s Hs), (H2 s Hs). lia.
  - intros j Hj Hs. by rewrite (H3' j Hj Hs), (H3 j Hj Hs).
Qed.

Lemma retainsMoved_same BB Succs F F' :
  (∀ j, retainsIn Ptr F' j = retainsIn Ptr F j) → retainsMoved Ptr BB Succs 0 F F'.
Proof. intros H. split_and!; [rewrite H; lia|intros; rewrite H; lia|intros; apply H]. Qed.

Context (AA : AliasAnalysis).

(** One attempt of the reference-count sinker moves at most one
    [strong_retain] of [Ptr] from the block to its successors. *)
Lemma tryToSinkRefCountInst_retainsMoved BB T Inst st b :
  wfIds (stFn st) →
  fnBlocks (stFn st) !! BB = Some b → Inst ∈ bbInsts b →
  NoDup (getSuccs (stFn st) BB) → BB ∉ getSuccs (stFn st) BB →
  (∀ s, s ∈ getSuccs (stFn st) BB → s < length (fnBlocks (stFn st))) →
  ∃ n, n ≤ 1 ∧
    retainsMoved Ptr BB (getSuccs (stFn st) BB) n (stFn st)
      (stFn (tryToSinkRefCountInst AA BB T Inst st).1).
Proof.
  intros Hwf Hb Hin Hnd Hself Hex.
  set (F := stFn st) in *. set (Succs := getSuccs F BB) in *.
  assert (Hswitch : ∀ Cases,
    retainsMoved Ptr BB Succs 0 F
      (eraseFromParent (instId Inst) (sinkAcrossCases Inst Cases F)) ∨
    isaRetainValueInst Inst = false).
  { intros Cases. destruct (isaRetainValueInst Inst) eqn:Hrv; [left|by right].
    apply retainsMoved_same. intros j.
    destruct (instsKept_sinkAcrossCases (λ _, False) Inst Cases F BB b Inst Hb Hin)
      as (b1 & Hb1 & Hin1); [tauto|]. rewrite mapInst_id in Hin1.
    rewrite (retainsIn_eraseFromParent_other _ BB b1 Inst j), retainsIn_sinkAcrossCases;
      [done|apply wfIds_sinkAcrossCases; by auto|done|done|].
    unfold isaRetainValueInst in Hrv. by destruct (instKind Inst). }
  assert (Hstrong : ∀ Ptr0, instKind Inst = StrongRetainInst Ptr0 →
    ∃ n, n ≤ 1 ∧ retainsMoved Ptr BB Succs n F
      (eraseFromParent (instId Inst) (sinkToSuccessors Ptr0 Succs F))).
  { intros Ptr0 Hkind.
    destruct (instsKept_sinkToSuccessors (λ _, False) Ptr0 Succs F BB b Inst Hb Hin)
      as (b1 & Hb1 & Hin1); [tauto|]. rewrite mapInst_id in Hin1.
    pose proof (wfIds_sinkToSuccessors Ptr0 Succs F Hwf) as [Hnd1 _].
    destruct (decide (Ptr0 = Ptr)) as [->|Hne].
    - exists 1. split; [done|].
      assert (Heq : ∀ j, is_Some (fnBlocks F !! j) →
        retainsIn Ptr (eraseFromParent (instId Inst) (sinkToSuccessors Ptr Succs F)) j
        + (if decide (j = BB) then 1 else 0)
        = retainsIn Ptr F j + (if decide (j ∈ Succs) then 1 else 0)).
      { intros j Hj.
        rewrite (retainsIn_eraseFromParent Ptr _ BB b1 Inst j) by done.
        rewrite retainsIn_sinkToSuccessors by done. by rewrite filter_eq_NoDup. }
      split_and!.
      + specialize (Heq BB (mk_is_Some _ _ Hb)).
        rewrite decide_True in Heq by done. rewrite decide_False in Heq by done. lia.
      + intros s Hs. specialize (Heq s (proj2 (lookup_lt_is_Some _ _) (Hex s Hs))).
        rewrite decide_False in Heq by (by intros ->).
        rewrite decide_True in Heq by done. lia.
      + intros j Hj Hs. destruct (fnBlocks F !! j) as [bj|] eqn:Hbj.
        * specialize (Heq j). rewrite Hbj in Heq. specialize (Heq (mk_is_Some _ _ eq_refl)).
          rewrite !decide_False in Heq by done. lia.
        * apply retainsIn_length; [|done].
          rewrite length_eraseFromParent.
          apply (sinkToSuccessors_facts Ptr Succs F).
    - exists 0. split; [lia|]. apply retainsMoved_same. intros j.
      rewrite (retainsIn_eraseFromParent_other _ BB b1 Inst j),
        retainsIn_sinkToSuccessors_other; [done..|].
      rewrite Hkind. congruence. }
  unfold tryToSinkRefCountInst, tryToSinkRefCountAcrossSwitch. fold F Succs.
  destruct T as [| |SOp Cases d| |]; simpl;
    try (exists 0; split; [lia|apply retainsMoved_refl]).
  - (* cond_br *)
    destruct (isaStrongRetainInst Inst) eqn:Hsr; simpl;
      [|exists 0; split; [lia|apply retainsMoved_refl]].
    destruct (mayBeDecrementedAfter _ _ _ _ _); simpl;
      [exists 0; split; [lia|apply retainsMoved_refl]|].
    unfold isaStrongRetainInst in Hsr. unfold getOperand0.
    destruct (instKind Inst) eqn:Hkind; try done. simpl. by apply Hstrong.
  - (* switch_enum *)
    destruct (isaRetainValueInst Inst) eqn:Hrv; simpl;
      [|exists 0; split; [lia|apply retainsMoved_refl]].
    destruct (bool_decide _); simpl; [|exists 0; split; [lia|apply retainsMoved_refl]].
    destruct (mayBeDecrementedAfter _ _ _ _ _); simpl;
      [exists 0; split; [lia|apply retainsMoved_refl]|].
    exists 0. split; [lia|]. destruct (Hswitch Cases); [done|congruence].
  - (* checked_cast_br *)
    destruct (isaStrongRetainInst Inst) eqn:Hsr; simpl;
      [|exists 0; split; [lia|apply retainsMoved_refl]].
    destruct (mayBeDecrementedAfter _ _ _ _ _); simpl;
      [exists 0; split; [lia|apply retainsMoved_refl]|].
    unfold isaStrongRetainInst in Hsr. unfold getOperand0.
    destruct (instKind Inst) eqn:Hkind; try done. simpl. by apply Hstrong.
Qed.

Lemma wfIds_tryToSinkRefCountInst BB T Inst st :
  wfIds (stFn st) → wfIds (stFn (tryToSinkRefCountInst AA BB T Inst st).1).
Proof.
  apply (Inv_tryToSinkRefCountInst wfIds wfIds_eraseFromParent wfIds_createInst).
Qed.

Lemma sameCFG_tryToSinkRefCountInst BB T Inst st :
  sameCFG (stFn st) (stFn (tryToSinkRefCountInst AA BB T Inst st).1).
Proof.
  apply (Inv_tryToSinkRefCountInst (sameCFG (stFn st))); [..|apply sameCFG_refl].
  - intros id F HF. eapply sameCFG_trans; [done|apply sameCFG_eraseFromParent].
  - intros B k F HF. eapply sameCFG_trans; [done|apply sameCFG_createInst].
Qed.

Lemma tryCandidates_retainsMoved BB T Succs Cands :
  NoDup Succs → BB ∉ Succs →
  ∀ st,
    wfIds (stFn st) → getSuccs (stFn st) BB = Succs →
    (∀ s, s ∈ Succs → s < length (fnBlocks (stFn st))) →
    NoDup (instId <$> Cands) →
    (∀ x, x ∈ Cands → ∃ b, fnBlocks (stFn st) !! BB = Some b ∧ x ∈ bbInsts b) →
    ∃ n, n ≤ length Cands ∧
      retainsMoved Ptr BB Succs n (stFn st) (stFn (tryCandidates AA BB T Cands st).1).
Proof.
  intros Hnd Hself. induction Cands as [|Inst Cands IH]; intros st Hwf Hsuccs Hex Hids Hin.
  { exists 0. split; [done|apply retainsMoved_refl]. }
  rewrite tryCandidates_cons. simpl.
  rewrite fmap_cons in Hids. apply NoDup_cons in Hids as [Hid Hids].
  destruct (Hin Inst) as (b & Hb & HInst); [by left|].
  destruct (tryToSinkRefCountInst_retainsMoved BB T Inst st b) as (n1 & Hn1 & H1);
    [done|done|done|by rewrite Hsuccs|by rewrite Hsuccs|by rewrite Hsuccs|].
  rewrite Hsuccs in H1.
  pose proof (sameCFG_tryToSinkRefCountInst BB T Inst st) as Hcfg.
  destruct (IH (tryToSinkRefCountInst AA BB T Inst st).1) as (n2 & Hn2 & H2).
  - by apply wfIds_tryToSinkRefCountInst.
  - by rewrite (sameCFG_getSuccs _ _ BB Hcfg).
  - intros s Hs. rewrite (proj1 Hcfg). by apply Hex.
  - done.
  - intros x Hx. destruct (Hin x) as (bx & Hbx & Hxin); [by right|].
    destruct (instsKept_tryToSinkRefCountInst AA BB T Inst st BB bx x Hbx Hxin)
      as (b' & Hb' & Hin').
    + intros Heq. apply Hid. rewrite <- Heq. by apply list_elem_of_fmap_2.
    + rewrite mapInst_id in Hin'. by exists b'.
  - exists (n1 + n2). split; [simpl; lia|]. by eapply retainsMoved_trans.
Qed.

End RetainsMoved.

(** X18: the reference-count sinker keeps the number of [strong_retain]s on
    every path.  For a block [BB] that is not its own successor and whose
    successors are blocks of the function, one call of
    [sinkRetainToSuccessors] moves some number [n] of [strong_retain]s of
    [Ptr] (at most the number of instructions of the block): [BB] loses [n]
    of them, each successor gains [n], and every other block has as many as
    before; so on every path from [BB] into a successor the number is the
    same as before.  When the sinker changes the function, [BB] is the only
    predecessor of each of its successors, before and after. *)
Theorem strong_retain_sink_preserves_net_count (AA : AliasAnalysis) (BB : nat)
    (b : SILBasicBlock) (st : PassState) (Ptr : SILValue) :
  wfIds (stFn st) →
  fnBlocks (stFn st) !! BB = Some b →
  BB ∉ getSuccs (stFn st) BB →
  (∀ s, s ∈ getSuccs (stFn st) BB → s < length (fnBlocks (stFn st))) →
  let st' := (sinkRetainToSuccessors AA BB st).1 in
  (∃ n, n ≤ length (bbInsts b) ∧
        retainsMoved Ptr BB (getSuccs (stFn st) BB) n (stFn st) (stFn st')) ∧
  (∀ s, s ∈ getSuccs (stFn st) BB →
     retainsIn Ptr (stFn st') BB + retainsIn Ptr (stFn st') s
     = retainsIn Ptr (stFn st) BB + retainsIn Ptr (stFn st) s) ∧
  ((sinkRetainToSuccessors AA BB st).2 = true →
   ∀ s, s ∈ getSuccs (stFn st) BB →
     getPreds (stFn st) s = [BB] ∧ getPreds (stFn st') s = [BB]).
Proof.
  intros Hwf Hb Hself Hex st'.
  assert (Hmoved : ∃ n, n ≤ length (bbInsts b) ∧
            retainsMoved Ptr BB (getSuccs (stFn st) BB) n (stFn st) (stFn st')).
  { unfold st', sinkRetainToSuccessors. rewrite Hb.
    destruct (allSuccsHaveSinglePredecessor (stFn st) BB) eqn:Hall; simpl;
      [|exists 0; split; [lia|apply retainsMoved_refl]].
    destruct (bbInsts b) as [|i0 insts] eqn:Hinsts;
      [exists 0; split; [lia|apply retainsMoved_refl]|]. rewrite <- Hinsts.
    destruct (tryCandidates_retainsMoved Ptr AA BB (bbTerm b) (getSuccs (stFn st) BB)
                (reverse (bbInsts b))) with (st := st) as (n & Hn & Hmoved);
      try done.
    - unfold getSuccs. rewrite Hb.
      by apply (allSuccsHaveSinglePredecessor_NoDup (stFn st) BB).
    - rewrite fmap_reverse, reverse_Permutation.
      by apply (NoDup_bbInstIds (stFn st) BB b (proj1 Hwf)).
    - intros x Hx. apply elem_of_reverse in Hx. rewrite reverse_involutive in Hx.
      exists b. split; [exact Hb|exact Hx].
    - exists n. split; [|done]. by rewrite length_reverse in Hn. }
  split_and!; [done| |].
  - destruct Hmoved as (n & _ & H1 & H2 & _). intros s Hs.
    rewrite (H2 s Hs). lia.
  - intros Hchanged s Hs.
    assert (Hcfg : sameCFG (stFn st) (stFn st')).
    { apply (Inv_sinkRetainToSuccessors (sameCFG (stFn st))); [..|apply sameCFG_refl].
      - intros id F HF. eapply sameCFG_trans; [done|apply sameCFG_eraseFromParent].
      - intros B k F HF. eapply sameCFG_trans; [done|apply sameCFG_createInst]. }
    rewrite (sameCFG_getPreds _ _ s Hcfg).
    assert (Hall : allSuccsHaveSinglePredecessor (stFn st) BB = true).
    { unfold sinkRetainToSuccessors in Hchanged. rewrite Hb in Hchanged.
      by destruct (allSuccsHaveSinglePredecessor (stFn st) BB). }
    unfold allSuccsHaveSinglePredecessor in Hall.
    apply Is_true_true, forallb_True in Hall.
    pose proof (proj1 (Forall_forall _ _) Hall s Hs) as Hsingle. simpl in Hsingle.
    apply bool_decide_unpack in Hsingle as [p Hp].
    unfold getSinglePredecessor in Hp.
    assert (HBB : BB ∈ getPreds (stFn st) s).
    { apply elem_of_getPreds. exists b. split; [done|].
      unfold getSuccs in Hs. by rewrite Hb in Hs. }
    destruct (getPreds (stFn st) s) as [|p0 [|??]]; try done.
    apply list_elem_of_singleton in HBB as ->. done.
Qed.

Lemma exTwoRetains_wfIds : wfIds (stFn exTwoRetains).
Proof. split; by_computation. Defined.

(** Witness of X18: both [strong_retain]s of block 0 of [exTwoRetains] are
    sunk, and the paths into blocks 1 and 2 still have two of them. *)
Lemma strong_retain_sink_preserves_net_count_witness :
  retainsIn (BBArg 0 0) (stFn exRetainsSunk) 0 = 0 ∧
  retainsIn (BBArg 0 0) (stFn exRetainsSunk) 0 + retainsIn (BBArg 0 0) (stFn exRetainsSunk) 1
  = retainsIn (BBArg 0 0) (stFn exTwoRetains) 0 + retainsIn (BBArg 0 0) (stFn exTwoRetains) 1 ∧
  getPreds (stFn exRetainsSunk) 1 = [0].
Proof.
  destruct (strong_retain_sink_preserves_net_count exNoAlias 0 exCondBrBlock
              exTwoRetains (BBArg 0 0)) as (_ & Hpath & Hpreds).
  - exact exTwoRetains_wfIds.
  - reflexivity.
  - by_computation.
  - intros s Hs. apply elem_of_cons in Hs as [->|Hs]; [simpl; lia|].
    apply list_elem_of_singleton in Hs as ->. simpl. lia.
  - split_and!.
    + reflexivity.
    + apply (Hpath 1). apply list_elem_of_here.
    + apply (Hpreds eq_refl 1). apply list_elem_of_here.
Defined.

(** ** Block-argument sinker: predecessors that do not end in a branch *)

Section TypedEdges.
Context {SILType : Type} (getType : InstKind → SILType)
  (argType : nat → nat → SILType).

Lemma allPredsHaveSingleSuccessor_succs F BB P pb :
  allPredsHaveSingleSuccessor F BB = true → P ∈ getPreds F BB →
  fnBlocks F !! P = Some pb → termSuccessors (bbTerm pb) = [BB].
Proof.
  intros Hall HP Hpb. unfold allPredsHaveSingleSuccessor in Hall.
  apply Is_true_true, forallb_True in Hall.
  pose proof (proj1 (Forall_forall _ _) Hall P HP) as Hs. simpl in Hs.
  apply bool_decide_unpack in Hs. unfold getSingleSuccessor, getSuccs in Hs.
  rewrite Hpb in Hs. destruct (termSuccessors (bbTerm pb)) as [|s [|??]]; try done.
  by injection Hs as ->.
Qed.

(** With typed edges, a predecessor whose terminator is not a branch makes
    [sinkArgument] give up, also when it is the first one. *)
Lemma sinkArgument_nonbranch_not_sunk BB ArgNum st st' Q qb :
  edgesWellTyped getType argType (stFn st) →
  allPredsHaveSingleSuccessor (stFn st) BB = true →
  2 ≤ length (getPreds (stFn st) BB) →
  Q ∈ getPreds (stFn st) BB → fnBlocks (stFn st) !! Q = Some qb →
  isaBranchInst (bbTerm qb) = false → isaCondBranchInst (bbTerm qb) = false →
  sinkArgument BB ArgNum st ≠ Some (st', true).
Proof.
  intros Hty Hall Hlen HQ Hqb Hbr Hcbr
    (b & FirstPred & fp & FSI & Clones & Hb & Harg & Hfirst & Hfp & Hop
     & HFSI & _ & _ & Hcheck & _)%sinkArgument_true_inv.
  apply checkPreds_Some in Hcheck as [_ Hpreds].
  destruct (decide (Q = FirstPred)) as [->|Hne].
  2:{ destruct (Hpreds Q HQ Hne) as (pb' & SI & Hpb' & Hbranch & _).
      rewrite Hqb in Hpb'. injection Hpb' as <-. destruct Hbranch; congruence. }
  rewrite Hfp in Hqb. injection Hqb as <-.
  pose proof (allPredsHaveSingleSuccessor_NoDup _ _ Hall) as Hnd.
  assert (Hother : ∃ P, P ∈ getPreds (stFn st) BB ∧ P ≠ FirstPred).
  { destruct (getPreds (stFn st) BB) as [|P0 [|P Preds]]; simpl in Hlen; [lia..|].
    injection Hfirst as ->. apply NoDup_cons in Hnd as [HP _].
    exists P. split; [right; by left|]. intros ->. apply HP. by left. }
  destruct Hother as (P & HPin & HPne).
  destruct (Hpreds P HPin HPne) as (pb & SI & Hpb & Hbranch & HopP & _ & HSI & _ & Hid).
  apply bool_decide_eq_true_1 in Hid.
  pose proof (allPredsHaveSingleSuccessor_succs _ _ _ _ Hall HPin Hpb) as HsuccP.
  pose proof (allPredsHaveSingleSuccessor_succs _ _ _ _ Hall HQ Hfp) as HsuccQ.
  pose proof (Hty P pb BB b ArgNum SI Hpb) as HtyP.
  pose proof (Hty FirstPred fp BB b ArgNum FSI Hfp) as HtyQ.
  rewrite HsuccP in HtyP. rewrite HsuccQ in HtyQ.
  specialize (HtyP (list_elem_of_here _ _) Hb Harg HopP HSI).
  specialize (HtyQ (list_elem_of_here _ _) Hb Harg Hop HFSI).
  destruct (bbTerm pb); simpl in HsuccP; try done;
    [|destruct Hbranch; done|destruct Hbranch; done].
  destruct (bbTerm fp); simpl in HsuccQ; try done; congruence.
Qed.

Lemma sinkArguments_all_unchanged BB ArgNums st :
  (∀ i, i ∈ ArgNums → sinkArgument BB i st = Some (st, false)) →
  sinkArguments BB ArgNums st false = Some (st, false).
Proof.
  induction ArgNums as [|i ArgNums IH]; intros Hall; [done|]. simpl.
  rewrite (Hall i) by (by left). simpl. apply IH. intros j Hj. apply Hall. by right.
Qed.

(** C5: with typed edges, if some predecessor's terminator is neither a
    branch nor a conditional branch, the block-argument sinker changes
    nothing and reports no change, and so does [sinkArgument] on every
    argument index the sinker calls it on. *)
Theorem nonbranch_predecessor_abandons_index (BB : nat) (st : PassState)
    (Q : nat) (qb : SILBasicBlock) :
  operandsCoverArgs (stFn st) →
  edgesWellTyped getType argType (stFn st) →
  Q ∈ getPreds (stFn st) BB → fnBlocks (stFn st) !! Q = Some qb →
  isaBranchInst (bbTerm qb) = false → isaCondBranchInst (bbTerm qb) = false →
  sinkArgumentsFromPredecessors BB st = Some (st, false) ∧
  ∀ b ArgNum,
    fnBlocks (stFn st) !! BB = Some b → ArgNum < bbArgs b →
    2 ≤ length (getPreds (stFn st) BB) →
    allPredsHaveSingleSuccessor (stFn st) BB = true →
    sinkArgument BB ArgNum st = Some (st, false).
Proof.
  intros Hcov Hty HQ Hqb Hbr Hcbr.
  assert (Hidx : ∀ b ArgNum,
    fnBlocks (stFn st) !! BB = Some b → ArgNum < bbArgs b →
    2 ≤ length (getPreds (stFn st) BB) →
    allPredsHaveSingleSuccessor (stFn st) BB = true →
    sinkArgument BB ArgNum st = Some (st, false)).
  { intros b ArgNum Hb Harg Hlen Hall.
    destruct (sinkArgument_is_Some BB ArgNum st b) as [[st' c] Hsink]; [done..| |done|].
    { intros Hnil. rewrite Hnil in Hlen. simpl in Hlen. lia. }
    destruct c.
    - by destruct (sinkArgument_nonbranch_not_sunk BB ArgNum st st' Q qb
                     Hty Hall Hlen HQ Hqb Hbr Hcbr Hsink).
    - by pose proof (sinkArgument_unchanged _ _ _ _ Hsink) as ->. }
  split; [|done].
  pose proof HQ as (qb' & Hqb' & Hs)%elem_of_getPreds.
  destruct (Hcov Q qb' BB Hqb' Hs) as (b & Hb & _).
  unfold sinkArgumentsFromPredecessors.
  destruct (getPreds (stFn st) BB) as [|P1 [|P2 Preds]] eqn:Hps; [done..|].
  destruct (allPredsHaveSingleSuccessor (stFn st) BB) eqn:Hall; [|done]. simpl.
  rewrite Hb. simpl.
  apply sinkArguments_all_unchanged. intros i Hi%elem_of_seq.
  apply (Hidx b); [done|lia|simpl; lia|done].
Qed.

(** No typing admits the edges of [exSwitchFirstPred], on which the unchecked
    first predecessor lets [sinkArgument] sink: the operand of the
    [switch_enum] and the value the branch passes have the same kind. *)
Lemma exSwitchFirstPred_not_typed :
  ¬ edgesWellTyped getType argType (stFn exSwitchFirstPred).
Proof.
  intros Hty.
  pose proof (Hty 0 _ 2 _ 0 (exPure 10) eq_refl (list_elem_of_here _ _) eq_refl
                (Nat.lt_0_succ _) eq_refl (list_elem_of_here _ _)) as Hne.
  pose proof (Hty 1 _ 2 _ 0 (exPure 11) eq_refl (list_elem_of_here _ _) eq_refl
                (Nat.lt_0_succ _) eq_refl
                (list_elem_of_further _ _ _ (list_elem_of_here _ _))) as Heq.
  simpl in Hne, Heq. done.
Qed.

End TypedEdges.

Lemma exSwitchTyped_operandsCoverArgs : operandsCoverArgs (stFn exSwitchTyped).
Proof.
  intros P pb BB HP HBB.
  destruct P as [|[|[|P]]]; simpl in HP; [| | |done]; injection HP as <-;
    simpl in HBB.
  - apply list_elem_of_singleton in HBB as ->. eexists. split; [reflexivity|].
    simpl. lia.
  - apply list_elem_of_singleton in HBB as ->. eexists. split; [reflexivity|].
    simpl. lia.
  - by apply elem_of_nil in HBB.
Defined.

Lemma exSwitchTyped_edgesWellTyped :
  edgesWellTyped exGetType (λ _ _, 1) (stFn exSwitchTyped).
Proof.
  intros P pb BB b i x HP HBB Hb Hi Hop Hx.
  assert (Hxs : x ∈ [mkInst 10 (GenericInst 5 false []); exPure 11;
                     mkInst 14 (GenericInst 3 true [BBArg 2 0])]) by exact Hx.
  destruct P as [|[|[|P]]]; simpl in HP; [| | |done]; injection HP as <-;
    simpl in HBB; simpl.
  - apply list_elem_of_singleton in HBB as ->. injection Hb as <-.
    destruct i as [|i]; [|simpl in Hi; lia]. injection Hop as Hid.
    repeat (apply elem_of_cons in Hxs as [->|Hxs]; [by simpl in *|]).
    by apply elem_of_nil in Hxs.
  - apply list_elem_of_singleton in HBB as ->. injection Hb as <-.
    destruct i as [|i]; [|simpl in Hi; lia]. injection Hop as Hid.
    repeat (apply elem_of_cons in Hxs as [->|Hxs]; [by simpl in *|]).
    by apply elem_of_nil in Hxs.
  - by apply elem_of_nil in HBB.
Defined.

(** Witness of C5 on [exSwitchTyped]: the first predecessor of block 2 ends
    in a [switch_enum], and nothing is sunk. *)
Lemma nonbranch_predecessor_abandons_index_witness :
  sinkArgumentsFromPredecessors 2 exSwitchTyped = Some (exSwitchTyped, false) ∧
  sinkArgument 2 0 exSwitchTyped = Some (exSwitchTyped, false).
Proof.
  destruct (nonbranch_predecessor_abandons_index exGetType (λ _ _, 1) 2 exSwitchTyped 0
              (mkBB 0 [mkInst 10 (GenericInst 5 false [])]
                 (SwitchEnumInst (InstResult 10) [(exSome, 2)] None)))
    as [Hall Hidx].
  - exact exSwitchTyped_operandsCoverArgs.
  - exact exSwitchTyped_edgesWellTyped.
  - apply list_elem_of_here.
  - reflexivity.
  - reflexivity.
  - reflexivity.
  - split; [exact Hall|].
    apply (Hidx (mkBB 1 [mkInst 14 (GenericInst 3 true [BBArg 2 0])] exReturn));
      [reflexivity|simpl; lia|simpl; lia|reflexivity].
Defined.
